(** * Document management service: change engine, inverted index, search and
      concurrency tokens

    A shallow embedding of the TypeScript sources
    - [src/services/change.service.ts]  (module [ChangeService])
    - [src/services/storage.ts]         (module [Storage])
    - [src/services/search.service.ts]  (module [SearchService])
    - [src/utils/etag.ts]               (module [ETag])
    - the handlers of [src/routes/changes.ts] and [src/routes/documents.ts]
      (module [Routes])
    together with the fragment of the JavaScript number, string and
    regular-expression built-ins those files rely on (modules [JS] and
    [Regex]).  The vocabulary of the statements is in [Specs]; the proofs
    follow in [JSFacts], [LookupFacts], [IndexFacts], [RegexFacts],
    [SearchFacts], [ETagFacts] and [ChangeFacts], and then, by subject, in
    [MatchFacts], [ReplaceFacts], [BatchFacts], [StoreFacts], [PostingFacts],
    [StatsFacts], [ResultFacts], [TokenFacts], [RouteFacts], [ContextFacts]
    and [PrefilterFacts].

    Conventions of the embedding.
    - A JavaScript string is a list of code units.  Code units are 8-bit
      ([ascii]), so the model covers the strings whose code units are all
      below 256.
    - Optional fields ([x?: T]) are [option T]; [undefined] is [None].
    - Numbers that the code itself produces as counts or offsets (lengths,
      match offsets, versions) are [nat].  Numbers that a caller supplies
      ([occurrence], [startIndex] and [endIndex] of a change; [contextSize]
      and [maxResults] of a search) are [JS.number]: a rational, an
      infinity or NaN, so that fractions such as 2.5 are values like any
      other.  Comparison is that of IEEE 754; sums and differences are
      computed exactly, as doubles do whenever the result has at most 53
      significant bits.
    - Mutable module state (the two [Map]s of storage.ts) is passed
      explicitly as a [Store]; the clock and the UUID generator are inputs. *)

From Stdlib Require Import Strings.String Strings.Ascii ZArith QArith Qround.
From Stdlib Require Import Lia List.
From Stdlib Require Import Sorting.Sorted DecimalString DecimalNat.
From stdpp Require Import base option list gmap strings.

Abbreviation jsstring := (list ascii) (only parsing).

(** [str "abc"] is the JavaScript string literal ['abc']. *)
Definition str (s : string) : jsstring := list_ascii_of_string s.

(* ===================================================================== *)
(** * JavaScript built-ins on strings and arrays *)
(* ===================================================================== *)
Module JS.

Definition code (c : ascii) : nat := nat_of_ascii c.

Definition inRange (lo hi : nat) (c : ascii) : bool :=
  (lo <=? code c) && (code c <=? hi).

(** The class [\w]: [A-Za-z0-9_]. *)
Definition isWordChar (c : ascii) : bool :=
  inRange 97 122 c || inRange 65 90 c || inRange 48 57 c || (code c =? 95).

(** The class [\s] (also the characters removed by [trim]): TAB, LF, VT, FF,
    CR, SPACE and NO-BREAK SPACE are the white space code units below 256. *)
Definition isSpace (c : ascii) : bool :=
  inRange 9 13 c || (code c =? 32) || (code c =? 160).

(** [String.prototype.toLowerCase] on one code unit below 256. *)
Definition toLowerChar (c : ascii) : ascii :=
  if inRange 65 90 c || inRange 192 214 c || inRange 216 222 c
  then ascii_of_nat (code c + 32) else c.

Definition toLowerCase (s : jsstring) : jsstring := map toLowerChar s.

(** The regular-expression [Canonicalize] operation under the [i] flag
    (without [u]): the upper-case mapping when it yields one code unit.  The
    two code units below 256 whose upper case lies above 255 are kept, which
    leaves the induced equivalence on 8-bit code units unchanged. *)
Definition canonicalize (c : ascii) : ascii :=
  if inRange 97 122 c || inRange 224 246 c || inRange 248 254 c
  then ascii_of_nat (code c - 32) else c.

(** [s.substring(a, b)]: both ends clamped to the length, swapped if out of
    order. *)
Definition substring (s : jsstring) (a b : nat) : jsstring :=
  let a' := a `min` length s in
  let b' := b `min` length s in
  take ((a' `max` b') - (a' `min` b')) (drop (a' `min` b') s).

(** [s.substring(a)]. *)
Definition substringFrom (s : jsstring) (a : nat) : jsstring :=
  substring s a (length s).

(** ** Numbers *)

(** A value of type [number]. *)
Inductive number : Type :=
  | Finite (q : Q)
  | PosInfinity
  | NegInfinity
  | NaN.

(** A count or an offset, as a number. *)
Definition ofNat (n : nat) : number := Finite (inject_Z (Z.of_nat n)).

(** [x < y]: false when either side is NaN. *)
Definition ltb (x y : number) : bool :=
  match x, y with
  | Finite a, Finite b => negb (Qle_bool b a)
  | Finite _, PosInfinity => true
  | NegInfinity, Finite _ => true
  | NegInfinity, PosInfinity => true
  | _, _ => false
  end.

(** [x <= y]: false when either side is NaN. *)
Definition leb (x y : number) : bool :=
  match x, y with
  | Finite a, Finite b => Qle_bool a b
  | Finite _, PosInfinity => true
  | NegInfinity, Finite _ => true
  | NegInfinity, PosInfinity => true
  | PosInfinity, PosInfinity => true
  | NegInfinity, NegInfinity => true
  | _, _ => false
  end.

(** [x > y] and [x >= y]. *)
Definition gtb (x y : number) : bool := ltb y x.
Definition geb (x y : number) : bool := leb y x.

(** [x + y]. *)
Definition add (x y : number) : number :=
  match x, y with
  | NaN, _ | _, NaN => NaN
  | Finite a, Finite b => Finite (a + b)
  | PosInfinity, NegInfinity | NegInfinity, PosInfinity => NaN
  | PosInfinity, _ | _, PosInfinity => PosInfinity
  | NegInfinity, _ | _, NegInfinity => NegInfinity
  end.

(** [- x]. *)
Definition neg (x : number) : number :=
  match x with
  | Finite a => Finite (- a)
  | PosInfinity => NegInfinity
  | NegInfinity => PosInfinity
  | NaN => NaN
  end.

(** [x - y]. *)
Definition sub (x y : number) : number := add x (neg y).

Definition isNaN (x : number) : bool :=
  match x with NaN => true | _ => false end.

(** [Math.max(x, y)] and [Math.min(x, y)]: NaN when either argument is. *)
Definition Math_max (x y : number) : number :=
  if isNaN x || isNaN y then NaN else if ltb x y then y else x.

Definition Math_min (x y : number) : number :=
  if isNaN x || isNaN y then NaN else if ltb y x then y else x.

(** [Number.isInteger(x)]. *)
Definition isInteger (x : number) : bool :=
  match x with
  | Finite q => Qeq_bool q (inject_Z (Qfloor q))
  | _ => false
  end.

(** The integer part of a rational, rounding towards zero. *)
Definition truncate (q : Q) : Z :=
  if Qle_bool 0 q then Qfloor q else Qceiling q.

(** [a[x]] for a number [x]: the element at that position when [x] is a
    non-negative integer below the length, [undefined] for any other
    number. *)
Definition Array_get {A} (a : list A) (x : number) : option A :=
  match x with
  | Finite q =>
      if isInteger x && (0 <=? truncate q)%Z then a !! Z.to_nat (truncate q)
      else None
  | _ => None
  end.

(** The offset that [slice] makes of an argument: NaN counts as zero, the
    fraction is dropped, a negative value counts from the end, and the
    result is clamped to the length. *)
Definition relativeIndex (len : nat) (x : number) : nat :=
  match x with
  | Finite q =>
      let r := truncate q in
      if (r <? 0)%Z then Z.to_nat (Z.max (Z.of_nat len + r) 0)
      else Z.to_nat (Z.min r (Z.of_nat len))
  | PosInfinity => len
  | NegInfinity => 0
  | NaN => 0
  end.

(** [s.slice(start, end)]: empty when the end is not after the start. *)
Definition slice (s : jsstring) (start end_ : number) : jsstring :=
  let from := relativeIndex (length s) start in
  let to := relativeIndex (length s) end_ in
  take (to - from) (drop from s).

(** [s.split(sep)] for a one-character separator. *)
Fixpoint splitChar (sep : ascii) (s : jsstring) : list jsstring :=
  match s with
  | [] => [[]]
  | c :: rest =>
      if Ascii.eqb c sep then [] :: splitChar sep rest
      else match splitChar sep rest with
           | [] => [[c]]
           | w :: ws => (c :: w) :: ws
           end
  end.

(** [s.split(/\s+/)]: the pieces between maximal runs of white space; a
    leading or trailing run leaves an empty piece at that end. *)
Fixpoint splitSpaces_from (inRun : bool) (s : jsstring) : list jsstring :=
  match s with
  | [] => [[]]
  | c :: rest =>
      if isSpace c then
        if inRun then splitSpaces_from true rest
        else [] :: splitSpaces_from true rest
      else match splitSpaces_from false rest with
           | [] => [[c]]
           | w :: ws => (c :: w) :: ws
           end
  end.

Definition splitSpaces (s : jsstring) : list jsstring :=
  splitSpaces_from false s.

Fixpoint dropLeadingSpaces (s : jsstring) : jsstring :=
  match s with
  | [] => []
  | c :: rest => if isSpace c then dropLeadingSpaces rest else s
  end.

(** [s.trim()]. *)
Definition trim (s : jsstring) : jsstring :=
  rev (dropLeadingSpaces (rev (dropLeadingSpaces s))).

(** [Number.prototype.toString] on a non-negative integer (below 10^21,
    where JavaScript prints no exponent): its decimal digits. *)
Definition numberToString (n : nat) : jsstring :=
  str (NilEmpty.string_of_uint (Nat.to_uint n)).

(** A [Set] of strings keeps its elements in insertion order without
    repetition. *)
Definition Set_has (s : list jsstring) (x : jsstring) : bool :=
  bool_decide (x ∈ s).

Definition Set_add (s : list jsstring) (x : jsstring) : list jsstring :=
  if Set_has s x then s else s ++ [x].

Definition Set_delete (s : list jsstring) (x : jsstring) : list jsstring :=
  filter (λ y, y ≠ x) s.

(** [new Set(iterable)]. *)
Definition Set_from (l : list jsstring) : list jsstring :=
  fold_left Set_add l [].

(** [Array.prototype.sort] with a consistent comparator, on an array
    without [undefined]: a stable sort, here by insertion.  [cmp a b <= 0]
    keeps [a] before [b]. *)
Fixpoint sortInsert {A} (cmp : A → A → Z) (x : A) (l : list A) : list A :=
  match l with
  | [] => [x]
  | y :: ys => if (cmp x y <=? 0)%Z then x :: y :: ys
               else y :: sortInsert cmp x ys
  end.

Definition sort {A} (cmp : A → A → Z) (l : list A) : list A :=
  foldr (sortInsert cmp) [] l.

(** [Array.prototype.sort] on an array that may hold [undefined]: the
    defined elements are sorted with the comparator, and the [undefined]
    ones, which the comparator never sees, follow them. *)
Definition Array_sort {A} (cmp : A → A → Z) (l : list (option A))
    : list (option A) :=
  map Some (sort cmp (omap (λ x, x) l))
  ++ filter (λ x, x = None) l.

End JS.

(* ===================================================================== *)
(** * Regular expressions: the fragment built by [buildPattern] *)
(* ===================================================================== *)
Module Regex.
Import JS.

(** The patterns of this program are sequences of literal characters,
    optionally enclosed in word-boundary assertions. *)
Inductive atom : Type :=
  | Lit (c : ascii)
  | WordBoundary.

(** A regular-expression object.  [lastIndex], its only mutable state, is
    threaded explicitly through [exec]. *)
Record RegExp : Type := mkRegExp {
  source : jsstring;
  atoms : list atom;
  global : bool;
  ignoreCase : bool
}.

(** The syntax characters [. * + ? ^ $ { } ( ) | [ ] \]. *)
Definition isSyntaxChar (c : ascii) : bool :=
  bool_decide (c ∈ str ".*+?^${}()|[]\").

(** Parsing of a pattern source.  Outside the fragment (an unescaped syntax
    character, an escape other than [\b] or an escaped syntax character)
    the result is [None], which is where [new RegExp] either throws or
    builds a pattern this model gives no meaning to. *)
Fixpoint parseSource (src : jsstring) : option (list atom) :=
  match src with
  | [] => Some []
  | c :: rest =>
      if Ascii.eqb c "\" then
        match rest with
        | [] => None
        | d :: rest' =>
            if Ascii.eqb d "b" then cons WordBoundary <$> parseSource rest'
            else if isSyntaxChar d then cons (Lit d) <$> parseSource rest'
            else None
        end
      else if isSyntaxChar c then None
      else cons (Lit c) <$> parseSource rest
  end.

(** [new RegExp(source, flags)] with flags ['g'] ([ic = false]) or ['gi']. *)
Definition RegExp_new (src : jsstring) (g ic : bool) : option RegExp :=
  ats ← parseSource src;
  Some (mkRegExp src ats g ic).

Definition charMatches (ic : bool) (c d : ascii) : bool :=
  if ic then Ascii.eqb (canonicalize c) (canonicalize d) else Ascii.eqb c d.

(** [IsWordChar(e)] of the specification: false outside the input. *)
Definition isWordCharAt (input : jsstring) (e : nat) : bool :=
  match input !! e with
  | Some c => isWordChar c
  | None => false
  end.

(** The assertion [\b] at offset [pos]. *)
Definition wordBoundaryAt (input : jsstring) (pos : nat) : bool :=
  xorb (match pos with 0 => false | S p => isWordCharAt input p end)
       (isWordCharAt input pos).

(** Matching the atoms at a fixed start offset; the result is the end
    offset.  The fragment has no alternatives, so there is no
    backtracking. *)
Fixpoint matchAtoms (ic : bool) (ats : list atom) (input : jsstring)
    (pos : nat) : option nat :=
  match ats with
  | [] => Some pos
  | Lit c :: rest =>
      match input !! pos with
      | Some d => if charMatches ic c d then matchAtoms ic rest input (S pos)
                  else None
      | None => None
      end
  | WordBoundary :: rest =>
      if wordBoundaryAt input pos then matchAtoms ic rest input pos else None
  end.

(** One successful match: where it starts and what it matched. *)
Record MatchResult : Type := mkMatchResult {
  m_index : nat;
  m_text : jsstring
}.

(** The scan of [RegExpBuiltinExec]: try offsets [i], [i+1], ... ([k] of
    them). *)
Fixpoint searchFrom (rx : RegExp) (input : jsstring) (k i : nat)
    : option MatchResult :=
  match k with
  | 0 => None
  | S k' =>
      match matchAtoms (ignoreCase rx) (atoms rx) input i with
      | Some e => Some (mkMatchResult i (substring input i e))
      | None => searchFrom rx input k' (S i)
      end
  end.

(** [rx.exec(input)] with [rx.lastIndex = lastIndex]: the match, if any,
    and the new value of [lastIndex].  A non-global regex starts at 0 and
    leaves [lastIndex] alone. *)
Definition exec (rx : RegExp) (input : jsstring) (lastIndex : nat)
    : option MatchResult * nat :=
  let start := if global rx then lastIndex else 0 in
  if length input <? start then (None, if global rx then 0 else lastIndex)
  else
    match searchFrom rx input (S (length input) - start) start with
    | Some m => (Some m, if global rx then m_index m + length (m_text m)
                         else lastIndex)
    | None => (None, if global rx then 0 else lastIndex)
    end.

(** The loop shared by [String.prototype.match] and
    [String.prototype.replace] on a global regex: call [exec] until it
    fails, advancing [lastIndex] by one after an empty match. *)
Fixpoint execAll (fuel : nat) (rx : RegExp) (input : jsstring)
    (lastIndex : nat) : list MatchResult :=
  match fuel with
  | 0 => []
  | S fuel' =>
      match exec rx input lastIndex with
      | (None, _) => []
      | (Some m, lastIndex') =>
          m :: execAll fuel' rx input
                 (if length (m_text m) =? 0 then S lastIndex' else lastIndex')
      end
  end.

(** [input.match(rx)] for a global [rx]: the matched texts, or [null]. *)
Definition String_match (input : jsstring) (rx : RegExp)
    : option (list jsstring) :=
  match execAll (S (S (length input))) rx input 0 with
  | [] => None
  | ms => Some (map m_text ms)
  end.

(** [GetSubstitution] for a pattern without capture groups: [$$], [$&],
    [$`] and [$'] are expanded, every other character (also a [$] followed
    by a digit or by [<]) stands for itself. *)
Fixpoint GetSubstitution (matched input : jsstring) (position : nat)
    (template : jsstring) : jsstring :=
  match template with
  | [] => []
  | c :: rest =>
      if Ascii.eqb c "$" then
        match rest with
        | [] => [c]
        | d :: rest' =>
            if Ascii.eqb d "$" then
              d :: GetSubstitution matched input position rest'
            else if Ascii.eqb d "&" then
              matched ++ GetSubstitution matched input position rest'
            else if Ascii.eqb d "`" then
              substring input 0 position
                ++ GetSubstitution matched input position rest'
            else if Ascii.eqb d "'" then
              substringFrom input (position + length matched)
                ++ GetSubstitution matched input position rest'
            else c :: GetSubstitution matched input position rest
        end
      else c :: GetSubstitution matched input position rest
  end.

(** The assembly of the result in [RegExp.prototype[Symbol.replace]]. *)
Fixpoint replaceResults (input : jsstring) (results : list MatchResult)
    (template : jsstring) (nextSourcePosition : nat) : jsstring :=
  match results with
  | [] => substringFrom input nextSourcePosition
  | r :: rest =>
      let position := m_index r `min` length input in
      if nextSourcePosition <=? position then
        substring input nextSourcePosition position
          ++ GetSubstitution (m_text r) input position template
          ++ replaceResults input rest template (position + length (m_text r))
      else replaceResults input rest template nextSourcePosition
  end.

(** [input.replace(rx, template)] with a string [template]. *)
Definition String_replace (input : jsstring) (rx : RegExp)
    (template : jsstring) : jsstring :=
  if global rx then
    replaceResults input (execAll (S (S (length input))) rx input 0)
      template 0
  else
    match exec rx input 0 with
    | (Some m, _) => replaceResults input [m] template 0
    | (None, _) => input
    end.

End Regex.

(* ===================================================================== *)
(** * src/services/change.service.ts *)
(* ===================================================================== *)
Module ChangeService.
Import JS Regex.

(** [interface Change] of src/types/document.ts. *)
Record Change : Type := mkChange {
  searchText : jsstring;
  replaceText : jsstring;
  matchCase : option bool;
  matchWholeWord : option bool;
  replaceAll : option bool;
  occurrence : option number;
  startIndex : option number;
  endIndex : option number;
  beforeContext : option jsstring;
  afterContext : option jsstring
}.

(** [interface ChangeResult]. *)
Record ChangeResult : Type := mkChangeResult {
  r_searchText : jsstring;
  r_replaceText : jsstring;
  matchesFound : nat;
  replacementsMade : nat;
  positions : option (list nat)
}.

(** An element of the array returned by [findAllMatches]; [mlength] is the
    field [length] of the source. *)
Record Match : Type := mkMatch {
  index : nat;
  mlength : nat;
  text : jsstring
}.

(** [str.replace(/[.*+?^${}()|[\]\\]/g, '\\$&')]: a backslash in front of
    every syntax character. *)
Definition escapeRegex (s : jsstring) : jsstring :=
  flat_map (λ c, if isSyntaxChar c then ["\"%char; c] else [c]) s.

Definition buildPattern (change : Change) : option RegExp :=
  let matchCase := default true (matchCase change) in
  let matchWholeWord := default false (matchWholeWord change) in
  let pattern := escapeRegex (searchText change) in
  let pattern := if matchWholeWord then str "\b" ++ pattern ++ str "\b"
                 else pattern in
  RegExp_new pattern true (negb matchCase).

Definition usesAdvancedTargeting (change : Change) : bool :=
  bool_decide (startIndex change ≠ None)
  || bool_decide (endIndex change ≠ None)
  || bool_decide (beforeContext change ≠ None)
  || bool_decide (afterContext change ≠ None)
  || (bool_decide (replaceAll change = Some false)
      && bool_decide (occurrence change ≠ None)).

(** The result is [None] where the source throws: here only if
    [buildPattern] failed, which it never does (see [buildPattern_total]). *)
Definition applyFastPath (content : jsstring) (change : Change)
    : option (jsstring * ChangeResult) :=
  let replaceAll := default true (replaceAll change) in
  pattern ← buildPattern change;
  let matches := String_match content pattern in
  let matchesFound := match matches with Some ms => length ms | None => 0 end in
  if matchesFound =? 0 then
    Some (content,
          mkChangeResult (searchText change) (replaceText change) 0 0 None)
  else if replaceAll then
    Some (String_replace content pattern (replaceText change),
          mkChangeResult (searchText change) (replaceText change)
            matchesFound matchesFound None)
  else
    let nonGlobalPattern :=
      mkRegExp (source pattern) (atoms pattern) false (ignoreCase pattern) in
    Some (String_replace content nonGlobalPattern (replaceText change),
          mkChangeResult (searchText change) (replaceText change)
            matchesFound 1 None).

(** The [while] loop of [findAllMatches]; [searchPattern] is a fresh copy of
    [pattern], so the scan starts at [lastIndex = 0]. *)
Fixpoint findAllMatches_loop (fuel : nat) (content : jsstring)
    (searchPattern : RegExp) (lastIndex : nat) : list Match :=
  match fuel with
  | 0 => []
  | S fuel' =>
      match exec searchPattern content lastIndex with
      | (None, _) => []
      | (Some m, lastIndex') =>
          mkMatch (m_index m) (length (m_text m)) (m_text m)
          :: findAllMatches_loop fuel' content searchPattern
               (if length (m_text m) =? 0 then S lastIndex' else lastIndex')
      end
  end.

(** Every iteration moves [lastIndex] forward and [exec] fails once it
    exceeds the length, so [length content + 2] iterations are never
    exhausted (see [findAllMatches_loop_fuel]). *)
Definition findAllMatches (content : jsstring) (pattern : RegExp)
    : list Match :=
  findAllMatches_loop (S (S (length content))) content pattern 0.

(** [if (beforeContext)] is false for [undefined] and for the empty
    string. *)
Definition truthy (s : option jsstring) : option jsstring :=
  match s with
  | Some (c :: r) => Some (c :: r)
  | _ => None
  end.

Definition validateContext (content : jsstring) (matchIndex matchLength : nat)
    (beforeContext afterContext : option jsstring) : bool :=
  let beforeOk :=
    match truthy beforeContext with
    | Some bc =>
        let beforeStart := (Z.of_nat matchIndex - Z.of_nat (length bc))%Z in
        if (beforeStart <? 0)%Z then false
        else bool_decide
               (substring content (Z.to_nat beforeStart) matchIndex = bc)
    | None => true
    end in
  if negb beforeOk then false
  else
    match truthy afterContext with
    | Some ac =>
        let afterEnd := matchIndex + matchLength + length ac in
        if length content <? afterEnd then false
        else bool_decide
               (substring content (matchIndex + matchLength) afterEnd = ac)
    | None => true
    end.

Definition isInRange (matchIndex matchLength : nat)
    (startIndex endIndex : option number) : bool :=
  match startIndex, endIndex with
  | None, None => true
  | _, _ =>
      let matchEnd := matchIndex + matchLength in
      if match startIndex with
         | Some s => ltb (ofNat matchIndex) s
         | None => false
         end
      then false
      else if match endIndex with
              | Some e => gtb (ofNat matchEnd) e
              | None => false
              end
      then false
      else true
  end.

(** [allMatches.filter(...)] of [applySlowPath]. *)
Definition eligibleMatches (content : jsstring) (change : Change)
    (allMatches : list Match) : list Match :=
  filter (λ m,
      isInRange (index m) (mlength m) (startIndex change) (endIndex change)
      && validateContext content (index m) (mlength m)
           (beforeContext change) (afterContext change) = true)
    allMatches.

(** The choice of [matchesToReplace], before sorting.  An element of the
    array is [None] where the source reads [undefined] from
    [eligibleMatches]: [eligibleMatches[occurrence - 1]] when
    [occurrence - 1] is no position of the array, as for an occurrence of
    1.5. *)
Definition selectMatches (change : Change) (eligibleMatches : list Match)
    : list (option Match) :=
  let replaceAll := default true (replaceAll change) in
  if bool_decide (startIndex change ≠ None)
     || bool_decide (endIndex change ≠ None) then map Some eligibleMatches
  else
    match occurrence change with
    | Some occurrence =>
        if negb replaceAll && gtb occurrence (ofNat 0) then
          if leb occurrence (ofNat (length eligibleMatches)) then
            [Array_get eligibleMatches (sub occurrence (ofNat 1))]
          else []
        else if negb replaceAll then [eligibleMatches !! 0]
        else map Some eligibleMatches
    | None =>
        if negb replaceAll then [eligibleMatches !! 0]
        else map Some eligibleMatches
    end.

(** [matchesToReplace] as the [for] loop visits it:
    [sort((a, b) => b.index - a.index)]. *)
Definition matchesToReplace (change : Change) (eligibleMatches : list Match)
    : list (option Match) :=
  Array_sort (λ a b, Z.of_nat (index b) - Z.of_nat (index a))%Z
    (selectMatches change eligibleMatches).

(** The state of the splice loop: [newContent], [positions],
    [replacementsMade]. *)
Definition spliceStep (replaceText : jsstring)
    (st : jsstring * list nat * nat) (m : Match) : jsstring * list nat * nat :=
  let '(newContent, positions, replacementsMade) := st in
  (substring newContent 0 (index m) ++ replaceText
     ++ substringFrom newContent (index m + mlength m),
   index m :: positions,
   S replacementsMade).

(** The [for] loop over [matchesToReplace].  Reading [match.index] of an
    [undefined] element throws a [TypeError]: the result is [None]. *)
Fixpoint spliceLoop (replaceText : jsstring)
    (matchesToReplace : list (option Match))
    (st : jsstring * list nat * nat) : option (jsstring * list nat * nat) :=
  match matchesToReplace with
  | [] => Some st
  | None :: _ => None
  | Some m :: rest => spliceLoop replaceText rest (spliceStep replaceText st m)
  end.

(** The result is [None] where the source throws: when the loop meets an
    [undefined] element ([buildPattern] never fails). *)
Definition applySlowPath (content : jsstring) (change : Change)
    : option (jsstring * ChangeResult) :=
  pattern ← buildPattern change;
  let allMatches := findAllMatches content pattern in
  let matchesFound := length allMatches in
  let eligible := eligibleMatches content change allMatches in
  '(newContent, positions, replacementsMade) ←
    (if 0 <? length eligible then
       spliceLoop (replaceText change) (matchesToReplace change eligible)
         (content, [], 0)
     else Some (content, [], 0));
  Some (newContent,
        mkChangeResult (searchText change) (replaceText change)
          matchesFound replacementsMade
          (if 0 <? length positions then Some positions else None)).

Definition applySingleChange (content : jsstring) (change : Change)
    : option (jsstring * ChangeResult) :=
  if negb (usesAdvancedTargeting change) then applyFastPath content change
  else applySlowPath content change.

(** [applyChanges]: the changes in order, each on the output of the one
    before; an exception of one of them ends the call. *)
Fixpoint applyChanges_loop (currentContent : jsstring) (changes : list Change)
    (results : list ChangeResult) (totalReplacements : nat)
    : option (jsstring * list ChangeResult * nat) :=
  match changes with
  | [] => Some (currentContent, results, totalReplacements)
  | change :: rest =>
      '(newContent, result) ← applySingleChange currentContent change;
      applyChanges_loop newContent rest (results ++ [result])
        (totalReplacements + replacementsMade result)
  end.

Definition applyChanges (content : jsstring) (changes : list Change)
    : option (jsstring * list ChangeResult * nat) :=
  applyChanges_loop content changes [] 0.

(** A change with only the two mandatory fields. *)
Definition simpleChange (search replace : jsstring) : Change :=
  mkChange search replace None None None None None None None None.

End ChangeService.

(* ===================================================================== *)
(** * src/services/storage.ts *)
(* ===================================================================== *)
Module Storage.
Import JS.

(** [interface DocumentMetadata] and [interface Document]. *)
Record DocumentMetadata : Type := mkMetadata {
  author : option jsstring;
  tags : option (list jsstring);
  wordCount : nat;
  characterCount : nat
}.

Record Document : Type := mkDocument {
  id : jsstring;
  title : jsstring;
  content : jsstring;
  metadata : DocumentMetadata;
  createdAt : jsstring;
  updatedAt : jsstring;
  version : nat
}.

Record CreateDocumentInput : Type := mkCreateInput {
  ci_title : jsstring;
  ci_content : jsstring;
  ci_author : option jsstring;
  ci_tags : option (list jsstring)
}.

(** [Partial<Pick<Document, 'title' | 'content'>>]. *)
Record DocumentUpdates : Type := mkUpdates {
  u_title : option jsstring;
  u_content : option jsstring
}.

Record PatchDocumentInput : Type := mkPatch {
  p_title : option jsstring;
  p_author : option jsstring;
  p_tags : option (list jsstring)
}.

(** The module state: [documents] and [wordIndex].  A posting set is a
    [Set<string>], kept in insertion order. *)
Record Store : Type := mkStore {
  documents : gmap jsstring Document;
  wordIndex : gmap jsstring (list jsstring)
}.

(** The state after [clearAllDocuments], which is also the initial one. *)
Definition emptyStore : Store := mkStore ∅ ∅.

Definition extractWords (text : jsstring) : list jsstring :=
  filter (λ word, 0 < length word)
    (splitSpaces
       (map (λ c, if negb (isWordChar c) && negb (isSpace c) then " "%char
                  else c)
            (toLowerCase text))).

Definition countWords (text : jsstring) : nat := length (extractWords text).

(** [new Set([...extractWords(doc.title), ...extractWords(doc.content)])]. *)
Definition docWords (doc : Document) : list jsstring :=
  Set_from (extractWords (title doc) ++ extractWords (content doc)).

Definition indexWord (docId : jsstring) (idx : gmap jsstring (list jsstring))
    (word : jsstring) : gmap jsstring (list jsstring) :=
  let idx := match idx !! word with
             | None => <[word := []]> idx
             | Some _ => idx
             end in
  match idx !! word with
  | Some docIds => <[word := Set_add docIds docId]> idx
  | None => idx
  end.

Definition indexDocument (doc : Document)
    (idx : gmap jsstring (list jsstring)) : gmap jsstring (list jsstring) :=
  fold_left (indexWord (id doc)) (docWords doc) idx.

Definition unindexWord (docId : jsstring)
    (idx : gmap jsstring (list jsstring)) (word : jsstring)
    : gmap jsstring (list jsstring) :=
  match idx !! word with
  | Some docIds =>
      let docIds := Set_delete docIds docId in
      if length docIds =? 0 then delete word idx
      else <[word := docIds]> idx
  | None => idx
  end.

Definition removeFromIndex (doc : Document)
    (idx : gmap jsstring (list jsstring)) : gmap jsstring (list jsstring) :=
  fold_left (unindexWord (id doc)) (docWords doc) idx.

(** [createDocument]; [uuid] is the value of [randomUUID()] and [now] that
    of [new Date().toISOString()]. *)
Definition createDocument (input : CreateDocumentInput) (uuid now : jsstring)
    (s : Store) : Store * Document :=
  let doc :=
    mkDocument uuid (ci_title input) (ci_content input)
      (mkMetadata (ci_author input) (ci_tags input)
         (countWords (ci_content input)) (length (ci_content input)))
      now now 1 in
  (mkStore (<[id doc := doc]> (documents s)) (indexDocument doc (wordIndex s)),
   doc).

Definition getDocument (docId : jsstring) (s : Store) : option Document :=
  documents s !! docId.

(** [updateDocument]: the stored object is mutated in place, so the map
    entry under [docId] is the updated document. *)
Definition updateDocument (docId : jsstring) (updates : DocumentUpdates)
    (now : jsstring) (s : Store) : Store * option Document :=
  match documents s !! docId with
  | None => (s, None)
  | Some doc =>
      let idx := removeFromIndex doc (wordIndex s) in
      let doc := match u_title updates with
                 | Some t => mkDocument (id doc) t (content doc) (metadata doc)
                               (createdAt doc) (updatedAt doc) (version doc)
                 | None => doc
                 end in
      let doc := match u_content updates with
                 | Some c =>
                     mkDocument (id doc) (title doc) c
                       (mkMetadata (author (metadata doc))
                          (tags (metadata doc)) (countWords c) (length c))
                       (createdAt doc) (updatedAt doc) (version doc)
                 | None => doc
                 end in
      let doc := mkDocument (id doc) (title doc) (content doc) (metadata doc)
                   (createdAt doc) now (version doc + 1) in
      let idx := indexDocument doc idx in
      (mkStore (<[docId := doc]> (documents s)) idx, Some doc)
  end.

Definition deleteDocument (docId : jsstring) (s : Store) : Store * bool :=
  match documents s !! docId with
  | None => (s, false)
  | Some doc =>
      (mkStore (delete docId (documents s))
         (removeFromIndex doc (wordIndex s)),
       true)
  end.

Definition patchDocument (docId : jsstring) (patch : PatchDocumentInput)
    (now : jsstring) (s : Store) : Store * option Document :=
  match documents s !! docId with
  | None => (s, None)
  | Some doc =>
      let titleChanged :=
        match p_title patch with
        | Some t => bool_decide (t ≠ title doc)
        | None => false
        end in
      let idx := if titleChanged then removeFromIndex doc (wordIndex s)
                 else wordIndex s in
      let doc := match p_title patch with
                 | Some t => mkDocument (id doc) t (content doc) (metadata doc)
                               (createdAt doc) (updatedAt doc) (version doc)
                 | None => doc
                 end in
      let doc := match p_author patch with
                 | Some a =>
                     mkDocument (id doc) (title doc) (content doc)
                       (mkMetadata (Some a) (tags (metadata doc))
                          (wordCount (metadata doc))
                          (characterCount (metadata doc)))
                       (createdAt doc) (updatedAt doc) (version doc)
                 | None => doc
                 end in
      let doc := match p_tags patch with
                 | Some ts =>
                     mkDocument (id doc) (title doc) (content doc)
                       (mkMetadata (author (metadata doc)) (Some ts)
                          (wordCount (metadata doc))
                          (characterCount (metadata doc)))
                       (createdAt doc) (updatedAt doc) (version doc)
                 | None => doc
                 end in
      let doc := mkDocument (id doc) (title doc) (content doc) (metadata doc)
                   (createdAt doc) now (version doc + 1) in
      let idx := if titleChanged then indexDocument doc idx else idx in
      (mkStore (<[docId := doc]> (documents s)) idx, Some doc)
  end.

Definition getDocumentsByIds (ids : list jsstring) (s : Store)
    : list Document :=
  omap (λ docId, documents s !! docId) ids.

(** [Array.from(docIds)] of a posting set, or the empty array. *)
Definition findDocumentsByWord (word : jsstring) (s : Store)
    : list jsstring :=
  match wordIndex s !! toLowerCase word with
  | Some docIds => docIds
  | None => []
  end.

(** The intersection loop: stops as soon as [result] is empty. *)
Fixpoint intersectLoop (result : list jsstring)
    (postingLists : list (list jsstring)) : list jsstring :=
  match postingLists with
  | [] => result
  | nextSet :: rest =>
      if 0 <? length result then
        intersectLoop (filter (λ docId, Set_has nextSet docId = true) result)
          rest
      else result
  end.

Definition findDocumentsByWords (words : list jsstring) (s : Store)
    : list jsstring :=
  match words with
  | [] => []
  | [word] => findDocumentsByWord word s
  | _ =>
      let postingLists :=
        omap (λ word,
               match wordIndex s !! toLowerCase word with
               | Some set => if 0 <? length set then Some set else None
               | None => None
               end) words in
      if negb (length postingLists =? length words) then []
      else
        let postingLists :=
          sort (λ a b, Z.of_nat (length a) - Z.of_nat (length b))%Z
               postingLists in
        match postingLists with
        | first :: rest => intersectLoop (Set_from first) rest
        | [] => []
        end
  end.

(** [getIndexStats]: the number of keys of the index and the sum of the
    sizes of the posting sets (a sum, so the order of iteration over the
    [Map] does not matter). *)
Record IndexStats : Type := mkIndexStats {
  uniqueWords : nat;
  totalPostings : nat
}.

Definition getIndexStats (s : Store) : IndexStats :=
  mkIndexStats (size (wordIndex s))
    (map_fold (λ _ docIds totalPostings, totalPostings + length docIds) 0
       (wordIndex s)).

Definition clearAllDocuments (s : Store) : Store := mkStore ∅ ∅.

Definition getDocumentCount (s : Store) : nat := size (documents s).

End Storage.

(* ===================================================================== *)
(** * src/services/search.service.ts *)
(* ===================================================================== *)
Module SearchService.
Import JS Regex Storage.

Record SearchQuery : Type := mkSearchQuery {
  query : jsstring;
  documentIds : option (list jsstring);
  caseSensitive : option bool;
  contextSize : option number;
  maxResults : option number
}.

Record SearchMatch : Type := mkSearchMatch {
  documentId : jsstring;
  documentTitle : jsstring;
  position : nat;
  context : jsstring;
  matchedText : jsstring
}.

Record SearchResponse : Type := mkSearchResponse {
  resp_query : jsstring;
  totalMatches : nat;
  documentsSearched : nat;
  results : list SearchMatch
}.

Definition escapeRegex (s : jsstring) : jsstring :=
  ChangeService.escapeRegex s.

Definition extractContext (content : jsstring) (matchStart matchEnd : nat)
    (contextSize : number) : jsstring :=
  let start := Math_max (ofNat 0) (sub (ofNat matchStart) contextSize) in
  let end_ :=
    Math_min (ofNat (length content)) (add (ofNat matchEnd) contextSize) in
  let context := slice content start end_ in
  let context := if gtb start (ofNat 0) then str "..." ++ context
                 else context in
  if ltb end_ (ofNat (length content)) then context ++ str "..."
  else context.

(** The [while] loop of [searchInDocument], on the accumulated
    [results]. *)
Fixpoint searchInDocument_loop (fuel : nat) (doc : Document)
    (searchPattern : RegExp) (contextSize maxResults : number)
    (lastIndex : nat) (results : list SearchMatch) : list SearchMatch :=
  match fuel with
  | 0 => results
  | S fuel' =>
      match exec searchPattern (content doc) lastIndex with
      | (None, _) => results
      | (Some m, lastIndex') =>
          if geb (ofNat (length results)) maxResults then results
          else
            searchInDocument_loop fuel' doc searchPattern contextSize
              maxResults
              (if length (m_text m) =? 0 then S lastIndex' else lastIndex')
              (results ++
                 [mkSearchMatch (id doc) (title doc) (m_index m)
                    (extractContext (content doc) (m_index m)
                       (m_index m + length (m_text m)) contextSize)
                    (m_text m)])
      end
  end.

Definition searchInDocument (doc : Document) (pattern : RegExp)
    (contextSize maxResults : number) (currentResults : list SearchMatch)
    : list SearchMatch :=
  searchInDocument_loop (S (S (length (content doc)))) doc pattern
    contextSize maxResults 0 currentResults.

Definition getCandidateDocuments (searchText : jsstring)
    (documentIds : option (list jsstring)) (s : Store) : list Document :=
  let queryWords := extractWords searchText in
  match documentIds with
  | Some (docId :: ids) => getDocumentsByIds (docId :: ids) s
  | _ =>
      match queryWords with
      | [] => []
      | [word] =>
          let candidateIds := findDocumentsByWord word s in
          if 0 <? length candidateIds then getDocumentsByIds candidateIds s
          else []
      | _ =>
          let candidateIds := findDocumentsByWords queryWords s in
          if 0 <? length candidateIds then getDocumentsByIds candidateIds s
          else []
      end
  end.

(** The [for] loop of [search] over the candidates. *)
Fixpoint search_loop (candidates : list Document) (pattern : RegExp)
    (contextSize maxResults : number) (results : list SearchMatch)
    : list SearchMatch :=
  match candidates with
  | [] => results
  | doc :: rest =>
      if geb (ofNat (length results)) maxResults then results
      else search_loop rest pattern contextSize maxResults
             (searchInDocument doc pattern contextSize maxResults results)
  end.

(** [search]; [None] only if the pattern could not be built, which never
    happens (see [search_total]). *)
Definition search (q : SearchQuery) (s : Store) : option SearchResponse :=
  let searchText := query q in
  let caseSensitive := default false (caseSensitive q) in
  let contextSize := default (ofNat 50) (contextSize q) in
  let maxResults := default (ofNat 100) (maxResults q) in
  pattern ← RegExp_new (escapeRegex searchText) true (negb caseSensitive);
  let candidates := getCandidateDocuments searchText (documentIds q) s in
  let results := search_loop candidates pattern contextSize maxResults [] in
  Some (mkSearchResponse searchText (length results) (length candidates)
          results).

End SearchService.

(* ===================================================================== *)
(** * src/utils/etag.ts *)
(* ===================================================================== *)
Module ETag.
Import JS Storage.

(** One byte as two lower-case hexadecimal digits ([digest('hex')]). *)
Definition hexDigit (n : nat) : ascii :=
  if n <? 10 then ascii_of_nat (48 + n) else ascii_of_nat (87 + n).

Definition hexByte (b : Byte.byte) : jsstring :=
  let n := N.to_nat (Byte.to_N b) in
  [hexDigit (n / 16); hexDigit (n mod 16)].

Definition hexEncode (bytes : list Byte.byte) : jsstring :=
  flat_map hexByte bytes.

(** The double-quote character. *)
Definition dquote : ascii := ascii_of_nat 34.

(** [s.replace(/^W\//, '')]. *)
Definition stripWeakPrefix (s : jsstring) : jsstring :=
  match s with
  | c :: d :: rest =>
      if Ascii.eqb c "W" && Ascii.eqb d "/" then rest else s
  | _ => s
  end.

(** The second [replace] of [parseETagVersion]: every double quote is
    removed. *)
Definition removeQuotes (s : jsstring) : jsstring :=
  filter (λ c, c ≠ dquote) s.

(** The class [\d]. *)
Definition isDigitChar (c : ascii) : bool := inRange 48 57 c.

(** The longest prefix of digits, and what follows it: what [(\d+)] takes
    when the next thing to match is not a digit. *)
Fixpoint spanDigits (s : jsstring) : jsstring * jsstring :=
  match s with
  | c :: rest =>
      if isDigitChar c then
        let '(digits, tail) := spanDigits rest in (c :: digits, tail)
      else ([], s)
  | [] => ([], [])
  end.

(** [parseInt(digits, 10)] on a text of decimal digits. *)
Definition parseInt10 (digits : jsstring) : option nat :=
  Nat.of_uint <$> NilEmpty.uint_of_string (string_of_list_ascii digits).

(** [parseETagVersion]: [cleaned.match(/^v(\d+)-/)] succeeds when [cleaned]
    is a [v], at least one digit, and a dash after the last digit. *)
Definition parseETagVersion (etag : jsstring) : option nat :=
  let cleaned := removeQuotes (stripWeakPrefix etag) in
  match cleaned with
  | c :: rest =>
      if Ascii.eqb c "v" then
        match spanDigits rest with
        | (d :: digits, t :: _) =>
            if Ascii.eqb t "-" then parseInt10 (d :: digits) else None
        | _ => None
        end
      else None
  | [] => None
  end.

Section WithDigest.

(** [createHash('md5').update(s).digest()]: the digest function of the
    [crypto] library, from a string to its digest bytes. *)
Variable md5 : jsstring → list Byte.byte.

Definition generateETag (doc : Document) : jsstring :=
  let hash :=
    substring
      (hexEncode
         (md5 (id doc ++ str "-" ++ numberToString (version doc) ++ str "-"
                 ++ updatedAt doc)))
      0 8 in
  dquote :: str "v" ++ numberToString (version doc) ++ str "-" ++ hash
    ++ [dquote].

Definition validateIfMatch (ifMatch : option jsstring) (doc : Document)
    : bool :=
  match ifMatch with
  | None | Some [] => true
  | Some ifMatch =>
      if bool_decide (ifMatch = str "*") then true
      else
        let currentETag := generateETag doc in
        let requestedETags := map trim (splitChar "," ifMatch) in
        existsb
          (λ requestedETag,
             let normalizedRequested := stripWeakPrefix requestedETag in
             let normalizedCurrent := stripWeakPrefix currentETag in
             bool_decide (normalizedRequested = normalizedCurrent))
          requestedETags
  end.

End WithDigest.

End ETag.

(* ===================================================================== *)
(** * src/routes/changes.ts and src/routes/documents.ts: the handlers *)
(* ===================================================================== *)
Module Routes.
Import JS ChangeService Storage ETag.

(** [interface ErrorResponse] and [createErrorResponse] of
    src/schemas/common.ts. *)
Record ErrorResponse : Type := mkErrorResponse {
  error : jsstring;
  code : nat
}.

Definition createErrorResponse (code : nat) (error : jsstring)
    : ErrorResponse :=
  mkErrorResponse error code.

(** [interface ApplyChangesResponse]. *)
Record ApplyChangesResponse : Type := mkApplyChangesResponse {
  ac_document : Document;
  ac_results : list ChangeResult;
  ac_totalReplacements : nat;
  ac_previousVersion : nat;
  ac_newVersion : nat;
  ac_etag : jsstring
}.

(** The body of a 412 reply. *)
Record PreconditionFailedResponse : Type := mkPreconditionFailedResponse {
  pf_error : jsstring;
  pf_code : nat;
  currentEtag : jsstring
}.

(** The object that the handlers send with status 412. *)
Definition preconditionFailed (currentEtag : jsstring)
    : PreconditionFailedResponse :=
  mkPreconditionFailedResponse
    (str ("Precondition Failed: Document has been modified. "
          ++ "Fetch the latest version and retry."))
    412 currentEtag.

(** What a handler sends: the status (404, 412 or 200), the [ETag] header
    when it sets one, and the body. *)
Inductive Reply (Body : Type) : Type :=
  | NotFound (body : ErrorResponse)
  | PreconditionFailed (body : PreconditionFailedResponse)
  | Ok (etagHeader : jsstring) (body : Body).

Arguments NotFound {Body} body.
Arguments PreconditionFailed {Body} body.
Arguments Ok {Body} etagHeader body.

Definition notFoundMessage (docId : jsstring) : jsstring :=
  str "Document with ID " ++ docId ++ str " not found".

Section WithDigest.

Variable md5 : jsstring → list Byte.byte.

(** The handler of [POST /api/documents/:id/changes].  The result is
    [None] where the source throws: when [applyChanges] does (the document
    read back at the end is always there). *)
Definition changesHandler (docId : jsstring) (changes : list Change)
    (ifMatch : option jsstring) (now : jsstring) (s : Store)
    : option (Store * Reply ApplyChangesResponse) :=
  match getDocument docId s with
  | None =>
      Some (s, NotFound (createErrorResponse 404 (notFoundMessage docId)))
  | Some doc =>
      if negb (validateIfMatch md5 ifMatch doc) then
        Some (s, PreconditionFailed (preconditionFailed (generateETag md5 doc)))
      else
        let previousVersion := version doc in
        '(newContent, results, totalReplacements) ←
          applyChanges (content doc) changes;
        let s' :=
          if 0 <? totalReplacements then
            (updateDocument docId (mkUpdates None (Some newContent)) now s).1
          else s in
        updatedDoc ← getDocument docId s';
        let newEtag := generateETag md5 updatedDoc in
        Some (s',
              Ok newEtag
                (mkApplyChangesResponse updatedDoc results totalReplacements
                   previousVersion (version updatedDoc) newEtag))
  end.

(** The handler of [PATCH /api/documents/:id]; [None] where
    [updatedDoc!] would be [undefined], which does not happen. *)
Definition patchHandler (docId : jsstring) (body : PatchDocumentInput)
    (ifMatch : option jsstring) (now : jsstring) (s : Store)
    : option (Store * Reply Document) :=
  match getDocument docId s with
  | None =>
      Some (s, NotFound (createErrorResponse 404 (notFoundMessage docId)))
  | Some doc =>
      if negb (validateIfMatch md5 ifMatch doc) then
        Some (s, PreconditionFailed (preconditionFailed (generateETag md5 doc)))
      else
        let '(s', updatedDoc) := patchDocument docId body now s in
        updatedDoc ← updatedDoc;
        Some (s', Ok (generateETag md5 updatedDoc) updatedDoc)
  end.

(** The handler of [GET /api/documents/:id]. *)
Definition getHandler (docId : jsstring) (s : Store) : Reply Document :=
  match getDocument docId s with
  | None => NotFound (createErrorResponse 404 (notFoundMessage docId))
  | Some doc => Ok (generateETag md5 doc) doc
  end.

End WithDigest.

End Routes.

(* ===================================================================== *)
(** * Specification vocabulary *)
(* ===================================================================== *)
Module Specs.
Import JS Regex ChangeService Storage SearchService.

(** The atoms that [buildPattern] produces for a literal. *)
Definition literalAtoms (wholeWord : bool) (lit : jsstring) : list atom :=
  if wholeWord then WordBoundary :: map Lit lit ++ [WordBoundary]
  else map Lit lit.

(** The source text that [buildPattern] produces for a literal. *)
Definition literalSource (wholeWord : bool) (lit : jsstring) : jsstring :=
  if wholeWord then
    str "\b" ++ ChangeService.escapeRegex lit ++ str "\b"
  else ChangeService.escapeRegex lit.

(** The matches of a scan are in the input, start at or after [lo], and
    each starts after the start and not before the end of the one before. *)
Fixpoint spaced (input : jsstring) (lo : nat) (ms : list MatchResult)
    : Prop :=
  match ms with
  | [] => True
  | m :: rest =>
      lo ≤ m_index m
      ∧ m_index m + length (m_text m) ≤ length input
      ∧ m_text m
        = take (length (m_text m)) (drop (m_index m) input)
      ∧ spaced input
          (if length (m_text m) =? 0 then S (m_index m)
           else m_index m + length (m_text m))
          rest
  end.

(** What the filter of [findDocumentsByWords] keeps for one word. *)
Definition nonEmptyPosting (s : Store) (word : jsstring)
    : option (list jsstring) :=
  match wordIndex s !! toLowerCase word with
  | Some set => if 0 <? length set then Some set else None
  | None => None
  end.

(** The posting set of a term; the empty set when the term is no key. *)
Definition posting (idx : gmap jsstring (list jsstring)) (t : jsstring)
    : list jsstring :=
  default [] (idx !! t).

(** [d] is in the posting set that the index holds for [t]. *)
Definition inPosting (s : Store) (t d : jsstring) : Prop :=
  ∃ docIds, wordIndex s !! t = Some docIds ∧ d ∈ docIds.

(** [t] is a normalized word of the title or of the content of [doc]. *)
Definition hasWord (doc : Document) (t : jsstring) : Prop :=
  t ∈ extractWords (title doc) ∨ t ∈ extractWords (content doc).

(** The index reflects exactly the words of the stored documents, and no
    key has an empty posting set. *)
Definition IndexExact (s : Store) : Prop :=
  (∀ t d, inPosting s t d ↔
          ∃ doc, documents s !! d = Some doc ∧ hasWord doc t)
  ∧ (∀ t docIds, wordIndex s !! t = Some docIds → docIds ≠ []).

(** Every document is stored under its own identifier. *)
Definition WellKeyed (s : Store) : Prop :=
  ∀ d doc, documents s !! d = Some doc → id doc = d.

(** The states of the store: the initial one and those that the four
    mutations produce.  [createDocument] draws its identifier from
    [randomUUID], which is taken to return an identifier not in use. *)
Inductive reachable : Store → Prop :=
  | reach_empty : reachable emptyStore
  | reach_create s input uuid now :
      reachable s → documents s !! uuid = None →
      reachable (createDocument input uuid now s).1
  | reach_update s docId updates now :
      reachable s → reachable (updateDocument docId updates now s).1
  | reach_patch s docId patch now :
      reachable s → reachable (patchDocument docId patch now s).1
  | reach_delete s docId :
      reachable s → reachable (deleteDocument docId s).1.

Definition NoEmptyPosting (idx : gmap jsstring (list jsstring)) : Prop :=
  ∀ t docIds, idx !! t = Some docIds → docIds ≠ [].

(** The invariant of the store. *)
Definition Consistent (s : Store) : Prop := WellKeyed s ∧ IndexExact s.

(** ** Vocabulary of the change engine *)

(** The literal [lit] stands at offset [i] of [content], up to case when
    [ic] is set. *)
Fixpoint literalAt (ic : bool) (lit content : jsstring) (i : nat) : bool :=
  match lit with
  | [] => true
  | c :: rest =>
      match content !! i with
      | Some d => charMatches ic c d && literalAt ic rest content (S i)
      | None => false
      end
  end.

(** The search text of [change] matches at offset [i] of [content], under
    its [matchCase] and [matchWholeWord] settings. *)
Definition occursAt (change : Change) (content : jsstring) (i : nat) : bool :=
  let ic := negb (default true (matchCase change)) in
  if default false (matchWholeWord change) then
    wordBoundaryAt content i
    && literalAt ic (searchText change) content i
    && wordBoundaryAt content (i + length (searchText change))
  else literalAt ic (searchText change) content i.

(** The pattern that [buildPattern] returns. *)
Definition patternOf (change : Change) : RegExp :=
  mkRegExp
    (literalSource (default false (matchWholeWord change))
       (searchText change))
    (literalAtoms (default false (matchWholeWord change))
       (searchText change))
    true (negb (default true (matchCase change))).

Definition toMatch (m : MatchResult) : Match :=
  mkMatch (m_index m) (length (m_text m)) (m_text m).

(** All matches of a change, and those that pass its range and context
    constraints. *)
Definition allMatchesOf (content : jsstring) (change : Change) : list Match :=
  findAllMatches content (patternOf change).

Definition eligibleOf (content : jsstring) (change : Change) : list Match :=
  eligibleMatches content change (allMatchesOf content change).

Definition rangeGiven (change : Change) : bool :=
  bool_decide (startIndex change ≠ None)
  || bool_decide (endIndex change ≠ None).

(** The matches to replace as the specification words it: with a range,
    all eligible ones; else with [replaceAll = false] and an occurrence,
    the match of that (1-based) rank, none when there is no such rank; else
    with [replaceAll = false], the first; else all. *)
Definition selectionStated (change : Change) (eligible : list Match)
    : list Match :=
  if rangeGiven change then eligible
  else
    match replaceAll change, occurrence change with
    | Some false, Some occ =>
        if leb (ofNat 1) occ && leb occ (ofNat (length eligible))
        then option_list (Array_get eligible (sub occ (ofNat 1)))
        else []
    | Some false, None => take 1 eligible
    | _, _ => eligible
    end.

(** The same with the rule of the code for an occurrence that is not
    positive: the first eligible match. *)
Definition selectionAmended (change : Change) (eligible : list Match)
    : list Match :=
  if rangeGiven change then eligible
  else
    match replaceAll change, occurrence change with
    | Some false, Some occ =>
        if negb (gtb occ (ofNat 0)) then take 1 eligible
        else if leb occ (ofNat (length eligible))
        then option_list (Array_get eligible (sub occ (ofNat 1)))
        else []
    | Some false, None => take 1 eligible
    | _, _ => eligible
    end.

(** The occurrence of the change, when there is one and it is positive, is
    a whole number. *)
Definition wholeOccurrence (change : Change) : Prop :=
  ∀ occ, occurrence change = Some occ →
         gtb occ (ofNat 0) = true → isInteger occ = true.

(** Replacing, from left to right, each of the matches [ms] by [r] in the
    part of [content] from offset [pos] on. *)
Fixpoint replaceMatches (content : jsstring) (pos : nat) (ms : list Match)
    (r : jsstring) : jsstring :=
  match ms with
  | [] => drop pos content
  | m :: rest =>
      take (index m - pos) (drop pos content) ++ r
        ++ replaceMatches content (index m + mlength m) rest r
  end.

(** Where a scan resumes after a match. *)
Definition nextIndex (m : Match) : nat :=
  if mlength m =? 0 then S (index m) else index m + mlength m.

(** Matches within the first [n] offsets, from [lo] on, each starting
    after the start and not before the end of the one before. *)
Fixpoint separated (n lo : nat) (ms : list Match) : Prop :=
  match ms with
  | [] => True
  | m :: rest =>
      lo ≤ index m ∧ index m + mlength m ≤ n
      ∧ separated n (nextIndex m) rest
  end.

(** ** Vocabulary of the search engine *)

(** The identifiers whose documents [search] scans: the supplied ones when
    a non-empty list is supplied, else those that the index gives for the
    words of the query. *)
Definition candidateIds (searchText : jsstring)
    (documentIds : option (list jsstring)) (s : Store) : list jsstring :=
  match documentIds with
  | Some (docId :: ids) => docId :: ids
  | _ => findDocumentsByWords (extractWords searchText) s
  end.

(** The element of [results] that [searchInDocument] records for a match. *)
Definition toSearchMatch (doc : Document) (contextSize : number)
    (m : MatchResult) : SearchMatch :=
  mkSearchMatch (id doc) (title doc) (m_index m)
    (extractContext (content doc) (m_index m)
       (m_index m + length (m_text m)) contextSize)
    (m_text m).

(** The number of results at which the loops of [search] stop: the least
    count that is not below [maxResults]; [None] when every count is below
    it. *)
Definition resultLimit (maxResults : number) : option nat :=
  match maxResults with
  | Finite q => Some (Z.to_nat (Qceiling q))
  | NegInfinity => Some 0
  | PosInfinity | NaN => None
  end.

(** The first elements of [l] that fit under the limit when [have] results
    are there already. *)
Definition takeLimit {A} (limit : option nat) (have : nat) (l : list A)
    : list A :=
  match limit with
  | Some n => take (n - have) l
  | None => l
  end.

(** ** Example data *)

Definition newDoc (t c : string) : CreateDocumentInput :=
  mkCreateInput (str t) (str c) None None.

(** The store of the search scenario: three documents. *)
Definition store1 : Store :=
  (createDocument (newDoc "Doc 1" "hello world today") (str "id-1")
     (str "2024-01-01T00:00:00.000Z") emptyStore).1.

Definition store2 : Store :=
  (createDocument (newDoc "Doc 2" "hello universe tomorrow") (str "id-2")
     (str "2024-01-02T00:00:00.000Z") store1).1.

Definition store3 : Store :=
  (createDocument (newDoc "Doc 3" "goodbye world yesterday") (str "id-3")
     (str "2024-01-03T00:00:00.000Z") store2).1.

(** A store with one document in which a word is repeated. *)
Definition storeEcho : Store :=
  (createDocument (newDoc "Echo" "echo echo echo echo") (str "id-1")
     (str "2024-01-01T00:00:00.000Z") emptyStore).1.

(** A decimal digit. *)
Definition isDigit (c : ascii) : Prop := inRange 48 57 c = true.

(** A character of a hexadecimal digest: a digit or a letter. *)
Definition isAlnum (c : ascii) : Prop :=
  inRange 48 57 c || inRange 97 122 c = true.

(** A digest function for the examples: the first bytes of the text. *)
Definition sampleDigest (text : jsstring) : list Byte.byte :=
  map byte_of_ascii (take 16 text).

(** A stored document for the examples, at version 1. *)
Definition sampleDoc : Document :=
  mkDocument (str "123e4567-e89b-12d3-a456-426614174000")
    (str "Test Document") (str "Test content") (mkMetadata None None 2 12)
    (str "2024-01-01T00:00:00.000Z") (str "2024-01-01T00:00:00.000Z") 1.

(** ** Further vocabulary *)

(** The range and context constraints of [change] hold for a match of its
    search text at offset [p] of [content]: the match does not start before
    [startIndex] nor end after [endIndex], and the contexts stand right
    before and right after it. *)
Definition withinConstraints (change : Change) (content : jsstring)
    (p : nat) : Prop :=
  (∀ s, startIndex change = Some s → ltb (ofNat p) s = false)
  ∧ (∀ e, endIndex change = Some e →
          gtb (ofNat (p + length (searchText change))) e = false)
  ∧ (∀ bc, beforeContext change = Some bc → bc ≠ [] →
           ∃ pre, take p content = pre ++ bc)
  ∧ (∀ ac, afterContext change = Some ac → ac ≠ [] →
           ∃ post, drop (p + length (searchText change)) content
                   = ac ++ post).

(** The sum of the replacement counts of a list of results. *)
Definition sumReplacements (results : list ChangeResult) : nat :=
  sum_list (map replacementsMade results).

(** The metadata of a document agrees with its content, and its version is
    at least one. *)
Definition DocWellFormed (doc : Document) : Prop :=
  wordCount (metadata doc) = countWords (content doc)
  ∧ characterCount (metadata doc) = length (content doc)
  ∧ 1 ≤ version doc.

(** No posting set lists an identifier twice. *)
Definition NoDupPostings (idx : gmap jsstring (list jsstring)) : Prop :=
  ∀ t docIds, idx !! t = Some docIds → NoDup docIds.

(** The sum of [g] over the values of a map. *)
Definition mapSum {V} (g : V → nat) (m : gmap jsstring V) : nat :=
  map_fold (λ _ v total, total + g v) 0 m.

(** A word of the index: not empty, and made of lower-case letters, digits
    and underscores. *)
Definition normalizedWord (w : jsstring) : Prop :=
  w ≠ [] ∧ Forall (λ c, isWordChar c = true ∧ toLowerChar c = c) w.

(** The index holds one posting for each distinct word of each stored
    document. *)
Definition Tally (s : Store) : Prop :=
  mapSum length (wordIndex s)
  = mapSum (λ doc, length (docWords doc)) (documents s).

(** The number [x] is the count [n]. *)
Definition represents (x : number) (n : nat) : Prop :=
  ∃ q, x = Finite q ∧ q == inject_Z (Z.of_nat n).

(** The pattern that [search] builds for a query. *)
Definition queryPattern (q : SearchQuery) : RegExp :=
  mkRegExp (literalSource false (query q)) (literalAtoms false (query q))
    true (negb (default false (caseSensitive q))).

(** All the matches of a query in one document, as [searchInDocument]
    records them. *)
Definition matchesIn (q : SearchQuery) (doc : Document) : list SearchMatch :=
  map (toSearchMatch doc (default (ofNat 50) (contextSize q)))
    (execAll (S (S (length (content doc)))) (queryPattern q)
       (content doc) 0).

End Specs.

(* ===================================================================== *)
(** * Facts about the built-ins *)
(* ===================================================================== *)
Module JSFacts.
Import JS.

Lemma Set_add_elem s x y : y ∈ Set_add s x ↔ y ∈ s ∨ y = x.
Proof.
  unfold Set_add, Set_has. case_bool_decide as Hx.
  - split; [by left | intros [?| ->]; done].
  - rewrite elem_of_app, list_elem_of_singleton. done.
Qed.

Lemma Set_add_NoDup s x : NoDup s → NoDup (Set_add s x).
Proof.
  intros Hs. unfold Set_add, Set_has. case_bool_decide as Hx; [done|].
  apply NoDup_app. split_and!; [done| |apply NoDup_singleton].
  intros y Hy ->%list_elem_of_singleton. done.
Qed.

Lemma Set_from_acc_elem l acc y :
  y ∈ fold_left Set_add l acc ↔ y ∈ acc ∨ y ∈ l.
Proof.
  revert acc. induction l as [|x l IH]; intros acc; simpl.
  - rewrite elem_of_nil. tauto.
  - rewrite IH, Set_add_elem, elem_of_cons. tauto.
Qed.

Lemma Set_from_elem l y : y ∈ Set_from l ↔ y ∈ l.
Proof.
  unfold Set_from. rewrite Set_from_acc_elem, elem_of_nil. tauto.
Qed.

Lemma Set_from_acc_NoDup l acc : NoDup acc → NoDup (fold_left Set_add l acc).
Proof.
  revert acc. induction l as [|x l IH]; intros acc Hacc; simpl; [done|].
  by apply IH, Set_add_NoDup.
Qed.

Lemma Set_from_NoDup l : NoDup (Set_from l).
Proof. apply Set_from_acc_NoDup. constructor. Qed.

Lemma Set_delete_elem s x y : y ∈ Set_delete s x ↔ y ∈ s ∧ y ≠ x.
Proof. unfold Set_delete. rewrite list_elem_of_filter. tauto. Qed.

Lemma Set_delete_NoDup s x : NoDup s → NoDup (Set_delete s x).
Proof. apply NoDup_filter. Qed.

Lemma sortInsert_perm {A} (cmp : A → A → Z) x l : sortInsert cmp x l ≡ₚ x :: l.
Proof.
  induction l as [|y l IH]; simpl; [done|].
  destruct (cmp x y <=? 0)%Z; [done|].
  rewrite IH. apply Permutation_swap.
Qed.

Lemma sort_perm {A} (cmp : A → A → Z) l : sort cmp l ≡ₚ l.
Proof.
  induction l as [|x l IH]; simpl; [done|].
  by rewrite sortInsert_perm, IH.
Qed.

Lemma substring_0 s b : substring s 0 b = take b s.
Proof.
  unfold substring. rewrite Nat.min_0_l, Nat.max_0_l, Nat.min_0_l, Nat.sub_0_r.
  simpl. destruct (Nat.le_ge_cases b (length s)).
  - by rewrite Nat.min_l.
  - rewrite Nat.min_r by done. by rewrite !take_ge.
Qed.

Lemma substringFrom_drop s a : substringFrom s a = drop a s.
Proof.
  unfold substringFrom, substring. rewrite Nat.min_id.
  destruct (Nat.le_ge_cases a (length s)).
  - rewrite (Nat.min_l a) by done.
    rewrite Nat.max_r, Nat.min_l by done.
    apply take_ge. rewrite length_drop. lia.
  - rewrite (Nat.min_r a) by done. rewrite Nat.max_id, Nat.min_id, Nat.sub_diag.
    by rewrite !drop_ge by lia.
Qed.

Lemma substring_take_drop s a b :
  a ≤ b → substring s a b = take (b - a) (drop a s).
Proof.
  intros Hab. unfold substring.
  destruct (Nat.le_ge_cases b (length s)).
  - rewrite (Nat.min_l a), (Nat.min_l b) by lia.
    by rewrite Nat.max_r, Nat.min_l by done.
  - rewrite (Nat.min_r b) by done.
    destruct (Nat.le_ge_cases a (length s)).
    + rewrite (Nat.min_l a) by done. rewrite Nat.max_r, Nat.min_l by done.
      rewrite !take_ge; [done|rewrite length_drop; lia..].
    + rewrite (Nat.min_r a) by done.
      rewrite Nat.max_id, Nat.min_id, Nat.sub_diag.
      rewrite !drop_ge by lia. by rewrite !take_nil.
Qed.

Lemma substring_length s a b :
  a ≤ b → b ≤ length s → length (substring s a b) = b - a.
Proof.
  intros Hab Hb. rewrite substring_take_drop by done.
  rewrite length_take, length_drop. lia.
Qed.

(** On a list whose keys strictly increase, sorting by decreasing key
    reverses the list. *)
Lemma sortInsert_largest {A} (key : A → nat) x l :
  Forall (λ y, key y < key x) l →
  sortInsert (λ a b, Z.of_nat (key b) - Z.of_nat (key a))%Z x l = x :: l.
Proof.
  destruct l as [|y l]; [done|]. intros Hall. simpl.
  apply Forall_cons in Hall as [Hy _].
  destruct (Z.leb_spec (Z.of_nat (key y) - Z.of_nat (key x)) 0); [done|lia].
Qed.

Lemma sortInsert_smallest {A} (key : A → nat) x l :
  Forall (λ y, key x < key y) l →
  sortInsert (λ a b, Z.of_nat (key b) - Z.of_nat (key a))%Z x l = l ++ [x].
Proof.
  induction l as [|y l IH]; [done|]. intros Hall. simpl.
  apply Forall_cons in Hall as [Hy Hall].
  destruct (Z.leb_spec (Z.of_nat (key y) - Z.of_nat (key x)) 0); [lia|].
  by rewrite IH.
Qed.

Lemma sort_descending_rev {A} (key : A → nat) l :
  StronglySorted (λ a b, key a < key b) l →
  sort (λ a b, Z.of_nat (key b) - Z.of_nat (key a))%Z l = rev l.
Proof.
  induction 1 as [|x l Hs IH Hall]; [done|].
  simpl. rewrite IH. apply sortInsert_smallest.
  rewrite Forall_forall in Hall. apply Forall_forall.
  intros y Hy. apply Hall. apply list_elem_of_In, in_rev.
  by apply list_elem_of_In.
Qed.

(** ** Numbers *)

Lemma Qle_bool_inject a b : Qle_bool (inject_Z a) (inject_Z b) = (a <=? b)%Z.
Proof. unfold Qle_bool. simpl. by rewrite !Z.mul_1_r. Qed.

Lemma leb_ofNat n m : leb (ofNat n) (ofNat m) = (n <=? m).
Proof.
  unfold leb, ofNat. rewrite Qle_bool_inject.
  destruct (Z.leb_spec (Z.of_nat n) (Z.of_nat m)), (Nat.leb_spec n m);
    try done; lia.
Qed.

Lemma ltb_ofNat n m : ltb (ofNat n) (ofNat m) = (n <? m).
Proof.
  unfold ltb, ofNat. rewrite Qle_bool_inject.
  destruct (Z.leb_spec (Z.of_nat m) (Z.of_nat n)), (Nat.ltb_spec n m);
    try done; lia.
Qed.

(** A rational is below a whole number exactly when its ceiling is. *)
Lemma Qle_bool_ceiling q z : Qle_bool q (inject_Z z) = (Qceiling q <=? z)%Z.
Proof.
  destruct (Z.leb_spec (Qceiling q) z) as [Hle|Hlt].
  - apply Qle_bool_iff. eapply Qle_trans; [apply Qle_ceiling|].
    by rewrite Zle_Qle in Hle.
  - destruct (Qle_bool q (inject_Z z)) eqn:Hq; [|done].
    apply Qle_bool_iff, Qceiling_resp_le in Hq. rewrite Qceiling_Z in Hq. lia.
Qed.

(** A whole number is the image of its integer part. *)
Lemma isInteger_Finite q :
  isInteger (Finite q) = true → q == inject_Z (Qfloor q).
Proof. intros H. by apply Qeq_bool_iff. Qed.

Lemma isInteger_ofZ z : isInteger (Finite (inject_Z z)) = true.
Proof. cbn [isInteger]. rewrite Qfloor_Z. apply Qeq_bool_iff. reflexivity. Qed.

Lemma truncate_inject z : truncate (inject_Z z) = z.
Proof. unfold truncate. rewrite Qfloor_Z, Qceiling_Z. by destruct (Qle_bool _ _). Qed.

Lemma Array_get_comp {A} (a : list A) q q' :
  q == q' → Array_get a (Finite q) = Array_get a (Finite q').
Proof.
  intros Hq. unfold Array_get, isInteger, truncate.
  rewrite (Qfloor_comp _ _ Hq), (Qceiling_comp _ _ Hq).
  rewrite (Qleb_comp _ _ (Qeq_refl 0%Q) _ _ Hq).
  by rewrite (Qeqb_comp _ _ Hq _ _ (Qeq_refl _)).
Qed.

Lemma Array_get_whole {A} (a : list A) z :
  Array_get a (Finite (inject_Z z))
  = if (0 <=? z)%Z then a !! Z.to_nat z else None.
Proof.
  unfold Array_get. rewrite isInteger_ofZ, truncate_inject. done.
Qed.

(** [a[x - 1]] for a whole number [x]. *)
Lemma Array_get_pred {A} (a : list A) q :
  isInteger (Finite q) = true →
  Array_get a (sub (Finite q) (ofNat 1))
  = if (1 <=? Qfloor q)%Z then a !! Z.to_nat (Qfloor q - 1) else None.
Proof.
  intros Hq%isInteger_Finite. unfold sub, ofNat, neg, add.
  rewrite (Array_get_comp a _ (inject_Z (Qfloor q - 1))).
  - rewrite Array_get_whole.
    destruct (Z.leb_spec 0 (Qfloor q - 1)), (Z.leb_spec 1 (Qfloor q));
      try done; lia.
  - unfold Z.sub. rewrite inject_Z_plus, inject_Z_opp.
    apply Qplus_comp; [exact Hq|reflexivity].
Qed.

Lemma gtb_whole q :
  isInteger (Finite q) = true →
  gtb (Finite q) (ofNat 0) = (1 <=? Qfloor q)%Z.
Proof.
  intros Hq%isInteger_Finite. unfold gtb, ltb, ofNat.
  rewrite (Qleb_comp _ _ Hq _ _ (Qeq_refl _)), Qle_bool_inject.
  change (Z.of_nat 0) with 0%Z.
  destruct (Z.leb_spec (Qfloor q) 0), (Z.leb_spec 1 (Qfloor q)); try done; lia.
Qed.

Lemma leb_whole q n :
  isInteger (Finite q) = true →
  leb (Finite q) (ofNat n) = (Qfloor q <=? Z.of_nat n)%Z.
Proof.
  intros Hq%isInteger_Finite. unfold leb, ofNat.
  by rewrite (Qleb_comp _ _ Hq _ _ (Qeq_refl _)), Qle_bool_inject.
Qed.

(** ** Arrays with [undefined] elements *)

Lemma Array_sort_defined {A} (cmp : A → A → Z) (l : list A) :
  Array_sort cmp (map Some l) = map Some (sort cmp l).
Proof.
  unfold Array_sort.
  assert (omap (λ x, x) (map Some l) = l) as ->.
  { induction l as [|x l IH]; [done|]. csimpl. by rewrite IH. }
  assert (filter (λ x, x = None) (map Some l) = []) as ->.
  { induction l as [|x l IH]; [done|]. simpl. by rewrite filter_cons_False. }
  by rewrite app_nil_r.
Qed.

Lemma Array_get_sublist_of {A} (a : list A) x :
  option_list (Array_get a x) `sublist_of` a.
Proof.
  destruct x as [q| | |]; simpl; try apply sublist_nil_l.
  destruct (_ && _); [|apply sublist_nil_l].
  generalize (Z.to_nat (truncate q)). intros k. revert k.
  induction a as [|y a IH]; intros k; [constructor|].
  destruct k as [|k]; simpl.
  - constructor. apply sublist_nil_l.
  - constructor. apply IH.
Qed.

End JSFacts.

(* ===================================================================== *)
(** * The inverted index: lookups and intersection *)
(* ===================================================================== *)
Module LookupFacts.
Import JS JSFacts Storage Specs.

Lemma nonEmptyPosting_Some s w p :
  nonEmptyPosting s w = Some p → findDocumentsByWord w s = p.
Proof.
  unfold nonEmptyPosting, findDocumentsByWord.
  destruct (wordIndex s !! toLowerCase w) as [set|]; [|done].
  destruct (0 <? length set); congruence.
Qed.

Lemma nonEmptyPosting_None s w :
  findDocumentsByWord w s = [] → nonEmptyPosting s w = None.
Proof.
  unfold nonEmptyPosting, findDocumentsByWord.
  destruct (wordIndex s !! toLowerCase w) as [set|]; [|done].
  intros ->. done.
Qed.

Lemma length_omap_le {A B} (f : A → option B) l :
  length (omap f l) ≤ length l.
Proof.
  induction l as [|x l IH]; csimpl; [done|]. destruct (f x); simpl; lia.
Qed.

Lemma length_omap_lt {A B} (f : A → option B) l x :
  x ∈ l → f x = None → length (omap f l) < length l.
Proof.
  induction l as [|y l IH]; intros Hx Hf; [by apply elem_of_nil in Hx|].
  apply elem_of_cons in Hx as [<-|Hx]; csimpl.
  - rewrite Hf. pose proof (length_omap_le f l). lia.
  - specialize (IH Hx Hf). destruct (f y); simpl; lia.
Qed.

Lemma omap_full {A B} (f : A → option B) l x :
  length (omap f l) = length l → x ∈ l → ∃ y, f x = Some y ∧ y ∈ omap f l.
Proof.
  intros Hlen Hx. destruct (f x) as [y|] eqn:Hf.
  - exists y. split; [done|]. apply list_elem_of_omap. eauto.
  - pose proof (length_omap_lt f l x Hx Hf). lia.
Qed.

Lemma intersectLoop_subset result lists d :
  d ∈ intersectLoop result lists → d ∈ result.
Proof.
  revert result. induction lists as [|nextSet rest IH]; intros result; simpl;
    [done|].
  destruct (0 <? length result); [|done].
  intros Hd%IH. by apply list_elem_of_filter in Hd as [_ ?].
Qed.

Lemma intersectLoop_in_all result lists d l :
  d ∈ intersectLoop result lists → l ∈ lists → d ∈ l.
Proof.
  revert result. induction lists as [|nextSet rest IH]; intros result; simpl.
  - intros _ Hl. by apply elem_of_nil in Hl.
  - destruct (0 <? length result) eqn:Hlen.
    + intros Hd [->|Hl]%elem_of_cons; [|by eapply IH].
      apply intersectLoop_subset, list_elem_of_filter in Hd as [Hd _].
      unfold Set_has in Hd. by apply bool_decide_eq_true in Hd.
    + apply Nat.ltb_ge in Hlen. destruct result; simpl in Hlen; [|lia].
      intros Hd. by apply elem_of_nil in Hd.
Qed.

(** Every identifier returned for a list of words is in the posting set of
    each of the words. *)
Lemma findDocumentsByWords_sound words s w d :
  w ∈ words →
  d ∈ findDocumentsByWords words s → d ∈ findDocumentsByWord w s.
Proof.
  intros Hw. unfold findDocumentsByWords.
  destruct words as [|w1 [|w2 ws]].
  - by apply elem_of_nil in Hw.
  - by apply list_elem_of_singleton in Hw as ->.
  - fold (nonEmptyPosting s).
    remember (w1 :: w2 :: ws) as words eqn:Hwords.
    remember (omap (nonEmptyPosting s) words) as pl eqn:Hpl.
    destruct (Nat.eqb_spec (length pl) (length words)) as [Hlen|_];
      cbn [negb]; [|by intros ?%elem_of_nil].
    subst pl. destruct (omap_full _ _ _ Hlen Hw) as (p & Hp & Hin).
    rewrite (nonEmptyPosting_Some _ _ _ Hp).
    set (cmp := λ a b : list jsstring,
                  (Z.of_nat (length a) - Z.of_nat (length b))%Z).
    pose proof (sort_perm cmp (omap (nonEmptyPosting s) words)) as Hperm.
    rewrite <- Hperm in Hin.
    destruct (sort cmp (omap (nonEmptyPosting s) words)) as [|first rest];
      [by intros ?%elem_of_nil|].
    intros Hd. apply elem_of_cons in Hin as [->|Hin].
    + apply intersectLoop_subset in Hd. by apply (proj1 (Set_from_elem _ _)) in Hd.
    + by eapply intersectLoop_in_all.
Qed.

(** C7.  [findDocumentsByWords] on no word returns nothing; on one word it
    is [findDocumentsByWord]; on two words its result is included in the
    result for each of them; and a word without postings makes the result
    empty for every list that contains it. *)
Theorem findDocumentsByWords_laws (s : Store) :
  findDocumentsByWords [] s = []
  ∧ (∀ w, findDocumentsByWords [w] s = findDocumentsByWord w s)
  ∧ (∀ w1 w2 d,
       d ∈ findDocumentsByWords [w1; w2] s →
       d ∈ findDocumentsByWords [w1] s ∧ d ∈ findDocumentsByWords [w2] s)
  ∧ (∀ words w,
       w ∈ words → findDocumentsByWord w s = [] →
       findDocumentsByWords words s = []).
Proof.
  split_and!; [done|done| |].
  - intros w1 w2 d Hd. split;
      apply (findDocumentsByWords_sound [w1; w2]); try done; set_solver.
  - intros words w Hw Hnone. unfold findDocumentsByWords.
    destruct words as [|w1 [|w2 ws]]; [done| |].
    + by apply list_elem_of_singleton in Hw as ->.
    + fold (nonEmptyPosting s).
      pose proof (length_omap_lt (nonEmptyPosting s) _ w Hw
                    (nonEmptyPosting_None _ _ Hnone)) as Hlt.
      destruct (Nat.eqb_spec
                  (length (omap (nonEmptyPosting s) (w1 :: w2 :: ws)))
                  (length (w1 :: w2 :: ws))); [lia|done].
Qed.

Lemma findDocumentsByWords_laws_witness :
  str "nonexistent" ∈ [str "hello"; str "nonexistent"]
  ∧ findDocumentsByWord (str "nonexistent") store3 = []
  ∧ findDocumentsByWords [str "hello"; str "nonexistent"] store3 = [].
Proof.
  assert (str "nonexistent" ∈ [str "hello"; str "nonexistent"]) as Hin
    by (right; left).
  split; [exact Hin|]. split; [reflexivity|].
  apply (proj2 (proj2 (proj2 (findDocumentsByWords_laws store3)))
           [str "hello"; str "nonexistent"] (str "nonexistent") Hin).
  reflexivity.
Defined.

End LookupFacts.

(* ===================================================================== *)
(** * The inverted index follows the stored documents *)
(* ===================================================================== *)
Module IndexFacts.
Import JS JSFacts Storage Specs.

Lemma inPosting_posting s t d : inPosting s t d ↔ d ∈ posting (wordIndex s) t.
Proof.
  unfold inPosting, posting. destruct (wordIndex s !! t) as [l|]; simpl.
  - split; [intros (l' & [= <-] & ?); done | eauto].
  - split; [intros (l' & [=] & _) | intros []%elem_of_nil].
Qed.

Lemma docWords_elem doc t : t ∈ docWords doc ↔ hasWord doc t.
Proof. unfold docWords, hasWord. by rewrite Set_from_elem, elem_of_app. Qed.

(** ** One word *)

Lemma posting_indexWord d idx w t :
  posting (indexWord d idx w) t
  = if decide (t = w) then Set_add (posting idx t) d else posting idx t.
Proof.
  unfold posting, indexWord.
  destruct (idx !! w) as [l|] eqn:Hw.
  - rewrite Hw. destruct (decide (t = w)) as [->|Hne].
    + by rewrite lookup_insert_eq, Hw.
    + by rewrite lookup_insert_ne.
  - rewrite lookup_insert_eq. destruct (decide (t = w)) as [->|Hne].
    + by rewrite lookup_insert_eq, Hw.
    + by rewrite !lookup_insert_ne.
Qed.

Lemma posting_unindexWord d idx w t :
  posting (unindexWord d idx w) t
  = if decide (t = w) then Set_delete (posting idx t) d else posting idx t.
Proof.
  unfold posting, unindexWord.
  destruct (idx !! w) as [l|] eqn:Hw.
  - destruct (Nat.eqb_spec (length (Set_delete l d)) 0) as [Hlen|Hlen].
    + destruct (decide (t = w)) as [->|Hne].
      * rewrite lookup_delete_eq, Hw. simpl.
        by destruct (Set_delete l d).
      * by rewrite lookup_delete_ne.
    + destruct (decide (t = w)) as [->|Hne].
      * by rewrite lookup_insert_eq, Hw.
      * by rewrite lookup_insert_ne.
  - destruct (decide (t = w)) as [->|Hne]; [|done]. by rewrite Hw.
Qed.

Lemma Set_add_nonempty l d : Set_add l d ≠ [].
Proof.
  unfold Set_add, Set_has. case_bool_decide as Hd.
  - intros ->. by apply elem_of_nil in Hd.
  - by destruct l.
Qed.

Lemma NoEmpty_indexWord d idx w :
  NoEmptyPosting idx → NoEmptyPosting (indexWord d idx w).
Proof.
  intros Hne t l. unfold indexWord.
  destruct (idx !! w) as [l0|] eqn:Hw.
  - rewrite Hw. destruct (decide (t = w)) as [->|Htw].
    + rewrite lookup_insert_eq. intros [= <-]. apply Set_add_nonempty.
    + rewrite lookup_insert_ne by done. apply Hne.
  - rewrite lookup_insert_eq. destruct (decide (t = w)) as [->|Htw].
    + rewrite lookup_insert_eq. intros [= <-]. apply Set_add_nonempty.
    + rewrite !lookup_insert_ne by done. apply Hne.
Qed.

Lemma NoEmpty_unindexWord d idx w :
  NoEmptyPosting idx → NoEmptyPosting (unindexWord d idx w).
Proof.
  intros Hne t l. unfold unindexWord.
  destruct (idx !! w) as [l0|] eqn:Hw; [|apply Hne]. cbv zeta.
  destruct (Nat.eqb_spec (length (Set_delete l0 d)) 0) as [Hlen|Hlen].
  - destruct (decide (t = w)) as [->|Htw].
    + by rewrite lookup_delete_eq.
    + rewrite lookup_delete_ne by done. apply Hne.
  - destruct (decide (t = w)) as [->|Htw].
    + rewrite lookup_insert_eq. intros [= <-] Hnil.
      by rewrite Hnil in Hlen.
    + rewrite lookup_insert_ne by done. apply Hne.
Qed.

(** ** All the words of a document *)

Lemma posting_index_words d ws idx t d' :
  d' ∈ posting (fold_left (indexWord d) ws idx) t
  ↔ d' ∈ posting idx t ∨ (d' = d ∧ t ∈ ws).
Proof.
  revert idx. induction ws as [|w ws IH]; intros idx; simpl.
  - rewrite elem_of_nil. tauto.
  - rewrite IH, posting_indexWord, elem_of_cons.
    destruct (decide (t = w)) as [->|Hne].
    + rewrite Set_add_elem. tauto.
    + tauto.
Qed.

Lemma posting_unindex_words d ws idx t d' :
  d' ∈ posting (fold_left (unindexWord d) ws idx) t
  ↔ d' ∈ posting idx t ∧ ¬ (d' = d ∧ t ∈ ws).
Proof.
  revert idx. induction ws as [|w ws IH]; intros idx; simpl.
  - rewrite elem_of_nil. tauto.
  - rewrite IH, posting_unindexWord, elem_of_cons.
    destruct (decide (t = w)) as [->|Hne].
    + rewrite Set_delete_elem. destruct (decide (d' = d)); tauto.
    + tauto.
Qed.

Lemma NoEmpty_index_words d ws idx :
  NoEmptyPosting idx → NoEmptyPosting (fold_left (indexWord d) ws idx).
Proof.
  revert idx. induction ws as [|w ws IH]; intros idx H; simpl; [done|].
  by apply IH, NoEmpty_indexWord.
Qed.

Lemma NoEmpty_unindex_words d ws idx :
  NoEmptyPosting idx → NoEmptyPosting (fold_left (unindexWord d) ws idx).
Proof.
  revert idx. induction ws as [|w ws IH]; intros idx H; simpl; [done|].
  by apply IH, NoEmpty_unindexWord.
Qed.

Lemma posting_indexDocument doc idx t d :
  d ∈ posting (indexDocument doc idx) t
  ↔ d ∈ posting idx t ∨ (d = id doc ∧ hasWord doc t).
Proof.
  unfold indexDocument. by rewrite posting_index_words, docWords_elem.
Qed.

Lemma posting_removeFromIndex doc idx t d :
  d ∈ posting (removeFromIndex doc idx) t
  ↔ d ∈ posting idx t ∧ ¬ (d = id doc ∧ hasWord doc t).
Proof.
  unfold removeFromIndex. by rewrite posting_unindex_words, docWords_elem.
Qed.

(** ** The invariant *)

Lemma Consistent_intro s :
  WellKeyed s →
  (∀ t d, d ∈ posting (wordIndex s) t ↔
          ∃ doc, documents s !! d = Some doc ∧ hasWord doc t) →
  NoEmptyPosting (wordIndex s) →
  Consistent s.
Proof.
  intros Hk Hp Hne. split; [done|]. split; [|done].
  intros t d. by rewrite inPosting_posting.
Qed.

Lemma Consistent_posting s t d :
  Consistent s →
  d ∈ posting (wordIndex s) t ↔
  ∃ doc, documents s !! d = Some doc ∧ hasWord doc t.
Proof. intros (_ & Hp & _). by rewrite <- inPosting_posting. Qed.

Lemma Consistent_empty : Consistent emptyStore.
Proof.
  apply Consistent_intro.
  - intros d doc. simpl. by rewrite lookup_empty.
  - intros t d. unfold posting. simpl. rewrite lookup_empty. simpl.
    split; [intros []%elem_of_nil|].
    intros (doc & H & _). by rewrite lookup_empty in H.
  - intros t l. simpl. by rewrite lookup_empty.
Qed.

(** Replacing the document stored under [docId] and moving its postings
    from the old words to the new ones. *)
Lemma Consistent_reindex s docId doc doc' :
  Consistent s →
  documents s !! docId = Some doc →
  id doc' = id doc →
  Consistent (mkStore (<[docId := doc']> (documents s))
                (indexDocument doc' (removeFromIndex doc (wordIndex s)))).
Proof.
  intros Hs Hdoc Hid. pose proof Hs as (Hk & _ & Hne).
  pose proof (Hk _ _ Hdoc) as Hkey.
  apply Consistent_intro; unfold WellKeyed, NoEmptyPosting; simpl.
  - intros d x. destruct (decide (d = docId)) as [->|Hd].
    + rewrite lookup_insert_eq. intros [= <-]. congruence.
    + rewrite lookup_insert_ne by done. apply Hk.
  - intros t d.
    rewrite posting_indexDocument, posting_removeFromIndex,
      (Consistent_posting s) by done.
    rewrite Hid, Hkey. destruct (decide (d = docId)) as [->|Hd].
    + rewrite lookup_insert_eq. split.
      * intros [[(x & Hx & Hw) Hnot]|[_ Hw]]; [|eauto].
        rewrite Hdoc in Hx. injection Hx as <-. tauto.
      * intros (x & [= <-] & Hw). eauto.
    + rewrite lookup_insert_ne by done. split.
      * intros [[? _]|[? _]]; done.
      * intros H. left. split; [done|]. intros [? _]. done.
  - unfold indexDocument, removeFromIndex.
    by apply NoEmpty_index_words, NoEmpty_unindex_words.
Qed.

(** Replacing the document stored under [docId] by one with the same title
    and content, the index untouched. *)
Lemma Consistent_same_words s docId doc doc' :
  Consistent s →
  documents s !! docId = Some doc →
  id doc' = id doc → title doc' = title doc → content doc' = content doc →
  Consistent (mkStore (<[docId := doc']> (documents s)) (wordIndex s)).
Proof.
  intros Hs Hdoc Hid Ht Hc. pose proof Hs as (Hk & _ & Hne).
  pose proof (Hk _ _ Hdoc) as Hkey.
  apply Consistent_intro; unfold WellKeyed, NoEmptyPosting; simpl; [| |done].
  - intros d x. destruct (decide (d = docId)) as [->|Hd].
    + rewrite lookup_insert_eq. intros [= <-]. congruence.
    + rewrite lookup_insert_ne by done. apply Hk.
  - intros t d. rewrite (Consistent_posting s) by done.
    destruct (decide (d = docId)) as [->|Hd].
    + rewrite lookup_insert_eq, Hdoc. unfold hasWord.
      split; intros (x & [= <-] & Hw); eexists; (split; [done|]);
        [rewrite Ht, Hc | rewrite <- Ht, <- Hc]; done.
    + by rewrite lookup_insert_ne.
Qed.

Lemma Consistent_create s input uuid now :
  Consistent s → documents s !! uuid = None →
  Consistent (createDocument input uuid now s).1.
Proof.
  intros Hs Hfresh. pose proof Hs as (Hk & _ & Hne).
  apply Consistent_intro; unfold WellKeyed, NoEmptyPosting; simpl.
  - intros d x. destruct (decide (d = uuid)) as [->|Hd].
    + rewrite lookup_insert_eq. by intros [= <-].
    + rewrite lookup_insert_ne by done. apply Hk.
  - intros t d.
    rewrite posting_indexDocument, (Consistent_posting s) by done. simpl.
    destruct (decide (d = uuid)) as [->|Hd].
    + rewrite lookup_insert_eq, Hfresh. split.
      * intros [(x & [=] & _)|[_ Hw]]. eauto.
      * intros (x & [= <-] & Hw). eauto.
    + rewrite lookup_insert_ne by done. split; [|eauto].
      intros [?|[? _]]; done.
  - unfold indexDocument. by apply NoEmpty_index_words.
Qed.

Lemma Consistent_update s docId updates now :
  Consistent s → Consistent (updateDocument docId updates now s).1.
Proof.
  intros Hs. unfold updateDocument.
  destruct (documents s !! docId) as [doc|] eqn:Hdoc; [|done].
  simpl. apply (Consistent_reindex s docId doc); [done..|].
  simpl. by destruct (u_title updates), (u_content updates).
Qed.

Lemma Consistent_patch s docId patch now :
  Consistent s → Consistent (patchDocument docId patch now s).1.
Proof.
  intros Hs. unfold patchDocument.
  destruct (documents s !! docId) as [doc|] eqn:Hdoc; [|done].
  destruct (p_title patch) as [t|]; simpl.
  - case_bool_decide as Ht.
    + apply (Consistent_reindex s docId doc); [done..|].
      simpl. by destruct (p_author patch), (p_tags patch).
    + apply (Consistent_same_words s docId doc); [done..| | |];
        simpl; destruct (p_author patch), (p_tags patch); simpl; try done.
      all: by destruct (decide (t = title doc)).
  - apply (Consistent_same_words s docId doc); [done..| | |];
      simpl; by destruct (p_author patch), (p_tags patch).
Qed.

Lemma Consistent_delete s docId :
  Consistent s → Consistent (deleteDocument docId s).1.
Proof.
  intros Hs. unfold deleteDocument.
  destruct (documents s !! docId) as [doc|] eqn:Hdoc; [|done].
  pose proof Hs as (Hk & _ & Hne). pose proof (Hk _ _ Hdoc) as Hkey.
  apply Consistent_intro; unfold WellKeyed, NoEmptyPosting; simpl.
  - intros d x. destruct (decide (d = docId)) as [->|Hd].
    + by rewrite lookup_delete_eq.
    + rewrite lookup_delete_ne by done. apply Hk.
  - intros t d.
    rewrite posting_removeFromIndex, (Consistent_posting s) by done.
    rewrite Hkey. destruct (decide (d = docId)) as [->|Hd].
    + rewrite lookup_delete_eq. split.
      * intros [(x & Hx & Hw) Hnot]. rewrite Hdoc in Hx.
        injection Hx as <-. tauto.
      * intros (x & [=] & _).
    + rewrite lookup_delete_ne by done. split; [tauto|].
      intros H. split; [done|]. intros [? _]. done.
  - unfold removeFromIndex. by apply NoEmpty_unindex_words.
Qed.

Lemma reachable_Consistent s : reachable s → Consistent s.
Proof.
  induction 1 as [|s input uuid now _ IH Hfresh|s docId updates now _ IH
                  |s docId patch now _ IH|s docId _ IH].
  - apply Consistent_empty.
  - by apply Consistent_create.
  - by apply Consistent_update.
  - by apply Consistent_patch.
  - by apply Consistent_delete.
Qed.

(** C2.  In every state of the store reached by creating, updating,
    patching and deleting documents, an identifier is in the posting set of
    a term exactly when it is the identifier of a stored document whose
    title or content has the term as a normalized word, and no term is kept
    with an empty posting set. *)
Theorem index_exact (s : Store) : reachable s → IndexExact s.
Proof. intros Hs. by apply reachable_Consistent. Qed.

(** C10.  Patching an existing document with no field adds one to its
    version and stamps it with the current time; its identifier, title,
    content, author, tags, counts and creation time stay, and so does the
    inverted index. *)
Theorem patchDocument_no_fields (s : Store) (docId now : jsstring)
    (doc : Document) :
  documents s !! docId = Some doc →
  ∃ s' doc',
    patchDocument docId (mkPatch None None None) now s = (s', Some doc')
    ∧ documents s' !! docId = Some doc'
    ∧ version doc' = version doc + 1
    ∧ updatedAt doc' = now
    ∧ id doc' = id doc ∧ title doc' = title doc
    ∧ content doc' = content doc
    ∧ author (metadata doc') = author (metadata doc)
    ∧ tags (metadata doc') = tags (metadata doc)
    ∧ wordCount (metadata doc') = wordCount (metadata doc)
    ∧ characterCount (metadata doc') = characterCount (metadata doc)
    ∧ createdAt doc' = createdAt doc
    ∧ wordIndex s' = wordIndex s.
Proof.
  intros Hdoc. unfold patchDocument. rewrite Hdoc. simpl.
  eexists _, _. split; [reflexivity|]. simpl.
  rewrite lookup_insert_eq. by split_and!.
Qed.

Lemma index_exact_witness :
  let s := (deleteDocument (str "id-2")
              (updateDocument (str "id-1")
                 (mkUpdates None (Some (str "hello again")))
                 (str "2024-01-04T00:00:00.000Z") store3).1).1 in
  reachable s ∧ IndexExact s.
Proof.
  intros s.
  assert (reachable s) as Hs.
  { apply reach_delete, reach_update.
    repeat (apply reach_create; [|reflexivity]). apply reach_empty. }
  split; [exact Hs|]. apply (index_exact s Hs).
Defined.

Lemma patchDocument_no_fields_witness :
  ∃ s' doc',
    patchDocument (str "id-1") (mkPatch None None None)
      (str "2024-01-05T00:00:00.000Z") store3 = (s', Some doc')
    ∧ version doc' = 2
    ∧ wordIndex s' = wordIndex store3.
Proof.
  destruct (patchDocument_no_fields store3 (str "id-1")
              (str "2024-01-05T00:00:00.000Z")
              (createDocument (newDoc "Doc 1" "hello world today")
                 (str "id-1") (str "2024-01-01T00:00:00.000Z")
                 emptyStore).2)
    as (s' & doc' & Heq & _ & Hv & _ & _ & _ & _ & _ & _ & _ & _ & _ & Hidx);
    [reflexivity|].
  exists s', doc'. split; [exact Heq|]. split; [exact Hv|exact Hidx].
Defined.

End IndexFacts.

(* ===================================================================== *)
(** * Facts about patterns and the match loop *)
(* ===================================================================== *)
Module RegexFacts.
Import JS JSFacts Regex ChangeService Specs.

Lemma escape_not_b c : isSyntaxChar c = true → Ascii.eqb c "b" = false.
Proof.
  intros Hc. destruct (Ascii.eqb_spec c "b") as [->|]; [|done].
  by vm_compute in Hc.
Qed.

Lemma non_syntax_not_backslash c :
  isSyntaxChar c = false → Ascii.eqb c "\" = false.
Proof.
  intros Hc. destruct (Ascii.eqb_spec c "\") as [->|]; [|done].
  by vm_compute in Hc.
Qed.

(** Parsing undoes escaping: the escaped literal is read back as the
    literal itself. *)
Lemma parseSource_escape lit tail :
  parseSource (escapeRegex lit ++ tail)
  = app (map Lit lit) <$> parseSource tail.
Proof.
  induction lit as [|c lit IH]; simpl.
  - by destruct (parseSource tail).
  - fold (escapeRegex lit).
    destruct (isSyntaxChar c) eqn:Hc; simpl.
    + rewrite (escape_not_b c Hc), Hc, IH.
      by destruct (parseSource tail).
    + rewrite (non_syntax_not_backslash c Hc), Hc, IH.
      by destruct (parseSource tail).
Qed.

Lemma parseSource_literal wholeWord lit :
  parseSource (literalSource wholeWord lit)
  = Some (literalAtoms wholeWord lit).
Proof.
  unfold literalSource, literalAtoms. destruct wholeWord.
  - change (str "\b" ++ escapeRegex lit ++ str "\b")
      with ("\"%char :: "b"%char :: escapeRegex lit ++ str "\b").
    cbn [parseSource]. change (Ascii.eqb "\" "\") with true.
    change (Ascii.eqb "b" "b") with true. cbv iota.
    by rewrite parseSource_escape.
  - rewrite <- (app_nil_r (escapeRegex lit)), parseSource_escape.
    simpl. by rewrite app_nil_r.
Qed.

Lemma RegExp_new_literal wholeWord lit g ic :
  RegExp_new (literalSource wholeWord lit) g ic
  = Some (mkRegExp (literalSource wholeWord lit)
            (literalAtoms wholeWord lit) g ic).
Proof. unfold RegExp_new. by rewrite parseSource_literal. Qed.

(** [buildPattern] never fails. *)
Lemma buildPattern_total change :
  buildPattern change
  = Some (mkRegExp
            (literalSource (default false (matchWholeWord change))
               (searchText change))
            (literalAtoms (default false (matchWholeWord change))
               (searchText change))
            true (negb (default true (matchCase change)))).
Proof. unfold buildPattern. apply RegExp_new_literal. Qed.

(** ** Bounds of one match *)

Lemma matchAtoms_bounds ic ats input pos e :
  matchAtoms ic ats input pos = Some e →
  pos ≤ e ∧ (pos ≤ length input → e ≤ length input).
Proof.
  revert pos. induction ats as [|[c|] ats IH]; intros pos; simpl.
  - intros [= <-]. lia.
  - destruct (input !! pos) as [d|] eqn:Hd; [|done].
    apply lookup_lt_Some in Hd.
    destruct (charMatches ic c d); [|done].
    intros [? ?]%IH. lia.
  - destruct (wordBoundaryAt input pos); [|done]. apply IH.
Qed.

Lemma searchFrom_Some rx input k i m :
  searchFrom rx input k i = Some m →
  i ≤ m_index m < i + k
  ∧ ∃ e, matchAtoms (ignoreCase rx) (atoms rx) input (m_index m) = Some e
         ∧ m_text m = substring input (m_index m) e.
Proof.
  revert i. induction k as [|k IH]; intros i; simpl; [done|].
  destruct (matchAtoms (ignoreCase rx) (atoms rx) input i) as [e|] eqn:He.
  - intros [= <-]. simpl. split; [lia|]. eauto.
  - intros [Hi Hm]%IH. split; [lia|done].
Qed.

Lemma searchFrom_None rx input k i j :
  searchFrom rx input k i = None → i ≤ j < i + k →
  matchAtoms (ignoreCase rx) (atoms rx) input j = None.
Proof.
  revert i. induction k as [|k IH]; intros i; simpl; [lia|].
  destruct (matchAtoms (ignoreCase rx) (atoms rx) input i) as [e|] eqn:He;
    [done|].
  intros Hnone Hj. destruct (decide (j = i)) as [->|]; [done|].
  apply (IH (S i)); [done|lia].
Qed.

Lemma searchFrom_first rx input k i :
  (∀ j, i ≤ j < i + k →
        matchAtoms (ignoreCase rx) (atoms rx) input j = None) →
  searchFrom rx input k i = None.
Proof.
  revert i. induction k as [|k IH]; intros i Hall; simpl; [done|].
  rewrite Hall by lia. apply IH. intros j Hj. apply Hall. lia.
Qed.

(** A successful [exec] of a global regex: the match lies in the input at
    or after [lastIndex], and the new [lastIndex] is its end. *)
Lemma exec_Some rx input lastIndex m lastIndex' :
  global rx = true →
  exec rx input lastIndex = (Some m, lastIndex') →
  lastIndex ≤ m_index m
  ∧ lastIndex' = m_index m + length (m_text m)
  ∧ lastIndex' ≤ length input
  ∧ m_text m = take (length (m_text m)) (drop (m_index m) input)
  ∧ matchAtoms (ignoreCase rx) (atoms rx) input (m_index m)
    = Some lastIndex'.
Proof.
  intros Hg. unfold exec. rewrite Hg.
  destruct (Nat.ltb_spec (length input) lastIndex) as [|Hle]; [done|].
  destruct (searchFrom rx input (S (length input) - lastIndex) lastIndex)
    as [m'|] eqn:Hs; [|done].
  intros [= <- <-].
  apply searchFrom_Some in Hs as ([Hlo Hhi] & e & He & Htext).
  pose proof (matchAtoms_bounds _ _ _ _ _ He) as [Hme Hbound].
  assert (e ≤ length input) as Hbe by (apply Hbound; lia).
  assert (length (m_text m') = e - m_index m') as Hlen
    by (rewrite Htext; by apply substring_length).
  split_and!; [done|done|lia| |].
  - rewrite Hlen. rewrite Htext at 1. by apply substring_take_drop.
  - rewrite He. f_equal. lia.
Qed.

Lemma exec_past_end rx input lastIndex :
  global rx = true → length input < lastIndex →
  (exec rx input lastIndex).1 = None.
Proof.
  intros Hg Hlt. unfold exec. rewrite Hg.
  by destruct (Nat.ltb_spec (length input) lastIndex); [|lia].
Qed.

(** An unsuccessful [exec]: no offset from [lastIndex] on matches. *)
Lemma exec_None rx input lastIndex j :
  global rx = true →
  (exec rx input lastIndex).1 = None → lastIndex ≤ j ≤ length input →
  matchAtoms (ignoreCase rx) (atoms rx) input j = None.
Proof.
  intros Hg. unfold exec. rewrite Hg.
  destruct (Nat.ltb_spec (length input) lastIndex) as [|Hle]; [lia|].
  destruct (searchFrom rx input (S (length input) - lastIndex) lastIndex)
    as [m'|] eqn:Hs; [done|].
  intros _ Hj. apply (searchFrom_None _ _ _ _ j) in Hs; [done|lia].
Qed.

Lemma exec_no_match rx input lastIndex :
  global rx = true →
  (∀ j, matchAtoms (ignoreCase rx) (atoms rx) input j = None) →
  (exec rx input lastIndex).1 = None.
Proof.
  intros Hg Hall. unfold exec. rewrite Hg.
  destruct (length input <? lastIndex); [done|].
  rewrite searchFrom_first; [done|]. intros j _. apply Hall.
Qed.

(** ** The match loop *)

(** The loop is never cut short: any two amounts of fuel of at least
    [length input + 2 - lastIndex] give the same matches. *)
Lemma execAll_fuel rx input fuel fuel' lastIndex :
  global rx = true →
  length input + 2 ≤ fuel + lastIndex →
  length input + 2 ≤ fuel' + lastIndex →
  execAll fuel rx input lastIndex = execAll fuel' rx input lastIndex.
Proof.
  intros Hg. revert fuel' lastIndex.
  induction fuel as [|fuel IH]; intros fuel' lastIndex Hf Hf'.
  - destruct fuel' as [|fuel']; [done|]. simpl.
    pose proof (exec_past_end rx input lastIndex Hg) as Hnone.
    destruct (exec rx input lastIndex) as [[m|] li]; [|done].
    simpl in Hnone. discriminate Hnone. lia.
  - destruct fuel' as [|fuel']; simpl.
    + pose proof (exec_past_end rx input lastIndex Hg) as Hnone.
      destruct (exec rx input lastIndex) as [[m|] li]; [|done].
      simpl in Hnone. discriminate Hnone. lia.
    + destruct (exec rx input lastIndex) as [[m|] li] eqn:He; [|done].
      apply exec_Some in He as (Hlo & -> & _); [|done].
      f_equal. apply IH; destruct (length (m_text m)); simpl; lia.
Qed.

Lemma execAll_spaced rx input fuel lastIndex :
  global rx = true → spaced input lastIndex (execAll fuel rx input lastIndex).
Proof.
  intros Hg. revert lastIndex.
  induction fuel as [|fuel IH]; intros lastIndex; simpl; [done|].
  destruct (exec rx input lastIndex) as [[m|] li] eqn:He; [|done].
  apply exec_Some in He as (Hlo & -> & Hhi & Htext & _); [|done].
  simpl. split_and!; [done..|].
  destruct (length (m_text m)) eqn:Hlen; simpl.
  - rewrite Nat.add_0_r. apply IH.
  - apply IH.
Qed.

Lemma execAll_no_match rx input fuel lastIndex :
  global rx = true →
  (∀ j, matchAtoms (ignoreCase rx) (atoms rx) input j = None) →
  execAll fuel rx input lastIndex = [].
Proof.
  intros Hg Hall. destruct fuel as [|fuel]; simpl; [done|].
  pose proof (exec_no_match rx input lastIndex Hg Hall) as Hnone.
  by destruct (exec rx input lastIndex) as [[m|] li].
Qed.

(** [findAllMatches] runs the loop of [match] and [replace]. *)
Lemma findAllMatches_loop_execAll fuel content rx lastIndex :
  findAllMatches_loop fuel content rx lastIndex
  = map (λ m, mkMatch (m_index m) (length (m_text m)) (m_text m))
      (execAll fuel rx content lastIndex).
Proof.
  revert lastIndex. induction fuel as [|fuel IH]; intros lastIndex; simpl;
    [done|].
  destruct (exec rx content lastIndex) as [[m|] li]; [|done].
  simpl. by rewrite IH.
Qed.

(** [findAllMatches] is never cut short by its bound on the number of
    iterations. *)
Lemma findAllMatches_loop_fuel rx content fuel :
  global rx = true → length content + 2 ≤ fuel →
  findAllMatches_loop fuel content rx 0 = findAllMatches content rx.
Proof.
  intros Hg Hf. unfold findAllMatches.
  rewrite !findAllMatches_loop_execAll. f_equal.
  apply execAll_fuel; [done|lia..].
Qed.

End RegexFacts.

(* ===================================================================== *)
(** * Search: candidates and bounds *)
(* ===================================================================== *)
Module SearchFacts.
Import JS JSFacts Regex Storage SearchService Specs RegexFacts.

Lemma getCandidateDocuments_candidateIds searchText documentIds s :
  getCandidateDocuments searchText documentIds s
  = getDocumentsByIds (candidateIds searchText documentIds s) s.
Proof.
  unfold getCandidateDocuments, candidateIds.
  destruct documentIds as [[|docId ids]|]; try done.
  all: destruct (extractWords searchText) as [|w [|w' ws]]; try done.
  all: try change (findDocumentsByWords [w] s)
             with (findDocumentsByWord w s).
  all: match goal with
       | |- context [0 <? length ?l] => generalize l; by intros [|??]
       end.
Qed.

(** The loops of [search] stop at the result limit. *)
Lemma geb_resultLimit k maxResults :
  geb (ofNat k) maxResults
  = match resultLimit maxResults with
    | Some n => n <=? k
    | None => false
    end.
Proof.
  destruct maxResults as [q| | |]; try done. unfold geb, leb, ofNat, resultLimit.
  rewrite Qle_bool_ceiling.
  destruct (Z.leb_spec (Qceiling q) (Z.of_nat k)),
    (Nat.leb_spec (Z.to_nat (Qceiling q)) k); try done; lia.
Qed.

Lemma searchInDocument_loop_take fuel doc rx contextSize maxResults
    lastIndex results :
  searchInDocument_loop fuel doc rx contextSize maxResults lastIndex results
  = results
    ++ takeLimit (resultLimit maxResults) (length results)
         (map (toSearchMatch doc contextSize)
            (execAll fuel rx (content doc) lastIndex)).
Proof.
  revert lastIndex results.
  induction fuel as [|fuel IH]; intros lastIndex results;
    cbn [searchInDocument_loop execAll].
  - destruct (resultLimit maxResults); simpl;
      by rewrite ?take_nil, app_nil_r.
  - destruct (exec rx (content doc) lastIndex) as [[m|] li].
    + rewrite geb_resultLimit, IH.
      destruct (resultLimit maxResults) as [limit|]; cbn [takeLimit map].
      * destruct (Nat.leb_spec limit (length results)) as [Hle|Hlt].
        -- replace (limit - length results) with 0 by lia.
           by rewrite take_0, app_nil_r.
        -- rewrite length_app. simpl.
           replace (limit - length results)
             with (S (limit - (length results + 1))) by lia.
           simpl. by rewrite <- app_assoc.
      * by rewrite <- app_assoc.
    + destruct (resultLimit maxResults); simpl;
        by rewrite ?take_nil, app_nil_r.
Qed.

(** [searchInDocument] appends the first matches of the document, as many
    as still fit under the limit. *)
Lemma searchInDocument_take doc rx contextSize maxResults results :
  searchInDocument doc rx contextSize maxResults results
  = results
    ++ takeLimit (resultLimit maxResults) (length results)
         (map (toSearchMatch doc contextSize)
            (execAll (S (S (length (content doc)))) rx (content doc) 0)).
Proof. apply searchInDocument_loop_take. Qed.

Lemma searchInDocument_length doc rx contextSize maxResults results limit :
  resultLimit maxResults = Some limit →
  length results ≤ limit →
  length (searchInDocument doc rx contextSize maxResults results) ≤ limit.
Proof.
  intros Hlimit Hle. rewrite searchInDocument_take, Hlimit, length_app.
  cbn [takeLimit]. rewrite length_take. lia.
Qed.

Lemma search_loop_length candidates rx contextSize maxResults results limit :
  resultLimit maxResults = Some limit →
  length results ≤ limit →
  length (search_loop candidates rx contextSize maxResults results) ≤ limit.
Proof.
  intros Hlimit. revert results.
  induction candidates as [|doc rest IH]; intros results Hle; simpl; [done|].
  destruct (geb _ _); [done|].
  by eapply IH, searchInDocument_length.
Qed.

(** [search] never fails. *)
Lemma search_total q s :
  search q s
  = let rx := mkRegExp (literalSource false (query q))
                (literalAtoms false (query q)) true
                (negb (default false (caseSensitive q))) in
    let candidates := getCandidateDocuments (query q) (documentIds q) s in
    let results := search_loop candidates rx
                     (default (ofNat 50) (contextSize q))
                     (default (ofNat 100) (maxResults q)) [] in
    Some (mkSearchResponse (query q) (length results) (length candidates)
            results).
Proof.
  unfold search, escapeRegex.
  change (ChangeService.escapeRegex (query q))
    with (literalSource false (query q)).
  by rewrite RegExp_new_literal.
Qed.

(** C8, as stated, fails: [maxResults] is a number, and with 2.5 the loops
    stop only once three matches are there, which is more than
    [maxResults]. *)
Lemma search_fractional_maxResults_counterexample :
  let q :=
    mkSearchQuery (str "echo") None None None (Some (Finite 2.5)) in
  (λ r, (totalMatches r, length (results r))) <$> search q storeEcho
  = Some (3, 3)
  ∧ leb (ofNat 3) (Finite 2.5) = false.
Proof. by vm_compute. Qed.

(** C8, amended.  Every search returns; the number of returned matches is
    at most every whole number that [maxResults] (100 when it is not given)
    does not exceed, hence at most [maxResults] when that is a whole number;
    [totalMatches] is the number of returned matches; and
    [documentsSearched] is the number of candidate documents, those found
    from the supplied identifiers or from the index for the words of the
    query. *)
Theorem search_counts (q : SearchQuery) (s : Store) :
  ∃ resp,
    search q s = Some resp
    ∧ (∀ n : nat,
         leb (default (ofNat 100) (maxResults q)) (ofNat n) = true →
         length (results resp) ≤ n)
    ∧ totalMatches resp = length (results resp)
    ∧ documentsSearched resp
      = length (getDocumentsByIds
                  (candidateIds (query q) (documentIds q) s) s).
Proof.
  rewrite search_total. eexists. split; [reflexivity|]. simpl.
  split_and!; [|done|].
  - intros n Hn. change (leb ?x ?y) with (geb y x) in Hn.
    rewrite geb_resultLimit in Hn.
    destruct (resultLimit (default (ofNat 100) (maxResults q)))
      as [limit|] eqn:Hlimit; [|done].
    apply Nat.leb_le in Hn.
    etrans; [|exact Hn]. eapply search_loop_length; [done|simpl; lia].
  - by rewrite getCandidateDocuments_candidateIds.
Qed.

Lemma search_counts_witness :
  let q :=
    mkSearchQuery (str "echo") None None None (Some (ofNat 2)) in
  leb (ofNat 2) (ofNat 2) = true
  ∧ ∃ resp, search q storeEcho = Some resp ∧ length (results resp) ≤ 2.
Proof.
  intros q.
  assert (leb (ofNat 2) (ofNat 2) = true) as Hle by reflexivity.
  split; [exact Hle|].
  destruct (search_counts q storeEcho) as (resp & Hresp & Hbound & _).
  exists resp. split; [exact Hresp|]. exact (Hbound 2 Hle).
Defined.

(** The scenario of the specification: of three stored documents only the
    one holding both words is scanned. *)
Example search_hello_world :
  (λ r, (totalMatches r, documentsSearched r))
    <$> search (mkSearchQuery (str "hello world") None None None None) store3
  = Some (1, 1)
  ∧ size (documents store3) = 3.
Proof. by vm_compute. Qed.

(** C5, as stated, fails: with an empty list of identifiers supplied the
    candidates are not the (zero) documents that the list identifies but
    those that the index gives for the query. *)
Lemma candidates_empty_ids_counterexample :
  getCandidateDocuments (str "hello") (Some []) store1
  ≠ getDocumentsByIds [] store1
  ∧ length (getCandidateDocuments (str "hello") (Some []) store1) = 1.
Proof. split; [by vm_compute|by vm_compute]. Qed.

(** C5, amended.  When a non-empty list of identifiers is supplied, the
    candidates are the stored documents that the list identifies, whatever
    the index holds; an empty list is treated like no list. *)
Theorem candidates_from_ids (searchText : jsstring) (ids : list jsstring)
    (s : Store) :
  ids ≠ [] →
  getCandidateDocuments searchText (Some ids) s = getDocumentsByIds ids s
  ∧ (∀ idx,
       getCandidateDocuments searchText (Some ids)
         (mkStore (documents s) idx)
       = getCandidateDocuments searchText (Some ids) s)
  ∧ getCandidateDocuments searchText (Some []) s
    = getCandidateDocuments searchText None s.
Proof.
  intros Hne. destruct ids as [|docId ids]; [done|]. by split_and!.
Qed.

Lemma candidates_from_ids_witness :
  [str "id-3"; str "none"] ≠ []
  ∧ getCandidateDocuments (str "hello") (Some [str "id-3"; str "none"]) store3
    = getDocumentsByIds [str "id-3"; str "none"] store3.
Proof.
  assert ([str "id-3"; str "none"] ≠ []) as Hne by discriminate.
  split; [exact Hne|].
  exact (proj1 (candidates_from_ids (str "hello") [str "id-3"; str "none"]
                  store3 Hne)).
Defined.

End SearchFacts.

(* ===================================================================== *)
(** * Concurrency tokens *)
(* ===================================================================== *)
Module ETagFacts.
Import JS JSFacts Storage ETag Specs.

Lemma string_of_uint_digits d :
  Forall isDigit (str (NilEmpty.string_of_uint d)).
Proof. induction d; simpl; constructor; done. Qed.

Lemma numberToString_digits n : Forall isDigit (numberToString n).
Proof. apply string_of_uint_digits. Qed.

Lemma str_inj s1 s2 : str s1 = str s2 → s1 = s2.
Proof.
  intros H. rewrite <- (string_of_list_ascii_of_string s1),
    <- (string_of_list_ascii_of_string s2). unfold str in H. by rewrite H.
Qed.

Lemma numberToString_inj n n' : numberToString n = numberToString n' → n = n'.
Proof.
  intros H%str_inj. apply Unsigned.to_uint_inj.
  assert (Some (Nat.to_uint n) = Some (Nat.to_uint n')) as [=]; [|done].
  by rewrite <- !NilEmpty.usu, H.
Qed.

Lemma hexByte_alnum b : Forall isAlnum (hexByte b).
Proof. destruct b; repeat constructor. Qed.

Lemma hexEncode_alnum bytes : Forall isAlnum (hexEncode bytes).
Proof.
  induction bytes as [|b bytes IH]; [constructor|].
  change (hexEncode (b :: bytes)) with (hexByte b ++ hexEncode bytes).
  apply Forall_app. split; [apply hexByte_alnum|done].
Qed.

(** Two texts that agree after a separator, each free of it up to there,
    agree up to there. *)
Lemma app_sep_inj (P : ascii → Prop) sep a b r r' :
  ¬ P sep → Forall P a → Forall P b →
  a ++ sep :: r = b ++ sep :: r' → a = b.
Proof.
  intros Hsep Ha. revert b. induction Ha as [|x a Hx Ha IH]; intros b Hb.
  - destruct Hb as [|y b Hy Hb]; [done|]. simpl. intros [= <- _]. done.
  - destruct Hb as [|y b Hy Hb]; simpl.
    + intros [= -> _]. done.
    + intros [= -> H]. f_equal. by apply IH.
Qed.

Lemma splitChar_absent sep s : sep ∉ s → splitChar sep s = [s].
Proof.
  induction s as [|c s IH]; [done|]. intros Hnot. simpl.
  destruct (Ascii.eqb_spec c sep) as [->|Hne]; [set_solver|].
  rewrite IH; [done|set_solver].
Qed.

Lemma trim_quoted c mid c' :
  isSpace c = false → isSpace c' = false →
  trim (c :: mid ++ [c']) = c :: mid ++ [c'].
Proof.
  intros Hc Hc'. unfold trim. simpl. rewrite Hc.
  change (c :: mid ++ [c']) with ((c :: mid) ++ [c']).
  rewrite rev_app_distr. simpl. rewrite Hc'.
  change (c' :: rev mid ++ [c]) with ([c'] ++ rev (c :: mid)).
  by rewrite rev_app_distr, rev_involutive.
Qed.

Section WithDigest.

Variable md5 : jsstring → list Byte.byte.

(** A token is enclosed in double quotes. *)
Lemma generateETag_quoted doc :
  ∃ mid, generateETag md5 doc = dquote :: mid ++ [dquote].
Proof.
  unfold generateETag.
  match goal with
  | |- ∃ mid, _ :: ?a ++ ?b ++ ?c ++ ?d ++ _ = _ =>
      exists (a ++ b ++ c ++ d)
  end.
  by rewrite <- !app_assoc.
Qed.

(** A token has no comma. *)
Lemma generateETag_no_comma doc : ","%char ∉ generateETag md5 doc.
Proof.
  unfold generateETag. rewrite substring_0.
  assert (∀ l, Forall isDigit l → ","%char ∉ l) as Hdig.
  { intros l Hl Hin. rewrite Forall_forall in Hl. by apply Hl in Hin. }
  assert (∀ l, Forall isAlnum l → ","%char ∉ l) as Haln.
  { intros l Hl Hin. rewrite Forall_forall in Hl. by apply Hl in Hin. }
  rewrite not_elem_of_cons, !not_elem_of_app. split_and!.
  - done.
  - by intros [= ]%list_elem_of_singleton.
  - apply Hdig, numberToString_digits.
  - by intros [= ]%list_elem_of_singleton.
  - apply Haln, Forall_take, hexEncode_alnum.
  - by intros [= ]%list_elem_of_singleton.
Qed.

(** Presenting one quoted text without comma: it is compared as it is with
    the current token. *)
Lemma validateIfMatch_quoted mid doc' :
  ","%char ∉ dquote :: mid ++ [dquote] →
  validateIfMatch md5 (Some (dquote :: mid ++ [dquote])) doc'
  = bool_decide (dquote :: mid ++ [dquote] = generateETag md5 doc').
Proof.
  intros Hcomma. unfold validateIfMatch.
  rewrite (splitChar_absent _ _ Hcomma).
  destruct (generateETag_quoted doc') as [mid' ->].
  cbn [map existsb]. rewrite trim_quoted by done.
  cbn [stripWeakPrefix]. cbn [app].
  change (Ascii.eqb dquote "W") with false. cbn [andb].
  rewrite orb_false_r.
  case_bool_decide as Hstar; [by destruct mid|].
  by destruct (mid ++ [dquote]), (mid' ++ [dquote]).
Qed.

Lemma validateIfMatch_token doc doc' :
  validateIfMatch md5 (Some (generateETag md5 doc)) doc'
  = bool_decide (generateETag md5 doc = generateETag md5 doc').
Proof.
  pose proof (generateETag_no_comma doc) as Hcomma.
  destruct (generateETag_quoted doc) as [mid Hmid].
  rewrite Hmid in *. by apply validateIfMatch_quoted.
Qed.

Lemma generateETag_version doc doc' :
  generateETag md5 doc = generateETag md5 doc' → version doc = version doc'.
Proof.
  unfold generateETag. intros [= H]. apply numberToString_inj.
  apply (app_sep_inj isDigit "-"%char) in H;
    [done|done|apply numberToString_digits..].
Qed.

Lemma fresh_token_valid doc :
  validateIfMatch md5 (Some (generateETag md5 doc)) doc = true.
Proof. rewrite validateIfMatch_token. by apply bool_decide_eq_true. Qed.

Lemma stale_token_invalid doc doc' :
  version doc' = version doc + 1 →
  validateIfMatch md5 (Some (generateETag md5 doc)) doc' = false.
Proof.
  intros Hv. rewrite validateIfMatch_token.
  apply bool_decide_eq_false. intros H%generateETag_version. lia.
Qed.

(** After a content update or a metadata patch the token issued before is
    stale. *)
Lemma stale_token_after_mutation s docId doc now :
  documents s !! docId = Some doc →
  (∀ updates doc',
     (updateDocument docId updates now s).2 = Some doc' →
     validateIfMatch md5 (Some (generateETag md5 doc)) doc' = false)
  ∧ (∀ patch doc',
       (patchDocument docId patch now s).2 = Some doc' →
       validateIfMatch md5 (Some (generateETag md5 doc)) doc' = false).
Proof.
  intros Hdoc. split.
  - intros updates doc'. unfold updateDocument. rewrite Hdoc. simpl.
    intros [= <-]. apply stale_token_invalid. simpl.
    by destruct (u_title updates), (u_content updates).
  - intros patch doc'. unfold patchDocument. rewrite Hdoc. simpl.
    intros [= <-]. apply stale_token_invalid. simpl.
    by destruct (p_title patch), (p_author patch), (p_tags patch).
Qed.

(** C3.  The token generated for a document validates against that
    document; the token of a document at one version does not validate
    against the document at the next version. *)
Theorem etag_roundtrip :
  (∀ doc, validateIfMatch md5 (Some (generateETag md5 doc)) doc = true)
  ∧ (∀ doc doc',
       version doc' = version doc + 1 →
       validateIfMatch md5 (Some (generateETag md5 doc)) doc' = false).
Proof. split; [apply fresh_token_valid|apply stale_token_invalid]. Qed.

End WithDigest.

Lemma etag_roundtrip_witness :
  let doc' := mkDocument (id sampleDoc) (title sampleDoc) (str "New content")
                (metadata sampleDoc) (createdAt sampleDoc)
                (str "2024-01-02T00:00:00.000Z") 2 in
  version doc' = version sampleDoc + 1
  ∧ validateIfMatch sampleDigest
      (Some (generateETag sampleDigest sampleDoc)) sampleDoc = true
  ∧ validateIfMatch sampleDigest
      (Some (generateETag sampleDigest sampleDoc)) doc' = false.
Proof.
  intros doc'. split; [reflexivity|]. split.
  - apply (proj1 (etag_roundtrip sampleDigest)).
  - apply (proj2 (etag_roundtrip sampleDigest) sampleDoc doc'). reflexivity.
Defined.

End ETagFacts.

(* ===================================================================== *)
(** * The change engine *)
(* ===================================================================== *)
Module ChangeFacts.
Import JS JSFacts Regex ChangeService Specs RegexFacts.

(** ** What the pattern matches *)

Lemma matchAtoms_literal ic lit rest content i :
  matchAtoms ic (map Lit lit ++ rest) content i
  = if literalAt ic lit content i
    then matchAtoms ic rest content (i + length lit)
    else None.
Proof.
  revert i. induction lit as [|c lit IH]; intros i; simpl.
  - by rewrite Nat.add_0_r.
  - destruct (content !! i) as [d|]; [|done].
    destruct (charMatches ic c d); simpl; [|done].
    rewrite IH. by replace (S i + length lit) with (i + S (length lit)) by lia.
Qed.

(** The pattern of a change matches at an offset exactly when its search
    text occurs there, and the match ends where the text does. *)
Lemma matchAtoms_occursAt change content i :
  matchAtoms (ignoreCase (patternOf change)) (atoms (patternOf change))
    content i
  = if occursAt change content i
    then Some (i + length (searchText change)) else None.
Proof.
  unfold patternOf, occursAt, literalAtoms. cbn [ignoreCase atoms].
  destruct (default false (matchWholeWord change)).
  - cbn [matchAtoms]. destruct (wordBoundaryAt content i); [|done].
    rewrite matchAtoms_literal. cbn [andb].
    destruct (literalAt _ _ content i); [|done].
    cbn [matchAtoms andb]. by destruct (wordBoundaryAt content _).
  - rewrite <- (app_nil_r (map Lit _)), matchAtoms_literal.
    by destruct (literalAt _ _ content i).
Qed.

Lemma buildPattern_patternOf change :
  buildPattern change = Some (patternOf change).
Proof. apply buildPattern_total. Qed.

Lemma allMatchesOf_execAll content change :
  allMatchesOf content change
  = map toMatch
      (execAll (S (S (length content))) (patternOf change) content 0).
Proof. apply findAllMatches_loop_execAll. Qed.

Lemma no_occurrence change content :
  (∀ i, occursAt change content i = false) →
  execAll (S (S (length content))) (patternOf change) content 0 = [].
Proof.
  intros Hnone. apply execAll_no_match; [done|].
  intros j. by rewrite matchAtoms_occursAt, Hnone.
Qed.

(** C6.  A change whose search text occurs nowhere in the content returns
    the content as it is, with no match found and no replacement made, on
    the fast path, on the slow path, and so from [applySingleChange]. *)
Theorem zero_matches_identity (content : jsstring) (change : Change) :
  (∀ i, occursAt change content i = false) →
  let unchanged :=
    Some (content,
          mkChangeResult (searchText change) (replaceText change) 0 0 None)
  in
  applyFastPath content change = unchanged
  ∧ applySlowPath content change = unchanged
  ∧ applySingleChange content change = unchanged.
Proof.
  intros Hnone unchanged.
  assert (applyFastPath content change = unchanged) as Hfast.
  { unfold applyFastPath. rewrite buildPattern_patternOf. cbn [mbind option_bind].
    unfold String_match. by rewrite (no_occurrence _ _ Hnone). }
  assert (applySlowPath content change = unchanged) as Hslow.
  { unfold applySlowPath. rewrite buildPattern_patternOf. cbn [mbind option_bind].
    fold (allMatchesOf content change).
    by rewrite allMatchesOf_execAll, (no_occurrence _ _ Hnone). }
  split_and!; [done..|].
  unfold applySingleChange. by destruct (usesAdvancedTargeting change).
Qed.

Lemma zero_matches_identity_witness :
  (∀ i, occursAt (simpleChange (str "xyz") (str "abc")) (str "hello world") i
        = false)
  ∧ applySingleChange (str "hello world")
      (simpleChange (str "xyz") (str "abc"))
    = Some (str "hello world",
            mkChangeResult (str "xyz") (str "abc") 0 0 None).
Proof.
  assert (∀ i, occursAt (simpleChange (str "xyz") (str "abc"))
                 (str "hello world") i = false) as Hnone.
  { intros i. do 12 (destruct i as [|i]; [reflexivity|]). reflexivity. }
  split; [exact Hnone|].
  exact (proj2 (proj2 (zero_matches_identity (str "hello world")
                         (simpleChange (str "xyz") (str "abc")) Hnone))).
Defined.

(** ** Matches in scanning order *)

Lemma nextIndex_gt m : index m < nextIndex m.
Proof. unfold nextIndex. destruct (mlength m); simpl; lia. Qed.

Lemma nextIndex_end m : index m + mlength m ≤ nextIndex m.
Proof. unfold nextIndex. destruct (mlength m); simpl; lia. Qed.

Lemma separated_weaken n lo lo' ms :
  lo' ≤ lo → separated n lo ms → separated n lo' ms.
Proof.
  destruct ms as [|m ms]; simpl; [done|].
  intros Hle (Hlo & Hn & Hs). split_and!; [lia|done..].
Qed.

Lemma separated_sublist n lo ms' ms :
  ms' `sublist_of` ms → separated n lo ms → separated n lo ms'.
Proof.
  intros Hsub. revert lo.
  induction Hsub as [|x l1 l2 Hsub IH|x l1 l2 Hsub IH]; intros lo; simpl.
  - done.
  - intros (Hlo & Hn & Hs). split_and!; [done..|]. by apply IH.
  - intros (Hlo & Hn & Hs). apply IH.
    eapply separated_weaken; [|done]. pose proof (nextIndex_gt x). lia.
Qed.

Lemma separated_lower n lo ms :
  separated n lo ms → Forall (λ m, lo ≤ index m) ms.
Proof.
  revert lo. induction ms as [|m ms IH]; intros lo; simpl; [constructor|].
  intros (Hlo & Hn & Hs). constructor; [done|].
  apply IH in Hs. eapply Forall_impl; [done|].
  intros y Hy. simpl in Hy. pose proof (nextIndex_gt m). lia.
Qed.

Lemma separated_sorted n lo ms :
  separated n lo ms → StronglySorted (λ a b, index a < index b) ms.
Proof.
  revert lo. induction ms as [|m ms IH]; intros lo; simpl; [constructor|].
  intros (Hlo & Hn & Hs). constructor; [by eapply IH|].
  apply separated_lower in Hs. eapply Forall_impl; [done|].
  intros y Hy. simpl in Hy. pose proof (nextIndex_gt m). lia.
Qed.

Lemma spaced_separated input lo ms :
  spaced input lo ms → separated (length input) lo (map toMatch ms).
Proof.
  revert lo. induction ms as [|m ms IH]; intros lo; simpl; [done|].
  intros (Hlo & Hhi & Ht & Hs). split_and!; [done..|]. by apply IH.
Qed.

Lemma allMatchesOf_separated content change :
  separated (length content) 0 (allMatchesOf content change).
Proof.
  rewrite allMatchesOf_execAll. by apply spaced_separated, execAll_spaced.
Qed.

Lemma filter_sublist_of {A} (P : A → Prop) `{∀ x, Decision (P x)} l :
  filter P l `sublist_of` l.
Proof.
  induction l as [|x l IH]; [constructor|]. rewrite filter_cons.
  destruct (decide (P x)); by constructor.
Qed.

Lemma lookup_sublist_of {A} (l : list A) k : option_list (l !! k) `sublist_of` l.
Proof.
  revert k. induction l as [|x l IH]; intros k; [constructor|].
  destruct k as [|k]; simpl.
  - constructor. apply sublist_nil_l.
  - constructor. apply IH.
Qed.

Lemma eligibleOf_separated content change :
  separated (length content) 0 (eligibleOf content change).
Proof.
  eapply separated_sublist; [|apply allMatchesOf_separated].
  apply filter_sublist_of.
Qed.

Lemma first_defined {A} (l : list A) :
  l ≠ [] → [l !! 0] = map Some (take 1 l).
Proof. by destruct l as [|x [|y l]]. Qed.

(** On a path that does not throw, the choice of the code is the amended
    selection rule. *)
Lemma selectMatches_amended change eligible :
  wholeOccurrence change → eligible ≠ [] →
  selectMatches change eligible
  = map Some (selectionAmended change eligible).
Proof.
  intros Hwhole Hne. unfold selectMatches, selectionAmended, rangeGiven.
  destruct (bool_decide (startIndex change ≠ None)
            || bool_decide (endIndex change ≠ None)); [done|].
  destruct (replaceAll change) as [[|]|], (occurrence change) as [occ|] eqn:Ho;
    cbn [default negb andb]; try done; try by apply first_defined.
  destruct (gtb occ (ofNat 0)) eqn:Hgt; cbn [negb]; [|by apply first_defined].
  pose proof (Hwhole occ Ho Hgt) as Hint.
  destruct occ as [q| | |]; try done.
  rewrite leb_whole, Array_get_pred by done.
  rewrite gtb_whole in Hgt by done. rewrite Hgt.
  destruct (Z.leb_spec (Qfloor q) (Z.of_nat (length eligible))) as [Hle|];
    [|done].
  apply Z.leb_le in Hgt.
  destruct (lookup_lt_is_Some_2 eligible (Z.to_nat (Qfloor q - 1)))
    as [m Hm]; [lia|].
  by rewrite Hm.
Qed.

Lemma selectionAmended_sublist change eligible :
  selectionAmended change eligible `sublist_of` eligible.
Proof.
  unfold selectionAmended. destruct (rangeGiven change); [done|].
  destruct (replaceAll change) as [[|]|], (occurrence change) as [occ|];
    try done; try apply sublist_take.
  destruct (negb _); [apply sublist_take|].
  destruct (leb _ _); [apply Array_get_sublist_of|apply sublist_nil_l].
Qed.

(** ** Splicing from the right is replacing from the left *)

Lemma splice_fold content r ms pos :
  separated (length content) pos ms →
  fold_left (spliceStep r) (rev ms) (content, [], 0)
  = (take pos content ++ replaceMatches content pos ms r,
     map index ms, length ms).
Proof.
  revert pos. induction ms as [|m ms IH]; intros pos; simpl.
  - intros _. by rewrite take_drop.
  - intros (Hlo & Hn & Hs). rewrite fold_left_app.
    rewrite (IH (index m + mlength m))
      by (eapply separated_weaken; [apply nextIndex_end|done]).
    cbn [fold_left]. unfold spliceStep. do 2 f_equal.
    rewrite substring_0, substringFrom_drop.
    rewrite take_app_le by (rewrite length_take; lia).
    rewrite take_take, Nat.min_l by lia.
    rewrite drop_app_length' by (rewrite length_take; lia).
    rewrite (app_assoc (take pos content)), take_take_drop.
    by replace (pos + (index m - pos)) with (index m) by lia.
Qed.

Lemma StronglySorted_snoc {A} (R : A → A → Prop) l x :
  StronglySorted R l → Forall (λ y, R y x) l → StronglySorted R (l ++ [x]).
Proof.
  induction 1 as [|y l Hs IH Hall]; intros Hx; simpl.
  - repeat constructor.
  - apply Forall_cons in Hx as [Hyx Hx]. constructor; [by apply IH|].
    apply Forall_app. split; [done|]. by repeat constructor.
Qed.

Lemma StronglySorted_rev {A} (R : A → A → Prop) l :
  StronglySorted R l → StronglySorted (λ a b, R b a) (rev l).
Proof.
  induction 1 as [|x l Hs IH Hall]; simpl; [constructor|].
  apply StronglySorted_snoc; [done|].
  rewrite Forall_forall in Hall. apply Forall_forall.
  intros y Hy. apply Hall. apply list_elem_of_In, in_rev.
  by apply list_elem_of_In.
Qed.

Lemma spliceLoop_defined r ms st :
  spliceLoop r (map Some ms) st = Some (fold_left (spliceStep r) ms st).
Proof. revert st. induction ms as [|m ms IH]; intros st; simpl; [done|]. apply IH. Qed.

(** The slow path in closed form, for any choice [chosen] among the
    eligible matches that has no [undefined] element. *)
Lemma applySlowPath_chosen content change chosen :
  chosen `sublist_of` eligibleOf content change →
  (eligibleOf content change ≠ [] →
   selectMatches change (eligibleOf content change) = map Some chosen) →
  applySlowPath content change
  = Some (replaceMatches content 0 chosen (replaceText change),
          mkChangeResult (searchText change) (replaceText change)
            (length (allMatchesOf content change)) (length chosen)
            (match chosen with
             | [] => None
             | _ => Some (map index chosen)
             end)).
Proof.
  intros Hsub Hsel. unfold applySlowPath.
  rewrite buildPattern_patternOf. cbn [mbind option_bind].
  fold (allMatchesOf content change). fold (eligibleOf content change).
  assert ((if 0 <? length (eligibleOf content change)
           then spliceLoop (replaceText change)
                  (matchesToReplace change (eligibleOf content change))
                  (content, [], 0)
           else Some (content, [], 0))
          = Some (replaceMatches content 0 chosen (replaceText change),
                  map index chosen, length chosen)) as ->.
  { assert (separated (length content) 0 chosen) as Hsep.
    { eapply separated_sublist; [done|apply eligibleOf_separated]. }
    pose proof (splice_fold content (replaceText change) chosen 0 Hsep)
      as Hfold.
    rewrite take_0 in Hfold. simpl in Hfold.
    destruct (Nat.ltb_spec 0 (length (eligibleOf content change)))
      as [Hlt|Hle].
    - unfold matchesToReplace. rewrite Hsel by (by intros Hnil; rewrite Hnil in Hlt; simpl in Hlt; lia).
      rewrite Array_sort_defined, (sort_descending_rev index)
        by (by eapply separated_sorted).
      by rewrite spliceLoop_defined, Hfold.
    - apply sublist_length in Hsub.
      destruct chosen; [|simpl in Hsub; lia]. simpl. by rewrite drop_0. }
  cbn [mbind option_bind]. by destruct chosen.
Qed.

(** The choice of the code is either a choice among the eligible matches
    or the single [undefined] read past them. *)
Lemma selectMatches_cases change eligible :
  eligible ≠ [] →
  (∃ chosen, chosen `sublist_of` eligible
             ∧ selectMatches change eligible = map Some chosen)
  ∨ selectMatches change eligible = [None].
Proof.
  intros Hne. unfold selectMatches.
  destruct (_ || _); [left; by exists eligible|].
  assert (∃ chosen, chosen `sublist_of` eligible
                    ∧ [eligible !! 0] = map Some chosen) as Hfirst.
  { exists (take 1 eligible). split; [apply sublist_take|].
    by apply first_defined. }
  destruct (occurrence change) as [occ|],
    (default true (replaceAll change)); cbn [negb andb];
    try (left; by exists eligible); try (by left).
  destruct (gtb occ (ofNat 0)); [|by left].
  destruct (leb occ _);
    [|left; exists []; split; [apply sublist_nil_l|done]].
  pose proof (Array_get_sublist_of eligible (sub occ (ofNat 1))) as Hsub.
  destruct (Array_get eligible (sub occ (ofNat 1))) as [m|];
    [left; by exists [m]|by right].
Qed.

(** The slow path throws when the choice is [undefined]. *)
Lemma applySlowPath_undefined content change :
  eligibleOf content change ≠ [] →
  selectMatches change (eligibleOf content change) = [None] →
  applySlowPath content change = None.
Proof.
  intros Hne Hsel. unfold applySlowPath.
  rewrite buildPattern_patternOf. cbn [mbind option_bind].
  fold (allMatchesOf content change). fold (eligibleOf content change).
  unfold matchesToReplace. rewrite Hsel.
  by destruct (eligibleOf content change).
Qed.

(** What the slow path returns, when it returns: some of the eligible
    matches replaced. *)
Lemma applySlowPath_Some content change newContent result :
  applySlowPath content change = Some (newContent, result) →
  ∃ chosen,
    chosen `sublist_of` eligibleOf content change
    ∧ newContent = replaceMatches content 0 chosen (replaceText change)
    ∧ result
      = mkChangeResult (searchText change) (replaceText change)
          (length (allMatchesOf content change)) (length chosen)
          (match chosen with
           | [] => None
           | _ => Some (map index chosen)
           end).
Proof.
  intros Hslow.
  destruct (decide (eligibleOf content change = [])) as [Hnil|Hne].
  - exists []. split; [apply sublist_nil_l|].
    rewrite (applySlowPath_chosen content change []) in Hslow
      by (done || apply sublist_nil_l).
    by injection Hslow as <- <-.
  - destruct (selectMatches_cases change _ Hne)
      as [(chosen & Hsub & Hsel)|Hsel].
    + exists chosen. split; [done|].
      rewrite (applySlowPath_chosen content change chosen) in Hslow by done.
      by injection Hslow as <- <-.
    + by rewrite applySlowPath_undefined in Hslow.
Qed.

(** The matches in the order in which the loop splices them: the chosen
    ones, last first. *)
Lemma matchesToReplace_rev content change :
  wholeOccurrence change → eligibleOf content change ≠ [] →
  matchesToReplace change (eligibleOf content change)
  = map Some (rev (selectionAmended change (eligibleOf content change))).
Proof.
  intros Hwhole Hne. unfold matchesToReplace.
  rewrite selectMatches_amended, Array_sort_defined by done. f_equal.
  apply (sort_descending_rev index).
  eapply separated_sorted, separated_sublist;
    [apply selectionAmended_sublist|apply eligibleOf_separated].
Qed.

(** The slow path in closed form, when a positive occurrence is a whole
    number. *)
Lemma applySlowPath_eq content change :
  wholeOccurrence change →
  let chosen := selectionAmended change (eligibleOf content change) in
  applySlowPath content change
  = Some (replaceMatches content 0 chosen (replaceText change),
          mkChangeResult (searchText change) (replaceText change)
            (length (allMatchesOf content change)) (length chosen)
            (match chosen with
             | [] => None
             | _ => Some (map index chosen)
             end)).
Proof.
  intros Hwhole chosen. apply applySlowPath_chosen.
  - apply selectionAmended_sublist.
  - intros Hne. by apply selectMatches_amended.
Qed.

(** A whole number less one is a whole number, and conversely. *)
Lemma isInteger_pred q :
  isInteger (sub (Finite q) (ofNat 1)) = true → isInteger (Finite q) = true.
Proof.
  intros Hq%isInteger_Finite. cbn [isInteger]. apply Qeq_bool_iff.
  set (z := Qfloor (q + - inject_Z (Z.of_nat 1))) in *.
  assert (q == inject_Z (z + 1)) as Hz.
  { rewrite inject_Z_plus.
    apply (Qplus_inj_r _ _ (- inject_Z (Z.of_nat 1))).
    etrans; [exact Hq|]. change (inject_Z (Z.of_nat 1)) with 1%Q. ring. }
  by rewrite (Qfloor_comp _ _ Hz), Qfloor_Z.
Qed.

(** X9.  An occurrence that is positive, not above the number of eligible
    matches and not a whole number makes the slow path throw: the loop
    meets the [undefined] that [eligibleMatches[occurrence - 1]] is.  The
    exception ends [applySingleChange] and [applyChanges]. *)
Theorem fractional_occurrence_throws (content : jsstring) (change : Change)
    (occ : number) :
  replaceAll change = Some false →
  startIndex change = None → endIndex change = None →
  occurrence change = Some occ →
  gtb occ (ofNat 0) = true →
  leb occ (ofNat (length (eligibleOf content change))) = true →
  isInteger occ = false →
  applySlowPath content change = None
  ∧ applySingleChange content change = None
  ∧ ∀ rest, applyChanges content (change :: rest) = None.
Proof.
  intros Hall Hstart Hend Hocc Hgt Hle Hint.
  assert (applySlowPath content change = None) as Hslow.
  { assert (eligibleOf content change ≠ []) as Hne.
    { intros Hnil. rewrite Hnil in Hle. destruct occ as [q| | |]; try done.
      unfold gtb, ltb, leb, ofNat in Hgt, Hle. cbn [length] in Hle.
      by rewrite Hle in Hgt. }
    apply applySlowPath_undefined; [done|]. unfold selectMatches.
    rewrite Hstart, Hend, Hall, Hocc, Hgt, Hle.
    rewrite !(bool_decide_eq_false_2 (None ≠ None)) by (by intros []).
    cbn [orb default negb andb]. f_equal.
    destruct occ as [q| | |]; try done.
    destruct (isInteger (sub (Finite q) (ofNat 1))) eqn:Hpred.
    - apply isInteger_pred in Hpred. congruence.
    - unfold Array_get, sub, add, neg, ofNat in *. by rewrite Hpred. }
  assert (applySingleChange content change = None) as Hsingle.
  { unfold applySingleChange, usesAdvancedTargeting. rewrite Hall, Hocc.
    rewrite (bool_decide_eq_true_2 (Some false = Some false)) by done.
    rewrite (bool_decide_eq_true_2 (Some occ ≠ None)) by done.
    by rewrite !orb_true_r. }
  split_and!; [done..|].
  intros rest. unfold applyChanges. cbn [applyChanges_loop].
  by rewrite Hsingle.
Qed.

Lemma fractional_occurrence_throws_witness :
  let change :=
    mkChange (str "foo") (str "X") None None (Some false)
      (Some (Finite 1.5)) None None None None in
  gtb (Finite 1.5) (ofNat 0) = true
  ∧ leb (Finite 1.5) (ofNat (length (eligibleOf (str "foo bar foo") change)))
    = true
  ∧ isInteger (Finite 1.5) = false
  ∧ applySingleChange (str "foo bar foo") change = None.
Proof.
  intros change.
  assert (gtb (Finite 1.5) (ofNat 0) = true) as Hgt by reflexivity.
  assert (leb (Finite 1.5)
            (ofNat (length (eligibleOf (str "foo bar foo") change))) = true)
    as Hle by reflexivity.
  assert (isInteger (Finite 1.5) = false) as Hint by reflexivity.
  split; [exact Hgt|]. split; [exact Hle|]. split; [exact Hint|].
  exact (proj1 (proj2 (fractional_occurrence_throws (str "foo bar foo")
                         change (Finite 1.5) eq_refl eq_refl eq_refl
                         eq_refl Hgt Hle Hint))).
Defined.

(** ** The slow path *)

(** C4, amended.  On the slow path of a change whose occurrence, when given
    and positive, is a whole number, the matches replaced are: with a
    range, all eligible ones; else with [replaceAll = false] and a positive
    occurrence, the eligible match of that rank, none when the occurrence
    exceeds their number; else with [replaceAll = false] (no occurrence, or
    one that is not positive), the first eligible match; else all.  The
    loop splices them from the highest offset to the lowest, the result is
    the content with each of them replaced, and the returned positions are
    their offsets in ascending order. *)
Theorem slow_path_selection (content : jsstring) (change : Change) :
  wholeOccurrence change →
  let eligible := eligibleOf content change in
  let chosen := selectionAmended change eligible in
  applySlowPath content change
  = Some (replaceMatches content 0 chosen (replaceText change),
          mkChangeResult (searchText change) (replaceText change)
            (length (allMatchesOf content change)) (length chosen)
            (match chosen with
             | [] => None
             | _ => Some (map index chosen)
             end))
  ∧ (eligible ≠ [] →
     matchesToReplace change eligible = map Some (rev chosen))
  ∧ StronglySorted (λ a b, index b < index a) (rev chosen)
  ∧ StronglySorted lt (map index chosen).
Proof.
  intros Hwhole eligible chosen.
  assert (StronglySorted (λ a b, index a < index b) chosen) as Hsorted.
  { eapply separated_sorted, separated_sublist;
      [apply selectionAmended_sublist|apply eligibleOf_separated]. }
  split_and!.
  - by apply applySlowPath_eq.
  - by apply matchesToReplace_rev.
  - by apply StronglySorted_rev in Hsorted.
  - clear -Hsorted. induction Hsorted as [|m ms Hs IH Hall]; simpl;
      constructor; [done|].
    by apply Forall_fmap.
Qed.

Lemma slow_path_selection_witness :
  let change :=
    mkChange (str "foo") (str "qux") None None (Some false) (Some (ofNat 2))
      None None None None in
  wholeOccurrence change
  ∧ applySlowPath (str "foo bar foo baz foo") change
    = Some (str "foo bar qux baz foo",
            mkChangeResult (str "foo") (str "qux") 3 1 (Some [8])).
Proof.
  intros change.
  assert (wholeOccurrence change) as Hwhole.
  { intros occ Hocc _. injection Hocc as <-. reflexivity. }
  split; [exact Hwhole|].
  exact (proj1 (slow_path_selection (str "foo bar foo baz foo") change
                  Hwhole)).
Defined.

(** C4, as stated, fails: an occurrence of zero is out of range, so nothing
    should be replaced, but the slow path replaces the first match. *)
Lemma slow_path_occurrence_zero_counterexample :
  let change :=
    mkChange (str "foo") (str "X") None None (Some false) (Some (ofNat 0))
      None None None None in
  let content := str "foo bar foo" in
  usesAdvancedTargeting change = true
  ∧ selectionStated change (eligibleOf content change) = []
  ∧ applySlowPath content change
    = Some (str "X bar foo",
            mkChangeResult (str "foo") (str "X") 2 1 (Some [0])).
Proof. by vm_compute. Qed.

(** C9, amended.  A change with [replaceAll = false], an occurrence that is
    not positive and no range takes the slow path, and when there is an
    eligible match it replaces the first one and only that one. *)
Theorem nonpositive_occurrence_first (content : jsstring) (change : Change)
    (occ : number) :
  replaceAll change = Some false →
  occurrence change = Some occ → gtb occ (ofNat 0) = false →
  startIndex change = None → endIndex change = None →
  usesAdvancedTargeting change = true
  ∧ applySingleChange content change = applySlowPath content change
  ∧ ∀ m rest,
      eligibleOf content change = m :: rest →
      applySingleChange content change
      = Some (take (index m) content ++ replaceText change
                ++ drop (index m + mlength m) content,
              mkChangeResult (searchText change) (replaceText change)
                (length (allMatchesOf content change)) 1
                (Some [index m])).
Proof.
  intros Hall Hocc Hle Hstart Hend.
  assert (usesAdvancedTargeting change = true) as Hadv.
  { unfold usesAdvancedTargeting. rewrite Hall, Hocc.
    rewrite (bool_decide_eq_true_2 (Some false = Some false)) by done.
    rewrite (bool_decide_eq_true_2 (Some occ ≠ None)) by done.
    by rewrite !orb_true_r. }
  assert (applySingleChange content change = applySlowPath content change)
    as Hslow by (unfold applySingleChange; by rewrite Hadv).
  split_and!; [done..|].
  intros m rest Hel. rewrite Hslow, applySlowPath_eq
    by (intros occ' Hocc' Hgt; congruence).
  unfold selectionAmended, rangeGiven. rewrite Hstart, Hend, Hall, Hocc, Hel.
  rewrite !(bool_decide_eq_false_2 (None ≠ None)) by (by intros []).
  cbn [orb]. rewrite Hle.
  cbn [negb take replaceMatches map length].
  by rewrite Nat.sub_0_r, drop_0.
Qed.

Lemma nonpositive_occurrence_first_witness :
  let change :=
    mkChange (str "foo") (str "X") None None (Some false)
      (Some (Finite (-1))) None None None None in
  gtb (Finite (-1)) (ofNat 0) = false
  ∧ usesAdvancedTargeting change = true
  ∧ applySingleChange (str "foo bar foo") change
    = Some (str "X bar foo",
            mkChangeResult (str "foo") (str "X") 2 1 (Some [0])).
Proof.
  intros change.
  assert (gtb (Finite (-1)) (ofNat 0) = false) as Hle by reflexivity.
  pose proof (nonpositive_occurrence_first (str "foo bar foo") change
                (Finite (-1)) eq_refl eq_refl Hle eq_refl eq_refl)
    as (Hadv & _ & Hfirst).
  split; [exact Hle|]. split; [exact Hadv|].
  exact (Hfirst (mkMatch 0 3 (str "foo")) [mkMatch 8 3 (str "foo")] eq_refl).
Defined.

(** C9, as stated, fails: with a range given every eligible match in the
    range is replaced, also when [replaceAll = false] and the occurrence is
    not positive. *)
Lemma nonpositive_occurrence_range_counterexample :
  let change :=
    mkChange (str "foo") (str "X") None None (Some false) (Some (ofNat 0))
      (Some (ofNat 0)) None None None in
  replaceAll change = Some false
  ∧ occurrence change = Some (ofNat 0)
  ∧ applySingleChange (str "foo foo") change
    = Some (str "X X",
            mkChangeResult (str "foo") (str "X") 2 2 (Some [0; 4])).
Proof. by vm_compute. Qed.

(** ** Fast path against slow path *)

Lemma GetSubstitution_literal matched input position template :
  "$"%char ∉ template →
  GetSubstitution matched input position template = template.
Proof.
  induction template as [|c template IH]; [done|].
  intros [Hc Ht]%not_elem_of_cons. cbn [GetSubstitution].
  destruct (Ascii.eqb_spec c "$"); [done|]. by rewrite IH.
Qed.

Lemma replaceResults_replaceMatches input ms template pos :
  "$"%char ∉ template →
  separated (length input) pos (map toMatch ms) →
  replaceResults input ms template pos
  = replaceMatches input pos (map toMatch ms) template.
Proof.
  intros Ht. revert pos. induction ms as [|m ms IH]; intros pos.
  - intros _. simpl. apply substringFrom_drop.
  - cbn [map separated replaceResults replaceMatches]. unfold toMatch at 1 2.
    cbn [index mlength]. intros (Hlo & Hn & Hs).
    rewrite Nat.min_l by lia.
    destruct (Nat.leb_spec pos (m_index m)); [|lia].
    rewrite substring_take_drop, GetSubstitution_literal by done.
    rewrite IH; [done|].
    eapply separated_weaken; [|done]. apply (nextIndex_end (toMatch m)).
Qed.

(** When the replacement text has no dollar sign, replacing all matches on
    the fast path and on the slow path (no range, no context) gives the
    same content and the same counts. *)
Lemma fast_slow_agree content change :
  "$"%char ∉ replaceText change →
  default true (replaceAll change) = true →
  startIndex change = None → endIndex change = None →
  beforeContext change = None → afterContext change = None →
  ∃ newContent rf rs,
    applyFastPath content change = Some (newContent, rf)
    ∧ applySlowPath content change = Some (newContent, rs)
    ∧ matchesFound rf = matchesFound rs
    ∧ replacementsMade rf = replacementsMade rs.
Proof.
  intros Hdollar Hall Hstart Hend Hbefore Hafter.
  assert (eligibleOf content change = allMatchesOf content change) as Hel.
  { unfold eligibleOf, eligibleMatches.
    rewrite Hstart, Hend, Hbefore, Hafter.
    induction (allMatchesOf content change) as [|m ms IH]; [done|].
    rewrite filter_cons. destruct (decide _) as [|Hno]; [by f_equal|].
    by destruct Hno. }
  assert (selectMatches change (allMatchesOf content change)
          = map Some (allMatchesOf content change)) as Hsel.
  { unfold selectMatches. rewrite Hstart, Hend, Hall.
    rewrite !(bool_decide_eq_false_2 (None ≠ None)) by (by intros []).
    cbn [orb negb andb]. by destruct (occurrence change). }
  rewrite (applySlowPath_chosen content change (allMatchesOf content change))
    by (by rewrite Hel).
  pose proof (allMatchesOf_separated content change) as Hsep.
  rewrite allMatchesOf_execAll in *.
  unfold applyFastPath. rewrite buildPattern_patternOf, Hall.
  cbn [mbind option_bind]. unfold String_match, String_replace.
  cbn [global patternOf].
  destruct (execAll (S (S (length content))) (patternOf change) content 0)
    as [|m ms] eqn:Hms.
  - eexists _, _, _. cbn [length Nat.eqb]. split; [reflexivity|].
    cbn [map replaceMatches]. rewrite drop_0. by split_and!.
  - cbn [length map Nat.eqb].
    rewrite replaceResults_replaceMatches by done.
    eexists _, _, _. split; [reflexivity|]. split; [reflexivity|].
    cbn [matchesFound replacementsMade length]. by rewrite !length_map.
Qed.

(** C1: the code departs from the claim.  A replacement text of two dollar
    signs is inserted as it is by the slow path and as one dollar sign by
    the fast path, which hands it to [String.prototype.replace] as a
    replacement pattern. *)
Theorem fast_path_expands_dollar :
  let change :=
    mkChange (str "a") (str "$$") None None (Some true) None
      None None None None in
  usesAdvancedTargeting change = false
  ∧ applySingleChange (str "a") change = applyFastPath (str "a") change
  ∧ applyFastPath (str "a") change
    = Some (str "$", mkChangeResult (str "a") (str "$$") 1 1 None)
  ∧ applySlowPath (str "a") change
    = Some (str "$$", mkChangeResult (str "a") (str "$$") 1 1 (Some [0])).
Proof. by vm_compute. Qed.

(** ** The scenarios of the specification *)

Example scenario_replace_all :
  applySingleChange (str "foo bar foo baz foo")
    (simpleChange (str "foo") (str "qux"))
  = Some (str "qux bar qux baz qux",
          mkChangeResult (str "foo") (str "qux") 3 3 None).
Proof. by vm_compute. Qed.

Example scenario_second_occurrence :
  applySingleChange (str "foo bar foo baz foo")
    (mkChange (str "foo") (str "qux") None None (Some false) (Some (ofNat 2))
       None None None None)
  = Some (str "foo bar qux baz foo",
          mkChangeResult (str "foo") (str "qux") 3 1 (Some [8])).
Proof. by vm_compute. Qed.

(** A request with occurrence 1.5 passes the schema of the route (a number
    not below 1) and makes the engine throw. *)
Example scenario_fractional_occurrence :
  let change :=
    mkChange (str "foo") (str "X") None None (Some false)
      (Some (Finite 1.5)) None None None None in
  applySlowPath (str "foo bar foo") change = None
  ∧ applyChanges (str "foo bar foo") [change] = None.
Proof. by vm_compute. Qed.

Example scenario_range :
  applySingleChange (str "foo bar foo baz foo")
    (mkChange (str "foo") (str "XXX") None None None None
       (Some (ofNat 8)) (Some (ofNat 15)) None None)
  = Some (str "foo bar XXX baz foo",
          mkChangeResult (str "foo") (str "XXX") 3 1 (Some [8])).
Proof. by vm_compute. Qed.

End ChangeFacts.

(* ===================================================================== *)
(** * Matches of a change *)
(* ===================================================================== *)
Module MatchFacts.
Import JS JSFacts Regex ChangeService Specs RegexFacts ChangeFacts.

(** X1.  Escaping then parsing gives back the literal: no character of the
    search text is read as an operator, and the pattern of a change matches
    exactly where its search text occurs. *)
Theorem escapeRegex_literal :
  (∀ lit, parseSource (escapeRegex lit) = Some (map Lit lit))
  ∧ (∀ change, ∃ rx,
       buildPattern change = Some rx
       ∧ ∀ content i,
           matchAtoms (ignoreCase rx) (atoms rx) content i
           = if occursAt change content i
             then Some (i + length (searchText change)) else None).
Proof.
  split.
  - intros lit. rewrite <- (app_nil_r (escapeRegex lit)), parseSource_escape.
    simpl. by rewrite app_nil_r.
  - intros change. exists (patternOf change).
    split; [apply buildPattern_patternOf|]. apply matchAtoms_occursAt.
Qed.

Lemma searchFrom_before rx input k i m j :
  searchFrom rx input k i = Some m → i ≤ j < m_index m →
  matchAtoms (ignoreCase rx) (atoms rx) input j = None.
Proof.
  revert i. induction k as [|k IH]; intros i; simpl; [done|].
  destruct (matchAtoms (ignoreCase rx) (atoms rx) input i) as [e|] eqn:He.
  - intros [= <-]. simpl. lia.
  - intros Hs Hj. destruct (decide (j = i)) as [->|]; [done|].
    apply (IH (S i)); [done|lia].
Qed.

(** [exec] returns the first match from [lastIndex] on. *)
Lemma exec_before rx input lastIndex m lastIndex' j :
  global rx = true →
  exec rx input lastIndex = (Some m, lastIndex') →
  lastIndex ≤ j < m_index m →
  matchAtoms (ignoreCase rx) (atoms rx) input j = None.
Proof.
  intros Hg. unfold exec. rewrite Hg.
  destruct (Nat.ltb_spec (length input) lastIndex) as [|Hle]; [done|].
  destruct (searchFrom rx input (S (length input) - lastIndex) lastIndex)
    as [m'|] eqn:Hs; [|done].
  intros [= <- <-] Hj. by eapply searchFrom_before.
Qed.

Lemma execAll_matches rx input fuel lastIndex :
  global rx = true →
  Forall (λ m, matchAtoms (ignoreCase rx) (atoms rx) input (m_index m)
               = Some (m_index m + length (m_text m)))
    (execAll fuel rx input lastIndex).
Proof.
  intros Hg. revert lastIndex.
  induction fuel as [|fuel IH]; intros lastIndex; simpl; [constructor|].
  destruct (exec rx input lastIndex) as [[m|] li] eqn:He; [|constructor].
  apply exec_Some in He as (_ & -> & _ & _ & Hm); [|done].
  constructor; [done|apply IH].
Qed.

Lemma execAll_covers rx input fuel lastIndex i e :
  global rx = true →
  length input + 2 ≤ fuel + lastIndex →
  lastIndex ≤ i ≤ length input →
  matchAtoms (ignoreCase rx) (atoms rx) input i = Some e →
  ∃ m, m ∈ execAll fuel rx input lastIndex
       ∧ m_index m ≤ i < nextIndex (toMatch m).
Proof.
  intros Hg. revert lastIndex.
  induction fuel as [|fuel IH]; intros lastIndex Hfuel Hi Hmatch; [lia|].
  simpl. destruct (exec rx input lastIndex) as [[m|] li] eqn:He.
  - pose proof (exec_before _ _ _ _ _ i Hg He) as Hfirst.
    apply exec_Some in He as (Hlo & -> & Hhi & _); [|done].
    destruct (decide (i < m_index m)) as [Hlt|Hge].
    { rewrite Hfirst in Hmatch by lia. done. }
    destruct (decide (i < nextIndex (toMatch m))) as [Hin|Hout].
    { exists m. split; [left|lia]. }
    unfold nextIndex, toMatch in Hout. cbn [index mlength] in Hout.
    destruct (IH (if length (m_text m) =? 0
                  then S (m_index m + length (m_text m))
                  else m_index m + length (m_text m)))
      as (m' & Hm' & Hcover); [| |done|].
    + destruct (length (m_text m)); simpl; lia.
    + destruct (length (m_text m)); simpl in *; lia.
    + exists m'. split; [by right|done].
  - pose proof (exec_None rx input lastIndex i Hg) as Hnone.
    rewrite He in Hnone. rewrite Hnone in Hmatch by (simpl; done || lia).
    done.
Qed.

Lemma allMatchesOf_occurrences content change :
  Forall (λ m, occursAt change content (index m) = true
               ∧ mlength m = length (searchText change))
    (allMatchesOf content change).
Proof.
  rewrite allMatchesOf_execAll. apply Forall_fmap.
  eapply Forall_impl; [by apply (execAll_matches (patternOf change))|].
  intros m Hm. cbv beta in Hm. rewrite matchAtoms_occursAt in Hm.
  unfold compose. cbn [toMatch index mlength].
  destruct (occursAt change content (m_index m)); [|done].
  split; [done|]. injection Hm as Hm. lia.
Qed.

Lemma separated_texts content lo ms :
  spaced content lo ms →
  Forall (λ m, text m = take (mlength m) (drop (index m) content))
    (map toMatch ms).
Proof.
  revert lo. induction ms as [|m ms IH]; intros lo; simpl; [constructor|].
  intros (_ & _ & Ht & Hs). constructor; [done|by eapply IH].
Qed.

(** X2.  [findAllMatches] is sound: every match it lists is an occurrence of the
    search text, lies within the content and carries the text found there;
    and the matches are listed by increasing offset without overlap. *)
Theorem findAllMatches_sound (content : jsstring) (change : Change) :
  let ms := allMatchesOf content change in
  Forall (λ m, occursAt change content (index m) = true
               ∧ mlength m = length (searchText change)
               ∧ index m + mlength m ≤ length content
               ∧ text m = take (mlength m) (drop (index m) content)) ms
  ∧ StronglySorted
      (λ a b, index a < index b ∧ index a + mlength a ≤ index b) ms.
Proof.
  intros ms. split.
  - pose proof (allMatchesOf_occurrences content change) as Hocc.
    pose proof (allMatchesOf_separated content change) as Hsep.
    assert (Forall (λ m, text m = take (mlength m) (drop (index m) content))
              ms) as Htext.
    { unfold ms. rewrite allMatchesOf_execAll.
      eapply separated_texts. by apply execAll_spaced. }
    fold ms in Hocc, Hsep. clear -Hocc Hsep Htext.
    revert Hsep. generalize 0.
    induction ms as [|m ms IH]; intros lo Hsep; [constructor|].
    apply Forall_cons in Hocc as [[Ho Hl] Hocc].
    apply Forall_cons in Htext as [Ht Htext].
    destruct Hsep as (_ & Hn & Hsep). constructor; [done|by eapply IH].
  - pose proof (allMatchesOf_separated content change) as Hsep.
    fold ms in Hsep. revert Hsep. generalize 0.
    induction ms as [|m ms IH]; intros lo; simpl; [constructor|].
    intros (_ & _ & Hsep). constructor; [by eapply IH|].
    apply separated_lower in Hsep. eapply Forall_impl; [done|].
    intros y Hy. simpl in Hy.
    pose proof (nextIndex_gt m). pose proof (nextIndex_end m). lia.
Qed.

(** X3.  [findAllMatches] is complete up to overlap: an occurrence of the search
    text in the content either starts a listed match or begins inside the
    span of a listed match that starts before it. *)
Theorem findAllMatches_complete (content : jsstring) (change : Change)
    (i : nat) :
  i ≤ length content →
  occursAt change content i = true →
  ∃ m, m ∈ allMatchesOf content change
       ∧ index m ≤ i
       ∧ (i = index m ∨ i < index m + mlength m).
Proof.
  intros Hi Hocc.
  destruct (execAll_covers (patternOf change) content
              (S (S (length content))) 0 i
              (i + length (searchText change)))
    as (m & Hm & Hlo & Hhi); [done|lia|lia| |].
  { by rewrite matchAtoms_occursAt, Hocc. }
  exists (toMatch m). rewrite allMatchesOf_execAll.
  split; [by apply list_elem_of_fmap_2|]. split; [done|].
  unfold nextIndex in Hhi. cbn [toMatch index mlength] in *.
  destruct (length (m_text m)); simpl in Hhi; lia.
Qed.

Lemma findAllMatches_complete_witness :
  let change := simpleChange (str "aa") (str "b") in
  1 ≤ length (str "aaaa")
  ∧ occursAt change (str "aaaa") 1 = true
  ∧ ∃ m, m ∈ allMatchesOf (str "aaaa") change
         ∧ index m ≤ 1 ∧ (1 = index m ∨ 1 < index m + mlength m).
Proof.
  intros change.
  assert (1 ≤ length (str "aaaa")) as Hlen by (simpl; lia).
  assert (occursAt change (str "aaaa") 1 = true) as Hocc by reflexivity.
  split; [exact Hlen|]. split; [exact Hocc|].
  exact (findAllMatches_complete (str "aaaa") change 1 Hlen Hocc).
Defined.

End MatchFacts.

(* ===================================================================== *)
(** * Replacements and lengths *)
(* ===================================================================== *)
Module ReplaceFacts.
Import JS JSFacts Regex ChangeService Specs RegexFacts ChangeFacts.
Import MatchFacts.

(** ** The fast path with [replaceAll = false] *)

Lemma searchFrom_flags rx rx' input k i :
  atoms rx' = atoms rx → ignoreCase rx' = ignoreCase rx →
  searchFrom rx' input k i = searchFrom rx input k i.
Proof.
  intros Ha Hi. revert i. induction k as [|k IH]; intros i; simpl; [done|].
  by rewrite Ha, Hi, IH.
Qed.

Lemma execAll_head rx input m ms :
  global rx = true →
  execAll (S (S (length input))) rx input 0 = m :: ms →
  searchFrom rx input (S (length input)) 0 = Some m.
Proof.
  intros Hg. cbn [execAll]. unfold exec. rewrite Hg. cbn [Nat.ltb Nat.leb].
  rewrite Nat.sub_0_r.
  destruct (searchFrom rx input (S (length input)) 0); [|done].
  by intros [= <- _].
Qed.

Lemma execAll_nil rx input :
  global rx = true →
  execAll (S (S (length input))) rx input 0 = [] →
  searchFrom rx input (S (length input)) 0 = None.
Proof.
  intros Hg. cbn [execAll]. unfold exec. rewrite Hg. cbn [Nat.ltb Nat.leb].
  rewrite Nat.sub_0_r.
  by destruct (searchFrom rx input (S (length input)) 0).
Qed.

(** The fast path in closed form when the replacement text has no dollar
    sign. *)
Lemma applyFastPath_eq content change :
  "$"%char ∉ replaceText change →
  let ms := allMatchesOf content change in
  let chosen := if default true (replaceAll change) then ms else take 1 ms in
  applyFastPath content change
  = Some (replaceMatches content 0 chosen (replaceText change),
          mkChangeResult (searchText change) (replaceText change)
            (length ms) (length chosen) None).
Proof.
  intros Hdollar ms chosen.
  pose proof (allMatchesOf_separated content change) as Hsep.
  fold ms in Hsep. unfold chosen, ms in *. clear ms chosen.
  rewrite allMatchesOf_execAll in *.
  unfold applyFastPath. rewrite buildPattern_patternOf.
  cbn [mbind option_bind]. unfold String_match, String_replace.
  cbn [global patternOf source atoms ignoreCase].
  destruct (execAll (S (S (length content))) (patternOf change) content 0)
    as [|m ms] eqn:Hms.
  - cbn [length Nat.eqb map]. destruct (default true (replaceAll change));
      cbn [take replaceMatches length]; by rewrite drop_0.
  - cbn [length map Nat.eqb].
    destruct (default true (replaceAll change)).
    + rewrite replaceResults_replaceMatches by done.
      cbn [length map]. by rewrite !length_map.
    + apply execAll_head in Hms; [|done].
      unfold exec. cbn [global Nat.ltb Nat.leb]. rewrite Nat.sub_0_r.
      rewrite (searchFrom_flags (patternOf change)) by done. rewrite Hms.
      rewrite (replaceResults_replaceMatches content [m]) by
        (try done; destruct Hsep as (? & ? & _); by split_and!).
      cbn [length map take]. by rewrite !length_map.
Qed.

(** X4.  Replacing the first occurrence only, on the fast path: with
    [replaceAll = false], no occurrence, range or context, and a
    replacement text without dollar sign, [applySingleChange] replaces the
    first match and leaves the rest of the content as it is. *)
Theorem replace_first_only (content : jsstring) (change : Change) :
  "$"%char ∉ replaceText change →
  replaceAll change = Some false → occurrence change = None →
  startIndex change = None → endIndex change = None →
  beforeContext change = None → afterContext change = None →
  applySingleChange content change
  = Some (match allMatchesOf content change with
          | [] => content
          | m :: _ =>
              take (index m) content ++ replaceText change
                ++ drop (index m + mlength m) content
          end,
          mkChangeResult (searchText change) (replaceText change)
            (length (allMatchesOf content change))
            (match allMatchesOf content change with [] => 0 | _ => 1 end)
            None).
Proof.
  intros Hdollar Hall Hocc Hs He Hb Ha.
  unfold applySingleChange, usesAdvancedTargeting.
  rewrite Hocc, Hs, He, Hb, Ha.
  rewrite !(bool_decide_eq_false_2 (None ≠ None)) by (by intros []).
  cbn [orb andb negb]. rewrite andb_false_r. cbn [negb].
  rewrite applyFastPath_eq by done. rewrite Hall.
  destruct (allMatchesOf content change) as [|m ms]; simpl; [done|].
  by rewrite Nat.sub_0_r.
Qed.

Lemma replace_first_only_witness :
  applySingleChange (str "foo bar foo")
    (mkChange (str "foo") (str "qux") None None (Some false) None
       None None None None)
  = Some (str "qux bar foo",
          mkChangeResult (str "foo") (str "qux") 2 1 None).
Proof.
  assert ("$"%char ∉ str "qux") as Hd.
  { intros H. by repeat (apply elem_of_cons in H as [H|H]; [done|]);
      apply elem_of_nil in H. }
  exact (replace_first_only (str "foo bar foo")
           (mkChange (str "foo") (str "qux") None None (Some false) None
              None None None None) Hd eq_refl eq_refl eq_refl eq_refl
           eq_refl eq_refl).
Defined.

(** ** What a replacement does to the length *)

Lemma replaceMatches_length content pos ms r :
  pos ≤ length content →
  separated (length content) pos ms →
  length (replaceMatches content pos ms r) + sum_list (map mlength ms) + pos
  = length content + length ms * length r.
Proof.
  revert pos. induction ms as [|m ms IH]; intros pos Hpos.
  - intros _. simpl. rewrite length_drop. lia.
  - intros (Hlo & Hn & Hs).
    cbn [replaceMatches map sum_list length].
    rewrite !length_app, length_take, length_drop.
    assert (separated (length content) (index m + mlength m) ms) as Hs'
      by (eapply separated_weaken; [apply nextIndex_end|done]).
    specialize (IH (index m + mlength m) Hn Hs').
    change (id (mlength m)) with (mlength m).
    rewrite Nat.min_l by lia. lia.
Qed.

Lemma sum_mlength change content ms :
  Forall (λ m, occursAt change content (index m) = true
               ∧ mlength m = length (searchText change)) ms →
  sum_list (map mlength ms) = length ms * length (searchText change).
Proof.
  induction 1 as [|m ms [_ Hm] _ IH]; [done|].
  change (sum_list (map mlength (m :: ms)))
    with (mlength m + sum_list (map mlength ms)).
  rewrite Hm, IH. simpl. lia.
Qed.

Lemma Forall_sublist {A} (P : A → Prop) l1 l2 :
  l1 `sublist_of` l2 → Forall P l2 → Forall P l1.
Proof.
  intros Hsub Hall. apply Forall_forall. intros x Hx.
  rewrite Forall_forall in Hall. apply Hall.
  by eapply elem_of_sublist.
Qed.

Lemma eligibleOf_sublist content change :
  eligibleOf content change `sublist_of` allMatchesOf content change.
Proof. apply filter_sublist_of. Qed.

Lemma chosen_sublist content change :
  selectionAmended change (eligibleOf content change)
  `sublist_of` allMatchesOf content change.
Proof.
  etrans; [apply selectionAmended_sublist|apply eligibleOf_sublist].
Qed.

Lemma fast_chosen_sublist content change :
  (if default true (replaceAll change) then allMatchesOf content change
   else take 1 (allMatchesOf content change))
  `sublist_of` allMatchesOf content change.
Proof. destruct (default true (replaceAll change)); [done|apply sublist_take]. Qed.

(** Both paths in one closed form, for a replacement text without dollar
    sign: some of the matches, in order, are replaced from left to right. *)
Lemma applySingleChange_eq content change newContent result :
  "$"%char ∉ replaceText change ∨ usesAdvancedTargeting change = true →
  applySingleChange content change = Some (newContent, result) →
  ∃ chosen,
    chosen `sublist_of` allMatchesOf content change
    ∧ newContent = replaceMatches content 0 chosen (replaceText change)
    ∧ matchesFound result = length (allMatchesOf content change)
    ∧ replacementsMade result = length chosen.
Proof.
  intros Hcase. unfold applySingleChange.
  destruct (usesAdvancedTargeting change) eqn:Hadv; cbn [negb].
  - intros (chosen & Hsub & -> & ->)%applySlowPath_Some.
    exists chosen. split; [|done]. etrans; [done|apply eligibleOf_sublist].
  - destruct Hcase as [Hdollar|]; [|done].
    rewrite applyFastPath_eq by done. intros [= <- <-].
    eexists. split; [apply fast_chosen_sublist|]. done.
Qed.

(** X5.  Each replacement trades one occurrence of the search text for one copy
    of the replacement text: the lengths of the old and the new content
    differ by the number of replacements times the difference of the two
    lengths.  This holds on the slow path, and on the fast path when the
    replacement text has no dollar sign. *)
Theorem replacement_length (content : jsstring) (change : Change)
    (newContent : jsstring) (result : ChangeResult) :
  "$"%char ∉ replaceText change ∨ usesAdvancedTargeting change = true →
  applySingleChange content change = Some (newContent, result) →
  length newContent + replacementsMade result * length (searchText change)
  = length content + replacementsMade result * length (replaceText change)
  ∧ replacementsMade result ≤ matchesFound result.
Proof.
  intros Hcase Hres.
  destruct (applySingleChange_eq content change _ _ Hcase Hres)
    as (chosen & Hsub & -> & -> & ->).
  split; [|by apply sublist_length].
  pose proof (replaceMatches_length content 0 chosen (replaceText change))
    as Hlen.
  rewrite (sum_mlength change content) in Hlen.
  - rewrite <- Hlen; [lia|lia|].
    eapply separated_sublist; [done|apply allMatchesOf_separated].
  - eapply Forall_sublist; [done|apply allMatchesOf_occurrences].
Qed.

Lemma replacement_length_witness :
  let change :=
    mkChange (str "foo") (str "a longer text") None None None None
      (Some (ofNat 4)) None None None in
  usesAdvancedTargeting change = true
  ∧ applySingleChange (str "foo foo foo") change
    = Some (str "foo a longer text a longer text",
            mkChangeResult (str "foo") (str "a longer text") 3 2
              (Some [4; 8]))
  ∧ length (str "foo a longer text a longer text") + 2 * 3 = 11 + 2 * 13.
Proof.
  intros change.
  assert (usesAdvancedTargeting change = true) as Hadv by reflexivity.
  assert (applySingleChange (str "foo foo foo") change
          = Some (str "foo a longer text a longer text",
                  mkChangeResult (str "foo") (str "a longer text") 3 2
                    (Some [4; 8]))) as Heq by reflexivity.
  split; [exact Hadv|]. split; [exact Heq|].
  exact (proj1 (replacement_length (str "foo foo foo") change _ _
                  (or_intror Hadv) Heq)).
Defined.

End ReplaceFacts.

(* ===================================================================== *)
(** * Constraints and sequences of changes *)
(* ===================================================================== *)
Module BatchFacts.
Import JS JSFacts Regex ChangeService Specs RegexFacts ChangeFacts.
Import MatchFacts ReplaceFacts.

(** ** The slow path stays within the constraints *)

Lemma isInRange_true matchIndex matchLength startIndex endIndex :
  isInRange matchIndex matchLength startIndex endIndex = true →
  (∀ s, startIndex = Some s → ltb (ofNat matchIndex) s = false)
  ∧ (∀ e, endIndex = Some e →
          gtb (ofNat (matchIndex + matchLength)) e = false).
Proof.
  unfold isInRange.
  destruct startIndex as [s|], endIndex as [e|]; intros H; split;
    intros x [= <-] || (intros x Hx; discriminate Hx) || idtac.
  all: repeat match type of H with
       | context [ltb ?a ?b] => destruct (ltb a b) eqn:?
       | context [gtb ?a ?b] => destruct (gtb a b) eqn:?
       end; done.
Qed.

Lemma validateContext_true content matchIndex matchLength before after :
  validateContext content matchIndex matchLength before after = true →
  (∀ bc, before = Some bc → bc ≠ [] →
         ∃ pre, take matchIndex content = pre ++ bc)
  ∧ (∀ ac, after = Some ac → ac ≠ [] →
           ∃ post, drop (matchIndex + matchLength) content = ac ++ post).
Proof.
  unfold validateContext. intros H. split.
  - intros bc -> Hne. destruct bc as [|c bc]; [done|]. cbn [truthy] in H.
    destruct (Z.ltb_spec (Z.of_nat matchIndex - Z.of_nat (length (c :: bc))) 0)
      as [|Hge]; [done|].
    case_bool_decide as Hsub; [|done].
    exists (take (matchIndex - length (c :: bc)) content).
    rewrite <- Hsub at 2.
    replace (Z.to_nat (Z.of_nat matchIndex - Z.of_nat (length (c :: bc))))
      with (matchIndex - length (c :: bc)) by lia.
    rewrite substring_take_drop by lia. rewrite take_take_drop.
    f_equal. lia.
  - intros ac -> Hne. destruct ac as [|c ac]; [done|]. cbn [truthy] in H.
    destruct (negb _); [done|].
    destruct (Nat.ltb_spec (length content)
                (matchIndex + matchLength + length (c :: ac)))
      as [|Hle]; [done|].
    case_bool_decide as Hsub; [|done].
    exists (drop (length (c :: ac)) (drop (matchIndex + matchLength) content)).
    rewrite <- Hsub at 1. rewrite substring_take_drop by lia.
    replace (matchIndex + matchLength + length (c :: ac)
             - (matchIndex + matchLength)) with (length (c :: ac)) by lia.
    by rewrite take_drop.
Qed.

Lemma eligibleOf_constraints content change :
  Forall (λ m, occursAt change content (index m) = true
               ∧ withinConstraints change content (index m))
    (eligibleOf content change).
Proof.
  apply Forall_forall. intros m Hm.
  apply list_elem_of_filter in Hm as [Hok Hm].
  pose proof (allMatchesOf_occurrences content change) as Hocc.
  rewrite Forall_forall in Hocc. destruct (Hocc m Hm) as [Ho Hlen].
  split; [done|].
  apply andb_true_iff in Hok as [Hrange Hctx].
  apply isInRange_true in Hrange as [Hs He].
  apply validateContext_true in Hctx as [Hb Ha].
  rewrite Hlen in *. by split_and!.
Qed.

(** X6.  The slow path replaces only where it may: every reported position is
    an offset of the original content where the search text occurs, within
    the given range, and next to the given context texts; the positions
    increase and there is one per replacement. *)
Theorem slow_path_respects_constraints (content : jsstring)
    (change : Change) (newContent : jsstring) (result : ChangeResult) :
  applySlowPath content change = Some (newContent, result) →
  let ps := default [] (positions result) in
  Forall (λ p, occursAt change content p = true
               ∧ withinConstraints change content p) ps
  ∧ StronglySorted lt ps
  ∧ length ps = replacementsMade result
  ∧ replacementsMade result ≤ matchesFound result.
Proof.
  intros (chosen & Hsub & -> & ->)%applySlowPath_Some.
  cbn [positions replacementsMade matchesFound].
  assert (default [] (match chosen with
                      | [] => None
                      | _ => Some (map index chosen)
                      end) = map index chosen) as -> by (by destruct chosen).
  cbv zeta. split_and!.
  - apply Forall_fmap. eapply Forall_sublist;
      [done|apply eligibleOf_constraints].
  - assert (StronglySorted (λ a b, index a < index b) chosen) as Hsorted.
    { eapply separated_sorted, separated_sublist;
        [done|apply eligibleOf_separated]. }
    clear -Hsorted. induction Hsorted as [|m ms Hs IH Hall]; simpl;
      constructor; [done|]. by apply Forall_fmap.
  - by rewrite length_map.
  - apply sublist_length. etrans; [done|apply eligibleOf_sublist].
Qed.

Lemma slow_path_respects_constraints_witness :
  let change :=
    mkChange (str "foo") (str "bar") None None None None
      (Some (ofNat 10)) (Some (Finite 25.5)) (Some (str "the ")) None in
  applySlowPath (str "the foo and the foo and the foo") change
  = Some (str "the foo and the bar and the foo",
          mkChangeResult (str "foo") (str "bar") 3 1 (Some [16]))
  ∧ Forall (λ p, occursAt change (str "the foo and the foo and the foo") p
                 = true
                 ∧ withinConstraints change
                     (str "the foo and the foo and the foo") p) [16].
Proof.
  intros change.
  assert (applySlowPath (str "the foo and the foo and the foo") change
          = Some (str "the foo and the bar and the foo",
                  mkChangeResult (str "foo") (str "bar") 3 1 (Some [16])))
    as Heq by reflexivity.
  split; [exact Heq|].
  exact (proj1 (slow_path_respects_constraints _ change _ _ Heq)).
Defined.

(** ** Sequences of changes *)

Lemma applySingleChange_total content change :
  wholeOccurrence change →
  ∃ newContent result,
    applySingleChange content change = Some (newContent, result)
    ∧ r_searchText result = searchText change
    ∧ r_replaceText result = replaceText change
    ∧ (replacementsMade result = 0 → newContent = content).
Proof.
  intros Hwhole. unfold applySingleChange.
  destruct (usesAdvancedTargeting change); cbn [negb].
  - rewrite applySlowPath_eq by done. eexists _, _. split; [reflexivity|].
    cbn. split_and!; [done..|].
    intros Hzero. by destruct (selectionAmended _ _).
  - unfold applyFastPath. rewrite buildPattern_patternOf.
    cbn [mbind option_bind].
    destruct (String_match content (patternOf change)) as [[|m ms]|];
      cbn [length Nat.eqb].
    + eexists _, _. by split_and!.
    + destruct (default true (replaceAll change));
        eexists _, _; (split; [reflexivity|]); by split_and!.
    + eexists _, _. by split_and!.
Qed.

Lemma applyChanges_loop_acc content changes results total :
  applyChanges_loop content changes results total
  = (λ '(c, rs, t), (c, results ++ rs, total + t))
      <$> applyChanges_loop content changes [] 0.
Proof.
  revert content results total.
  induction changes as [|change changes IH]; intros content results total.
  - simpl. by rewrite app_nil_r, Nat.add_0_r.
  - cbn [applyChanges_loop].
    destruct (applySingleChange content change) as [[nc r]|]; [|done].
    cbn [mbind option_bind]. rewrite IH. symmetry. rewrite IH.
    destruct (applyChanges_loop nc changes [] 0) as [[[c rs] t]|]; [|done].
    cbn. by rewrite <- app_assoc, Nat.add_assoc.
Qed.

(** X7.  [applyChanges] on two lists in a row is [applyChanges] on the first,
    then on the second from the content the first left, with the results
    appended and the totals added. *)
Theorem applyChanges_app (content : jsstring) (cs1 cs2 : list Change) :
  applyChanges content (cs1 ++ cs2)
  = '(c1, rs1, t1) ← applyChanges content cs1;
    '(c2, rs2, t2) ← applyChanges c1 cs2;
    Some (c2, rs1 ++ rs2, t1 + t2).
Proof.
  unfold applyChanges. revert content.
  induction cs1 as [|change cs1 IH]; intros content.
  - cbn [app applyChanges_loop mbind option_bind].
    by destruct (applyChanges_loop content cs2 [] 0) as [[[c rs] t]|].
  - cbn [app applyChanges_loop].
    destruct (applySingleChange content change) as [[nc r]|]; [|done].
    cbn [mbind option_bind].
    match goal with
    | |- applyChanges_loop _ _ ?rs0 ?t0 = _ =>
        rewrite (applyChanges_loop_acc nc (cs1 ++ cs2) rs0 t0), IH,
          (applyChanges_loop_acc nc cs1 rs0 t0)
    end.
    destruct (applyChanges_loop nc cs1 [] 0) as [[[c1 rs1] t1]|]; [|done].
    cbn [fmap option_fmap option_map mbind option_bind].
    destruct (applyChanges_loop c1 cs2 [] 0) as [[[c2 rs2] t2]|]; [|done].
    simpl. by rewrite Nat.add_assoc.
Qed.


(** X8.  When every positive occurrence among the changes is a whole number,
    [applyChanges] returns: one result per change, in order, each naming
    the texts of its change; the total is the sum of the replacement
    counts; and when the total is zero the content comes back unchanged. *)
Theorem applyChanges_results (content : jsstring) (changes : list Change) :
  Forall wholeOccurrence changes →
  ∃ newContent results total,
    applyChanges content changes = Some (newContent, results, total)
    ∧ Forall2 (λ change result,
                 r_searchText result = searchText change
                 ∧ r_replaceText result = replaceText change)
        changes results
    ∧ total = sumReplacements results
    ∧ (total = 0 → newContent = content).
Proof.
  unfold applyChanges. intros Hwhole. revert content.
  induction Hwhole as [|change changes Hchange _ IH]; intros content.
  - eexists _, _, _. split; [reflexivity|]. by split_and!; [constructor|..].
  - cbn [applyChanges_loop].
    destruct (applySingleChange_total content change Hchange)
      as (nc & r & -> & Hs & Hr & Hzero).
    cbn [mbind option_bind]. rewrite applyChanges_loop_acc.
    destruct (IH nc) as (c & rs & t & -> & Hall & -> & Hz).
    eexists _, _, _. split; [reflexivity|]. split_and!.
    + by constructor.
    + unfold sumReplacements. simpl. lia.
    + intros Htot. rewrite Hz by lia. apply Hzero. lia.
Qed.

Lemma applyChanges_results_witness :
  let changes :=
    [simpleChange (str "foo") (str "bar");
     mkChange (str "bar") (str "baz") None None (Some false)
       (Some (ofNat 2)) None None None None] in
  Forall wholeOccurrence changes
  ∧ ∃ newContent results total,
      applyChanges (str "foo bar") changes
      = Some (newContent, results, total)
      ∧ total = sumReplacements results.
Proof.
  intros changes.
  assert (Forall wholeOccurrence changes) as Hwhole.
  { repeat constructor.
    - intros occ Hocc. discriminate Hocc.
    - intros occ Hocc _. injection Hocc as <-. reflexivity. }
  split; [exact Hwhole|].
  destruct (applyChanges_results (str "foo bar") changes Hwhole)
    as (newContent & results & total & Heq & _ & Hsum & _).
  exists newContent, results, total. split; [exact Heq|exact Hsum].
Defined.

End BatchFacts.

(* ===================================================================== *)
(** * Stored documents and the intersection *)
(* ===================================================================== *)
Module StoreFacts.
Import JS JSFacts Storage Specs LookupFacts IndexFacts.

(** ** Documents keep their metadata in step with their content *)

Lemma DocWellFormed_reachable s :
  reachable s → ∀ d doc, documents s !! d = Some doc → DocWellFormed doc.
Proof.
  induction 1 as [|s input uuid now _ IH Hfresh|s docId updates now _ IH
                  |s docId patch now _ IH|s docId _ IH]; intros d x.
  - simpl. by rewrite lookup_empty.
  - simpl. destruct (decide (uuid = d)) as [->|Hne].
    + rewrite lookup_insert_eq. intros [= <-]. by split_and!.
    + rewrite lookup_insert_ne by done. apply IH.
  - unfold updateDocument.
    destruct (documents s !! docId) as [doc|] eqn:Hdoc; [|apply IH].
    simpl. destruct (decide (docId = d)) as [->|Hne].
    + rewrite lookup_insert_eq. intros [= <-].
      destruct (IH _ _ Hdoc) as (Hw & Hc & Hv).
      unfold DocWellFormed in *.
      destruct (u_title updates), (u_content updates); simpl;
        split_and!; first [done|lia].
    + rewrite lookup_insert_ne by done. apply IH.
  - unfold patchDocument.
    destruct (documents s !! docId) as [doc|] eqn:Hdoc; [|apply IH].
    simpl. destruct (decide (docId = d)) as [->|Hne].
    + rewrite lookup_insert_eq. intros [= <-].
      destruct (IH _ _ Hdoc) as (Hw & Hc & Hv).
      unfold DocWellFormed in *.
      destruct (p_title patch), (p_author patch), (p_tags patch); simpl;
        split_and!; first [done|lia].
    + rewrite lookup_insert_ne by done. apply IH.
  - unfold deleteDocument.
    destruct (documents s !! docId) as [doc|] eqn:Hdoc; [|apply IH].
    simpl. destruct (decide (docId = d)) as [->|Hne].
    + by rewrite lookup_delete_eq.
    + rewrite lookup_delete_ne by done. apply IH.
Qed.

(** X10.  In every state of the store a document is filed under its own
    identifier, its word and character counts are those of its content, and
    its version is at least one. *)
Theorem stored_documents_well_formed (s : Store) (d : jsstring)
    (doc : Document) :
  reachable s → getDocument d s = Some doc →
  id doc = d
  ∧ wordCount (metadata doc) = length (extractWords (content doc))
  ∧ characterCount (metadata doc) = length (content doc)
  ∧ 1 ≤ version doc.
Proof.
  intros Hs Hdoc. split.
  - by apply (proj1 (reachable_Consistent s Hs)).
  - by apply (DocWellFormed_reachable s Hs d).
Qed.

Lemma stored_documents_well_formed_witness :
  let s := (updateDocument (str "id-1")
              (mkUpdates None (Some (str "one two  three")))
              (str "2024-01-04T00:00:00.000Z") store3).1 in
  reachable s
  ∧ ∃ doc, getDocument (str "id-1") s = Some doc
           ∧ wordCount (metadata doc) = 3 ∧ version doc = 2.
Proof.
  intros s.
  assert (reachable s) as Hs.
  { apply reach_update.
    repeat (apply reach_create; [|reflexivity]). apply reach_empty. }
  split; [exact Hs|]. eexists. split; [reflexivity|].
  pose proof (stored_documents_well_formed s (str "id-1") _ Hs eq_refl)
    as (_ & Hw & _ & _).
  split; [exact Hw|reflexivity].
Defined.

(** ** The intersection is exact *)

Lemma intersectLoop_complete result lists d :
  d ∈ result → (∀ l, l ∈ lists → d ∈ l) → d ∈ intersectLoop result lists.
Proof.
  revert result. induction lists as [|nextSet rest IH]; intros result Hd Hall;
    simpl; [done|].
  destruct (0 <? length result); [|done].
  apply IH.
  - apply list_elem_of_filter. split; [|done].
    unfold Set_has. apply bool_decide_eq_true. apply Hall. left.
  - intros l Hl. apply Hall. by right.
Qed.

Lemma nonEmptyPosting_elem s w d :
  d ∈ findDocumentsByWord w s →
  nonEmptyPosting s w = Some (findDocumentsByWord w s).
Proof.
  unfold nonEmptyPosting, findDocumentsByWord.
  destruct (wordIndex s !! toLowerCase w) as [set|];
    [|by intros ?%elem_of_nil].
  destruct set; [by intros ?%elem_of_nil|done].
Qed.

Lemma omap_all_Some {A B} (f : A → option B) l :
  (∀ x, x ∈ l → is_Some (f x)) → length (omap f l) = length l.
Proof.
  induction l as [|x l IH]; intros Hall; [done|]. csimpl.
  destruct (Hall x) as [y ->]; [left|]. simpl. f_equal.
  apply IH. intros z Hz. apply Hall. by right.
Qed.

(** X11.  [findDocumentsByWords] returns exactly the identifiers that
    [findDocumentsByWord] returns for every one of the words; for no word it
    returns nothing. *)
Theorem findDocumentsByWords_exact (words : list jsstring) (s : Store)
    (d : jsstring) :
  d ∈ findDocumentsByWords words s
  ↔ words ≠ [] ∧ ∀ w, w ∈ words → d ∈ findDocumentsByWord w s.
Proof.
  split.
  - intros Hd. split.
    + intros ->. by apply elem_of_nil in Hd.
    + intros w Hw. by eapply findDocumentsByWords_sound.
  - intros [Hne Hall]. unfold findDocumentsByWords.
    destruct words as [|w1 [|w2 ws]]; [done| |].
    + apply Hall. left.
    + fold (nonEmptyPosting s).
      remember (w1 :: w2 :: ws) as words eqn:Hwords.
      assert (length (omap (nonEmptyPosting s) words) = length words) as Hlen.
      { apply omap_all_Some. intros w Hw.
        rewrite (nonEmptyPosting_elem s w d) by auto. by eexists. }
      rewrite Hlen, Nat.eqb_refl. cbn [negb].
      set (cmp := λ a b : list jsstring,
                    (Z.of_nat (length a) - Z.of_nat (length b))%Z).
      pose proof (sort_perm cmp (omap (nonEmptyPosting s) words)) as Hperm.
      assert (∀ l, l ∈ sort cmp (omap (nonEmptyPosting s) words) → d ∈ l)
        as Hin.
      { intros l Hl. rewrite Hperm in Hl.
        apply list_elem_of_omap in Hl as (w & Hw & Hp).
        rewrite (nonEmptyPosting_elem s w d) in Hp by auto.
        injection Hp as <-. auto. }
      destruct (sort cmp (omap (nonEmptyPosting s) words)) as [|first rest].
      * apply Permutation_nil_l in Hperm.
        pose proof (f_equal length Hperm) as Hl. rewrite Hlen, Hwords in Hl.
        discriminate Hl.
      * apply intersectLoop_complete.
        -- apply Set_from_elem, Hin. left.
        -- intros l Hl. apply Hin. by right.
Qed.

End StoreFacts.

(* ===================================================================== *)
(** * Posting sets *)
(* ===================================================================== *)
Module PostingFacts.
Import JS JSFacts Storage Specs LookupFacts IndexFacts StoreFacts.

(** ** Posting sets have no repetition *)

Lemma NoDup_indexWord d idx w :
  NoDupPostings idx → NoDupPostings (indexWord d idx w).
Proof.
  intros Hnd t l. unfold indexWord.
  destruct (idx !! w) as [l0|] eqn:Hw.
  - rewrite Hw. destruct (decide (t = w)) as [->|Htw].
    + rewrite lookup_insert_eq. intros [= <-]. by eapply Set_add_NoDup, Hnd.
    + rewrite lookup_insert_ne by done. apply Hnd.
  - rewrite lookup_insert_eq. destruct (decide (t = w)) as [->|Htw].
    + rewrite lookup_insert_eq. intros [= <-]. apply Set_add_NoDup.
      constructor.
    + rewrite !lookup_insert_ne by done. apply Hnd.
Qed.

Lemma NoDup_unindexWord d idx w :
  NoDupPostings idx → NoDupPostings (unindexWord d idx w).
Proof.
  intros Hnd t l. unfold unindexWord.
  destruct (idx !! w) as [l0|] eqn:Hw; [|apply Hnd]. cbv zeta.
  destruct (length (Set_delete l0 d) =? 0).
  - destruct (decide (t = w)) as [->|Htw].
    + by rewrite lookup_delete_eq.
    + rewrite lookup_delete_ne by done. apply Hnd.
  - destruct (decide (t = w)) as [->|Htw].
    + rewrite lookup_insert_eq. intros [= <-].
      by eapply Set_delete_NoDup, Hnd.
    + rewrite lookup_insert_ne by done. apply Hnd.
Qed.

Lemma NoDup_indexDocument doc idx :
  NoDupPostings idx → NoDupPostings (indexDocument doc idx).
Proof.
  unfold indexDocument. generalize (docWords doc). intros ws. revert idx.
  induction ws as [|w ws IH]; intros idx H; simpl; [done|].
  by apply IH, NoDup_indexWord.
Qed.

Lemma NoDup_removeFromIndex doc idx :
  NoDupPostings idx → NoDupPostings (removeFromIndex doc idx).
Proof.
  unfold removeFromIndex. generalize (docWords doc). intros ws. revert idx.
  induction ws as [|w ws IH]; intros idx H; simpl; [done|].
  by apply IH, NoDup_unindexWord.
Qed.

Lemma NoDupPostings_reachable s : reachable s → NoDupPostings (wordIndex s).
Proof.
  induction 1 as [|s input uuid now _ IH Hfresh|s docId updates now _ IH
                  |s docId patch now _ IH|s docId _ IH].
  - intros t l. simpl. by rewrite lookup_empty.
  - simpl. by apply NoDup_indexDocument.
  - unfold updateDocument. destruct (documents s !! docId); [|done].
    simpl. by apply NoDup_indexDocument, NoDup_removeFromIndex.
  - unfold patchDocument. destruct (documents s !! docId); [|done].
    simpl. destruct (match p_title patch with
                     | Some t => bool_decide (t ≠ title d)
                     | None => false
                     end); [|done].
    by apply NoDup_indexDocument, NoDup_removeFromIndex.
  - unfold deleteDocument. destruct (documents s !! docId); [|done].
    simpl. by apply NoDup_removeFromIndex.
Qed.

Lemma toLowerChar_idemp c : toLowerChar (toLowerChar c) = toLowerChar c.
Proof. by destruct c as [[] [] [] [] [] [] [] []]. Qed.

Lemma toLowerCase_idemp w : toLowerCase (toLowerCase w) = toLowerCase w.
Proof.
  unfold toLowerCase. rewrite <- list_fmap_compose.
  apply list_fmap_ext. intros _ c _. apply toLowerChar_idemp.
Qed.

(** X12.  [findDocumentsByWord] in any state of the store: it ignores the case of
    the word, lists no identifier twice, and lists exactly the identifiers
    of the stored documents that have the lower-cased word in their title
    or content. *)
Theorem findDocumentsByWord_exact (s : Store) (w : jsstring) :
  reachable s →
  findDocumentsByWord (toLowerCase w) s = findDocumentsByWord w s
  ∧ NoDup (findDocumentsByWord w s)
  ∧ ∀ d, d ∈ findDocumentsByWord w s
         ↔ ∃ doc, getDocument d s = Some doc ∧ hasWord doc (toLowerCase w).
Proof.
  intros Hs. split_and!.
  - unfold findDocumentsByWord. by rewrite toLowerCase_idemp.
  - unfold findDocumentsByWord.
    destruct (wordIndex s !! toLowerCase w) as [l|] eqn:Hl; [|constructor].
    by eapply NoDupPostings_reachable.
  - intros d.
    rewrite <- (Consistent_posting s (toLowerCase w) d)
      by (by apply reachable_Consistent).
    unfold findDocumentsByWord, posting.
    by destruct (wordIndex s !! toLowerCase w).
Qed.

Lemma findDocumentsByWord_exact_witness :
  reachable store3
  ∧ findDocumentsByWord (str "HELLO") store3 = [str "id-1"; str "id-2"]
  ∧ NoDup (findDocumentsByWord (str "HELLO") store3).
Proof.
  assert (reachable store3) as Hs.
  { repeat (apply reach_create; [|reflexivity]). apply reach_empty. }
  split; [exact Hs|]. split; [reflexivity|].
  exact (proj1 (proj2 (findDocumentsByWord_exact store3 (str "HELLO") Hs))).
Defined.

(** ** Counting postings *)

Lemma mapSum_insert {V} (g : V → nat) (m : gmap jsstring V) i x :
  m !! i = None → mapSum g (<[i:=x]> m) = mapSum g m + g x.
Proof.
  intros Hi. unfold mapSum. rewrite map_fold_insert_L; [done| |done].
  intros. lia.
Qed.

Lemma mapSum_delete {V} (g : V → nat) (m : gmap jsstring V) i x :
  m !! i = Some x → mapSum g m = mapSum g (delete i m) + g x.
Proof.
  intros Hi. unfold mapSum. rewrite (map_fold_delete_L _ _ i x m); [done| |done].
  intros. lia.
Qed.

Lemma mapSum_replace {V} (g : V → nat) (m : gmap jsstring V) i x y :
  m !! i = Some x → mapSum g (<[i:=y]> m) + g x = mapSum g m + g y.
Proof.
  intros Hi. rewrite <- insert_delete_eq.
  rewrite mapSum_insert by apply lookup_delete_eq.
  rewrite (mapSum_delete g m i x Hi). lia.
Qed.

Lemma length_Set_delete l d :
  NoDup l → d ∈ l → length (Set_delete l d) + 1 = length l.
Proof.
  unfold Set_delete. induction 1 as [|x l Hx Hnd IH]; intros Hd.
  - by apply elem_of_nil in Hd.
  - rewrite filter_cons. destruct (decide (x ≠ d)) as [Hne|Heq].
    + apply elem_of_cons in Hd as [->|Hd]; [done|]. simpl.
      rewrite IH by done. lia.
    + apply dec_stable in Heq as ->. simpl.
      assert (filter (λ y, y ≠ d) l = l) as ->; [|lia].
      clear -Hx. induction l as [|y l IH]; [done|].
      rewrite filter_cons. apply not_elem_of_cons in Hx as [Hne Hx].
      destruct (decide (y ≠ d)); [by rewrite IH|done].
Qed.

Lemma total_indexWord d idx w :
  d ∉ posting idx w →
  mapSum length (indexWord d idx w) = mapSum length idx + 1.
Proof.
  unfold posting, indexWord. intros Hd.
  destruct (idx !! w) as [l|] eqn:Hw; simpl in Hd.
  - rewrite Hw. unfold Set_add, Set_has.
    rewrite bool_decide_eq_false_2 by done.
    pose proof (mapSum_replace length idx w l (l ++ [d]) Hw) as H.
    rewrite length_app in H. simpl in H. lia.
  - rewrite lookup_insert_eq, insert_insert_eq.
    by rewrite mapSum_insert.
Qed.

Lemma total_unindexWord d idx w :
  NoDupPostings idx → d ∈ posting idx w →
  mapSum length (unindexWord d idx w) + 1 = mapSum length idx.
Proof.
  unfold posting, unindexWord. intros Hnd Hd.
  destruct (idx !! w) as [l|] eqn:Hw; simpl in Hd;
    [|by apply elem_of_nil in Hd].
  pose proof (length_Set_delete l d (Hnd _ _ Hw) Hd) as Hlen. cbv zeta.
  destruct (Nat.eqb_spec (length (Set_delete l d)) 0) as [Hz|Hnz].
  - rewrite (mapSum_delete length idx w l Hw). lia.
  - pose proof (mapSum_replace length idx w l (Set_delete l d) Hw). lia.
Qed.

Lemma total_index_words d ws idx :
  NoDup ws → (∀ w, w ∈ ws → d ∉ posting idx w) →
  mapSum length (fold_left (indexWord d) ws idx)
  = mapSum length idx + length ws.
Proof.
  intros Hnd. revert idx. induction Hnd as [|w ws Hw Hnd IH]; intros idx Hall.
  - simpl. lia.
  - simpl. rewrite IH.
    + rewrite total_indexWord by (apply Hall; left). lia.
    + intros w' Hw'. rewrite posting_indexWord.
      destruct (decide (w' = w)) as [->|]; [done|]. apply Hall. by right.
Qed.

Lemma total_unindex_words d ws idx :
  NoDup ws → NoDupPostings idx → (∀ w, w ∈ ws → d ∈ posting idx w) →
  mapSum length (fold_left (unindexWord d) ws idx) + length ws
  = mapSum length idx.
Proof.
  intros Hnd. revert idx.
  induction Hnd as [|w ws Hw Hnd IH]; intros idx Hidx Hall.
  - simpl. lia.
  - simpl. rewrite <- (total_unindexWord d idx w) by (auto; apply Hall; left).
    rewrite <- (IH (unindexWord d idx w)).
    + lia.
    + by apply NoDup_unindexWord.
    + intros w' Hw'. rewrite posting_unindexWord.
      destruct (decide (w' = w)) as [->|]; [done|]. apply Hall. by right.
Qed.

Lemma docWords_NoDup doc : NoDup (docWords doc).
Proof. apply Set_from_NoDup. Qed.

Lemma total_removeFromIndex s docId doc :
  Consistent s → NoDupPostings (wordIndex s) →
  documents s !! docId = Some doc →
  mapSum length (removeFromIndex doc (wordIndex s)) + length (docWords doc)
  = mapSum length (wordIndex s).
Proof.
  intros Hs Hnd Hdoc. unfold removeFromIndex.
  apply total_unindex_words; [apply docWords_NoDup|done|].
  intros w Hw. apply (Consistent_posting s); [done|].
  rewrite (proj1 Hs _ _ Hdoc). exists doc. split; [done|].
  by apply docWords_elem.
Qed.

Lemma total_indexDocument_absent doc idx :
  (∀ t, id doc ∉ posting idx t) →
  mapSum length (indexDocument doc idx)
  = mapSum length idx + length (docWords doc).
Proof.
  intros Habs. unfold indexDocument.
  apply total_index_words; [apply docWords_NoDup|auto].
Qed.

Lemma removeFromIndex_absent s docId doc t :
  Consistent s → documents s !! docId = Some doc →
  docId ∉ posting (removeFromIndex doc (wordIndex s)) t.
Proof.
  intros Hs Hdoc. rewrite posting_removeFromIndex.
  rewrite (Consistent_posting s) by done.
  rewrite (proj1 Hs _ _ Hdoc).
  intros [(x & Hx & Hw) Hnot]. rewrite Hdoc in Hx. injection Hx as <-.
  tauto.
Qed.

Lemma Tally_reindex s docId doc doc' :
  Consistent s → NoDupPostings (wordIndex s) → Tally s →
  documents s !! docId = Some doc → id doc' = id doc →
  Tally (mkStore (<[docId := doc']> (documents s))
           (indexDocument doc' (removeFromIndex doc (wordIndex s)))).
Proof.
  intros Hs Hnd Ht Hdoc Hid. unfold Tally in *. simpl.
  rewrite total_indexDocument_absent.
  - pose proof (total_removeFromIndex s docId doc Hs Hnd Hdoc).
    pose proof (mapSum_replace (λ doc, length (docWords doc)) (documents s)
                  docId doc doc' Hdoc). simpl in *. lia.
  - intros t. rewrite Hid, (proj1 Hs _ _ Hdoc).
    by apply (removeFromIndex_absent s docId doc).
Qed.

Lemma Tally_same_words s docId doc doc' :
  Tally s → documents s !! docId = Some doc →
  title doc' = title doc → content doc' = content doc →
  Tally (mkStore (<[docId := doc']> (documents s)) (wordIndex s)).
Proof.
  intros Ht Hdoc Htitle Hcontent. unfold Tally in *. simpl.
  assert (docWords doc' = docWords doc) as Hwords
    by (unfold docWords; by rewrite Htitle, Hcontent).
  pose proof (mapSum_replace (λ doc, length (docWords doc)) (documents s)
                docId doc doc' Hdoc) as H. simpl in H.
  rewrite Hwords in H. lia.
Qed.

Lemma Tally_reachable s : reachable s → Tally s.
Proof.
  induction 1 as [|s input uuid now Hs IH Hfresh|s docId updates now Hs IH
                  |s docId patch now Hs IH|s docId Hs IH].
  - reflexivity.
  - unfold Tally in *. simpl.
    rewrite mapSum_insert by done.
    rewrite total_indexDocument_absent; [simpl; lia|].
    intros t. simpl. rewrite (Consistent_posting s)
      by (by apply reachable_Consistent).
    intros (x & Hx & _). by rewrite Hfresh in Hx.
  - unfold updateDocument.
    destruct (documents s !! docId) as [doc|] eqn:Hdoc; [|done].
    simpl. apply (Tally_reindex s docId doc);
      [by apply reachable_Consistent|by apply NoDupPostings_reachable
      |done..|].
    simpl. by destruct (u_title updates), (u_content updates).
  - unfold patchDocument.
    destruct (documents s !! docId) as [doc|] eqn:Hdoc; [|done].
    destruct (p_title patch) as [t|]; simpl.
    + case_bool_decide as Ht.
      * apply (Tally_reindex s docId doc);
          [by apply reachable_Consistent|by apply NoDupPostings_reachable
          |done..|].
        simpl. by destruct (p_author patch), (p_tags patch).
      * apply (Tally_same_words s docId doc); [done..| |];
          simpl; destruct (p_author patch), (p_tags patch); simpl; try done.
        all: by destruct (decide (t = title doc)).
    + apply (Tally_same_words s docId doc); [done..| |];
        simpl; by destruct (p_author patch), (p_tags patch).
  - unfold deleteDocument.
    destruct (documents s !! docId) as [doc|] eqn:Hdoc; [|done].
    unfold Tally in *. simpl.
    pose proof (total_removeFromIndex s docId doc
                  (reachable_Consistent s Hs)
                  (NoDupPostings_reachable s Hs) Hdoc).
    pose proof (mapSum_delete (λ doc, length (docWords doc)) (documents s)
                  docId doc Hdoc). simpl in *. lia.
Qed.

End PostingFacts.

(* ===================================================================== *)
(** * Index statistics, deletion and the tokenizer *)
(* ===================================================================== *)
Module StatsFacts.
Import JS JSFacts Storage Specs LookupFacts IndexFacts.
Import StoreFacts PostingFacts.

Lemma size_le_mapSum (m : gmap jsstring (list jsstring)) :
  NoEmptyPosting m → size m ≤ mapSum length m.
Proof.
  induction m as [|i x m Hi IH] using map_ind; intros Hne.
  - by rewrite map_size_empty.
  - rewrite map_size_insert_None, mapSum_insert by done.
    assert (x ≠ []) as Hx by (apply (Hne i); by rewrite lookup_insert_eq).
    assert (size m ≤ mapSum length m) as Hle.
    { apply IH. intros t l Hl. apply (Hne t).
      rewrite lookup_insert_ne; [done|]. intros ->. by rewrite Hi in Hl. }
    destruct x; [done|]. simpl. lia.
Qed.

(** X13.  [getIndexStats] in any state of the store: the number of postings is
    the number of distinct words summed over the stored documents, and it
    is at least the number of indexed words. *)
Theorem index_stats_tally (s : Store) :
  reachable s →
  totalPostings (getIndexStats s)
  = mapSum (λ doc, length (docWords doc)) (documents s)
  ∧ uniqueWords (getIndexStats s) ≤ totalPostings (getIndexStats s).
Proof.
  intros Hs. split.
  - by apply Tally_reachable.
  - apply size_le_mapSum.
    exact (proj2 (proj2 (reachable_Consistent s Hs))).
Qed.

Lemma index_stats_tally_witness :
  reachable store3
  ∧ totalPostings (getIndexStats store3) = 15
  ∧ uniqueWords (getIndexStats store3) ≤ totalPostings (getIndexStats store3).
Proof.
  assert (reachable store3) as Hs.
  { repeat (apply reach_create; [|reflexivity]). apply reach_empty. }
  split; [exact Hs|]. split; [reflexivity|].
  exact (proj2 (index_stats_tally store3 Hs)).
Defined.

(** X14.  Deleting a stored document: it is gone, no posting set lists it any
    more, the other documents stay, the document count drops by one and the
    posting count by the number of distinct words of the document. *)
Theorem deleteDocument_effect (s : Store) (docId : jsstring)
    (doc : Document) :
  reachable s → getDocument docId s = Some doc →
  let s' := (deleteDocument docId s).1 in
  (deleteDocument docId s).2 = true
  ∧ getDocument docId s' = None
  ∧ (∀ w, docId ∉ findDocumentsByWord w s')
  ∧ (∀ d, d ≠ docId → getDocument d s' = getDocument d s)
  ∧ getDocumentCount s' + 1 = getDocumentCount s
  ∧ totalPostings (getIndexStats s') + length (docWords doc)
    = totalPostings (getIndexStats s).
Proof.
  intros Hs Hdoc. unfold getDocument in Hdoc.
  pose proof (reachable_Consistent s Hs) as Hc.
  unfold deleteDocument, getDocument, getDocumentCount. rewrite Hdoc.
  cbn [fst snd documents wordIndex]. split_and!.
  - done.
  - apply lookup_delete_eq.
  - intros w. unfold findDocumentsByWord. cbn [wordIndex].
    pose proof (removeFromIndex_absent s docId doc (toLowerCase w) Hc Hdoc)
      as Habs.
    unfold posting in Habs.
    destruct (removeFromIndex doc (wordIndex s) !! toLowerCase w); [done|].
    by intros ?%elem_of_nil.
  - intros d Hd. by apply lookup_delete_ne.
  - rewrite map_size_delete, Hdoc.
    assert (delete docId (documents s) !! docId = None) as Hgone
      by apply lookup_delete_eq.
    pose proof (map_size_insert_None docId doc _ Hgone) as Hsz.
    rewrite insert_delete_eq, insert_id in Hsz by done.
    rewrite Hsz. simpl. lia.
  - apply (total_removeFromIndex s docId doc); [done| |done].
    by apply NoDupPostings_reachable.
Qed.

Lemma deleteDocument_effect_witness :
  reachable store3
  ∧ getDocument (str "id-2") (deleteDocument (str "id-2") store3).1 = None
  ∧ totalPostings (getIndexStats (deleteDocument (str "id-2") store3).1) + 5
    = totalPostings (getIndexStats store3).
Proof.
  assert (reachable store3) as Hs.
  { repeat (apply reach_create; [|reflexivity]). apply reach_empty. }
  pose proof (deleteDocument_effect store3 (str "id-2") _ Hs eq_refl)
    as (_ & Hgone & _ & _ & _ & Htotal).
  split; [exact Hs|]. split; [exact Hgone|exact Htotal].
Defined.

(** X15.  [getDocumentsByIds] returns the documents of the identifiers that are
    in use, in the order asked and as often as asked; unknown identifiers
    are skipped. *)
Theorem getDocumentsByIds_ids (s : Store) (ids : list jsstring) :
  reachable s →
  map id (getDocumentsByIds ids s)
  = filter (λ docId, is_Some (getDocument docId s)) ids
  ∧ Forall (λ doc, getDocument (id doc) s = Some doc)
      (getDocumentsByIds ids s).
Proof.
  intros Hs. pose proof (proj1 (reachable_Consistent s Hs)) as Hk.
  unfold getDocumentsByIds, getDocument.
  induction ids as [|docId ids [IH1 IH2]]; [by split; [|constructor]|].
  csimpl. rewrite filter_cons.
  destruct (documents s !! docId) as [doc|] eqn:Hdoc.
  - rewrite decide_True by (by eexists). pose proof (Hk _ _ Hdoc) as Hid.
    split.
    + simpl. by rewrite IH1, Hid.
    + constructor; [by rewrite Hid|done].
  - rewrite decide_False by (by intros [? ?]). done.
Qed.

Lemma getDocumentsByIds_ids_witness :
  reachable store3
  ∧ map id (getDocumentsByIds [str "id-3"; str "none"; str "id-3"] store3)
    = [str "id-3"; str "id-3"].
Proof.
  assert (reachable store3) as Hs.
  { repeat (apply reach_create; [|reflexivity]). apply reach_empty. }
  split; [exact Hs|].
  exact (proj1 (getDocumentsByIds_ids store3
                  [str "id-3"; str "none"; str "id-3"] Hs)).
Defined.

(** ** The tokenizer *)

Lemma splitSpaces_from_chars inRun s piece c :
  piece ∈ splitSpaces_from inRun s → c ∈ piece →
  c ∈ s ∧ isSpace c = false.
Proof.
  revert inRun piece.
  induction s as [|x s IH]; intros inRun piece; simpl.
  - intros ->%list_elem_of_singleton Hc. by apply elem_of_nil in Hc.
  - destruct (isSpace x) eqn:Hx.
    + destruct inRun.
      * intros Hp Hc. destruct (IH _ _ Hp Hc). split; [by right|done].
      * intros [->|Hp]%elem_of_cons Hc; [by apply elem_of_nil in Hc|].
        destruct (IH _ _ Hp Hc). split; [by right|done].
    + destruct (splitSpaces_from false s) as [|w ws] eqn:Hsplit.
      * intros ->%list_elem_of_singleton ->%list_elem_of_singleton.
        split; [left|done].
      * intros [->|Hp]%elem_of_cons Hc.
        -- apply elem_of_cons in Hc as [->|Hc]; [split; [left|done]|].
           destruct (IH false w) as [? ?]; [rewrite Hsplit; left|done|].
           split; [by right|done].
        -- destruct (IH false piece) as [? ?];
             [rewrite Hsplit; by right|done|].
           split; [by right|done].
Qed.

Lemma extractWords_chars text w :
  w ∈ extractWords text → normalizedWord w.
Proof.
  unfold extractWords. intros [Hlen Hw]%list_elem_of_filter.
  split; [destruct w; [simpl in Hlen; lia|done]|].
  apply Forall_forall. intros c Hc.
  destruct (splitSpaces_from_chars _ _ _ _ Hw Hc) as [Hin Hsp].
  apply list_elem_of_fmap in Hin as (x & -> & Hx).
  destruct (negb (isWordChar x) && negb (isSpace x)) eqn:Hrepl.
  { by vm_compute in Hsp. }
  rewrite Hsp in Hrepl. rewrite andb_true_r in Hrepl.
  apply negb_false_iff in Hrepl. split; [done|].
  unfold toLowerCase in Hx. apply list_elem_of_fmap in Hx as (y & -> & _).
  apply toLowerChar_idemp.
Qed.

(** X16.  Every word that [extractWords] returns is normalized: it is not empty
    and consists of lower-case letters, digits and underscores. *)
Theorem extractWords_normalized (text w : jsstring) :
  w ∈ extractWords text → normalizedWord w.
Proof. apply extractWords_chars. Qed.

Lemma extractWords_normalized_witness :
  str "it" ∈ extractWords (str "  Hello, World! it's a_b  ")
  ∧ normalizedWord (str "it").
Proof.
  assert (str "it" ∈ extractWords (str "  Hello, World! it's a_b  ")) as Hin.
  { apply (bool_decide_unpack _). by vm_compute. }
  split; [exact Hin|].
  exact (extractWords_normalized _ _ Hin).
Defined.

End StatsFacts.

(* ===================================================================== *)
(** * Search results *)
(* ===================================================================== *)
Module ResultFacts.
Import JS JSFacts Regex Storage SearchService Specs.
Import RegexFacts LookupFacts SearchFacts ChangeFacts MatchFacts.

Lemma takeLimit_sublist {A} limit have (l : list A) :
  takeLimit limit have l `sublist_of` l.
Proof. destruct limit; [apply sublist_take|done]. Qed.

Lemma search_loop_take candidates rx contextSize maxResults results :
  search_loop candidates rx contextSize maxResults results
  = results
    ++ takeLimit (resultLimit maxResults) (length results)
         (concat
            (map (λ doc,
                    map (toSearchMatch doc contextSize)
                      (execAll (S (S (length (content doc)))) rx
                         (content doc) 0))
               candidates)).
Proof.
  revert results.
  induction candidates as [|doc rest IH]; intros results;
    cbn [search_loop map concat].
  - destruct (resultLimit maxResults); simpl;
      by rewrite ?take_nil, app_nil_r.
  - rewrite geb_resultLimit, IH, searchInDocument_take.
    destruct (resultLimit maxResults) as [limit|]; cbn [takeLimit].
    + destruct (Nat.leb_spec limit (length results)) as [Hle|Hlt].
      * replace (limit - length results) with 0 by lia.
        by rewrite take_0, app_nil_r.
      * rewrite <- app_assoc. f_equal.
        rewrite take_app, length_app, length_take. f_equal. f_equal.
        rewrite length_map. lia.
    + by rewrite <- app_assoc.
Qed.

(** [search] in closed form. *)
Lemma search_eq q s :
  let candidates := getCandidateDocuments (query q) (documentIds q) s in
  let found :=
    takeLimit (resultLimit (default (ofNat 100) (maxResults q))) 0
      (concat (map (matchesIn q) candidates)) in
  search q s
  = Some (mkSearchResponse (query q) (length found) (length candidates)
            found).
Proof.
  intros candidates found. rewrite search_total. cbv zeta.
  fold candidates. fold (queryPattern q).
  rewrite search_loop_take. reflexivity.
Qed.

(** X17.  [search] returns the matches of the candidate documents, in the order
    of the candidates and within each by position, cut off at the first
    whole number that is not below [maxResults]; nothing is cut off when
    there is no such number. *)
Theorem search_results (q : SearchQuery) (s : Store) :
  let candidates := getCandidateDocuments (query q) (documentIds q) s in
  let found :=
    takeLimit (resultLimit (default (ofNat 100) (maxResults q))) 0
      (concat (map (matchesIn q) candidates)) in
  search q s
  = Some (mkSearchResponse (query q) (length found) (length candidates)
            found).
Proof. apply search_eq. Qed.

Lemma execAll_in_bounds rx input fuel lastIndex :
  global rx = true →
  Forall (λ m, m_index m + length (m_text m) ≤ length input
               ∧ m_text m
                 = take (length (m_text m)) (drop (m_index m) input))
    (execAll fuel rx input lastIndex).
Proof.
  intros Hg. pose proof (execAll_spaced rx input fuel lastIndex Hg) as Hsp.
  revert Hsp. generalize lastIndex at 1.
  induction (execAll fuel rx input lastIndex) as [|m ms IH]; intros lo;
    simpl; [constructor|].
  intros (_ & Hn & Ht & Hs). constructor; [done|by eapply IH].
Qed.

(** X18.  Every match that [search] returns is real: it names a candidate
    document by identifier and title, its position lies in the content of
    that document, the query stands there (up to case unless the search is
    case sensitive), and the matched text is the text found there. *)
Theorem search_result_genuine (q : SearchQuery) (s : Store)
    (resp : SearchResponse) (r : SearchMatch) :
  search q s = Some resp → r ∈ results resp →
  ∃ doc,
    doc ∈ getCandidateDocuments (query q) (documentIds q) s
    ∧ documentId r = id doc ∧ documentTitle r = title doc
    ∧ position r + length (query q) ≤ length (content doc)
    ∧ literalAt (negb (default false (caseSensitive q))) (query q)
        (content doc) (position r) = true
    ∧ matchedText r
      = take (length (query q)) (drop (position r) (content doc))
    ∧ context r
      = extractContext (content doc) (position r)
          (position r + length (query q))
          (default (ofNat 50) (contextSize q)).
Proof.
  rewrite search_eq. intros [= <-]. cbn [results].
  intros Hr. eapply elem_of_sublist in Hr; [|apply takeLimit_sublist].
  apply list_elem_of_In, in_concat in Hr as (l & Hl & Hr).
  apply list_elem_of_In in Hl, Hr.
  apply list_elem_of_fmap in Hl as (doc & -> & Hdoc).
  exists doc. split; [done|].
  unfold matchesIn in Hr. apply list_elem_of_fmap in Hr as (m & -> & Hm).
  pose proof (execAll_matches (queryPattern q) (content doc)
                (S (S (length (content doc)))) 0 eq_refl) as Hmatch.
  pose proof (execAll_in_bounds (queryPattern q) (content doc)
                (S (S (length (content doc)))) 0 eq_refl) as Hbound.
  rewrite Forall_forall in Hmatch, Hbound.
  specialize (Hmatch m Hm). destruct (Hbound m Hm) as [Hn Ht].
  cbn [queryPattern ignoreCase atoms literalAtoms] in Hmatch.
  rewrite <- (app_nil_r (map Lit (query q))), matchAtoms_literal in Hmatch.
  destruct (literalAt _ (query q) (content doc) (m_index m)) eqn:Hlit;
    [|done].
  cbn [matchAtoms] in Hmatch. injection Hmatch as Hlen.
  assert (length (m_text m) = length (query q)) as Hlen' by lia.
  cbn [toSearchMatch documentId documentTitle position matchedText context].
  rewrite <- Hlen'. by split_and!.
Qed.

Lemma search_result_genuine_witness :
  let q := mkSearchQuery (str "WORLD") None None (Some (ofNat 3)) None in
  let r := mkSearchMatch (str "id-1") (str "Doc 1") 6
             (str "...lo world to...") (str "world") in
  ∃ resp,
    search q store3 = Some resp ∧ r ∈ results resp
    ∧ ∃ doc, doc ∈ getCandidateDocuments (query q) (documentIds q) store3
             ∧ documentId r = id doc
             ∧ position r + length (query q) ≤ length (content doc).
Proof.
  intros q r.
  assert (∃ resp, search q store3 = Some resp ∧ r ∈ results resp)
    as (resp & Hresp & Hr).
  { eexists. split; [vm_compute; reflexivity|]. left. }
  exists resp. split; [exact Hresp|]. split; [exact Hr|].
  destruct (search_result_genuine q store3 resp r Hresp Hr)
    as (doc & Hdoc & Hid & _ & Hpos & _).
  exists doc. split; [exact Hdoc|]. split; [exact Hid|exact Hpos].
Defined.

End ResultFacts.

(* ===================================================================== *)
(** * Tokens: versions, lists and weak tokens *)
(* ===================================================================== *)
Module TokenFacts.
Import JS JSFacts Storage ETag Specs ETagFacts.

(** ** Reading the version back from a token *)

Lemma numberToString_nonempty n : numberToString n ≠ [].
Proof.
  unfold numberToString. intros H.
  assert (NilEmpty.string_of_uint (Nat.to_uint n) = ""%string) as Hs.
  { apply str_inj. by rewrite H. }
  pose proof (NilEmpty.usu (Nat.to_uint n)) as Hu. rewrite Hs in Hu.
  injection Hu as Hu.
  assert (n = 0) as ->.
  { rewrite <- (Unsigned.of_to n), <- Hu. reflexivity. }
  discriminate Hu.
Qed.

Lemma parseInt10_numberToString n : parseInt10 (numberToString n) = Some n.
Proof.
  unfold parseInt10, numberToString, str.
  rewrite string_of_list_ascii_of_string, NilEmpty.usu. simpl.
  by rewrite Unsigned.of_to.
Qed.

Lemma spanDigits_app digits t rest :
  Forall isDigit digits → isDigitChar t = false →
  spanDigits (digits ++ t :: rest) = (digits, t :: rest).
Proof.
  intros Hd Ht. induction Hd as [|c digits Hc Hd IH]; simpl.
  - by rewrite Ht.
  - unfold isDigit in Hc. unfold isDigitChar at 1. by rewrite Hc, IH.
Qed.

Lemma removeQuotes_id s : dquote ∉ s → removeQuotes s = s.
Proof.
  intros Hs. unfold removeQuotes. induction s as [|c s IH]; [done|].
  apply not_elem_of_cons in Hs as [Hc Hs].
  rewrite filter_cons_True by done. by rewrite IH.
Qed.

Lemma digits_no_quote l : Forall isDigit l → dquote ∉ l.
Proof. intros Hl Hin. rewrite Forall_forall in Hl. by apply Hl in Hin. Qed.

Lemma alnum_no_quote l : Forall isAlnum l → dquote ∉ l.
Proof. intros Hl Hin. rewrite Forall_forall in Hl. by apply Hl in Hin. Qed.

Section WithDigest.

Variable md5 : jsstring → list Byte.byte.

(** The text of a token without its quotes. *)
Lemma generateETag_cleaned doc :
  ∃ hash,
    generateETag md5 doc
    = dquote :: str "v" ++ numberToString (version doc) ++ str "-" ++ hash
        ++ [dquote]
    ∧ removeQuotes (stripWeakPrefix (generateETag md5 doc))
      = str "v" ++ numberToString (version doc) ++ str "-" ++ hash.
Proof.
  unfold generateETag. eexists. split; [reflexivity|].
  cbn [stripWeakPrefix app str list_ascii_of_string].
  change (Ascii.eqb dquote "W") with false. cbn [andb].
  unfold removeQuotes. rewrite filter_cons_False by (by intros []).
  rewrite filter_cons_True by done. f_equal.
  rewrite !filter_app.
  fold (removeQuotes (numberToString (version doc))).
  rewrite removeQuotes_id by apply digits_no_quote, numberToString_digits.
  f_equal. rewrite filter_cons_True by done. f_equal.
  rewrite substring_0, filter_app.
  rewrite (filter_cons_False _ dquote) by (by intros []).
  rewrite filter_nil, app_nil_r.
  apply (removeQuotes_id (take 8 _)).
  apply alnum_no_quote, Forall_take, hexEncode_alnum.
Qed.

(** X19.  [parseETagVersion] reads from a token the version of the document it
    was generated for, also when the token carries the weak prefix. *)
Theorem parseETagVersion_generateETag (doc : Document) :
  parseETagVersion (generateETag md5 doc) = Some (version doc)
  ∧ parseETagVersion (str "W/" ++ generateETag md5 doc)
    = Some (version doc).
Proof.
  assert (parseETagVersion (generateETag md5 doc) = Some (version doc))
    as Hparse.
  { unfold parseETagVersion.
    destruct (generateETag_cleaned doc) as (hash & _ & ->).
    cbn [app str list_ascii_of_string].
    change (Ascii.eqb "v" "v") with true. cbv iota.
    rewrite spanDigits_app by (apply numberToString_digits || done).
    pose proof (numberToString_nonempty (version doc)) as Hne.
    pose proof (parseInt10_numberToString (version doc)) as Hint.
    destruct (numberToString (version doc)) as [|d digits]; [done|].
    by change (Ascii.eqb "-" "-") with true. }
  split; [done|]. rewrite <- Hparse. unfold parseETagVersion.
  by cbn [app str list_ascii_of_string stripWeakPrefix Ascii.eqb andb].
Qed.

(** ** Lists of tokens and weak tokens *)

Lemma splitChar_snoc sep a b :
  sep ∉ b →
  ∃ piece pieces, splitChar sep (a ++ sep :: b) = piece :: pieces ++ [b].
Proof.
  intros Hb. induction a as [|c a (piece & pieces & IH)].
  - exists [], []. simpl. rewrite Ascii.eqb_refl.
    by rewrite splitChar_absent.
  - simpl. rewrite IH. destruct (Ascii.eqb c sep).
    + by exists [], (piece :: pieces).
    + by exists (c :: piece), pieces.
Qed.

Lemma stripWeakPrefix_token doc :
  stripWeakPrefix (generateETag md5 doc) = generateETag md5 doc.
Proof. done. Qed.

Lemma validateIfMatch_elem ifMatch doc requested :
  ifMatch ≠ [] → ifMatch ≠ str "*" →
  requested ∈ splitChar "," ifMatch →
  stripWeakPrefix (trim requested) = generateETag md5 doc →
  validateIfMatch md5 (Some ifMatch) doc = true.
Proof.
  intros Hne Hstar Hin Heq. unfold validateIfMatch.
  destruct ifMatch as [|c ifMatch]; [done|].
  rewrite bool_decide_eq_false_2 by done.
  apply existsb_exists. exists (trim requested). split.
  - apply in_map. by apply list_elem_of_In.
  - apply bool_decide_eq_true. by rewrite stripWeakPrefix_token.
Qed.

(** X20.  [validateIfMatch] accepts a request without [If-Match], with an empty
    one and with [*], whatever the document; and it accepts the current
    token of the document when it comes with the weak prefix, or last in a
    comma-separated list after a space. *)
Theorem validateIfMatch_accepts (doc : Document) (others : jsstring) :
  validateIfMatch md5 None doc = true
  ∧ validateIfMatch md5 (Some []) doc = true
  ∧ validateIfMatch md5 (Some (str "*")) doc = true
  ∧ validateIfMatch md5 (Some (str "W/" ++ generateETag md5 doc)) doc = true
  ∧ validateIfMatch md5
      (Some (others ++ str ", " ++ generateETag md5 doc)) doc = true.
Proof.
  destruct (generateETag_quoted md5 doc) as [mid Hmid].
  pose proof (generateETag_no_comma md5 doc) as Hcomma.
  split_and!; try done.
  - apply (validateIfMatch_elem _ _ (str "W/" ++ generateETag md5 doc));
      [done|done| |].
    + rewrite splitChar_absent; [apply list_elem_of_singleton; done|].
      cbn [app str list_ascii_of_string].
      rewrite !not_elem_of_cons. by split_and!.
    + rewrite Hmid. cbn [app str list_ascii_of_string].
      change ("W"%char :: "/"%char :: dquote :: mid ++ [dquote])
        with ("W"%char :: ("/"%char :: dquote :: mid) ++ [dquote]).
      by rewrite trim_quoted.
  - assert (","%char ∉ " "%char :: generateETag md5 doc) as Hc.
    { rewrite not_elem_of_cons. by split. }
    destruct (splitChar_snoc "," others _ Hc) as (piece & pieces & Hsplit).
    apply (validateIfMatch_elem _ _ (" "%char :: generateETag md5 doc)).
    + by destruct others.
    + by destruct others as [|c [|c' others]].
    + cbn [app str list_ascii_of_string]. rewrite Hsplit.
      rewrite elem_of_cons, elem_of_app, list_elem_of_singleton. tauto.
    + rewrite Hmid.
      change (trim (" "%char :: dquote :: mid ++ [dquote]))
        with (trim (dquote :: mid ++ [dquote])).
      rewrite trim_quoted by done. by destruct (mid ++ [dquote]).
Qed.

End WithDigest.

End TokenFacts.

(* ===================================================================== *)
(** * The route handlers *)
(* ===================================================================== *)
Module RouteFacts.
Import JS JSFacts ChangeService Storage ETag Routes Specs.
Import IndexFacts ETagFacts ChangeFacts BatchFacts.

Section WithDigest.

Variable md5 : jsstring → list Byte.byte.

(** ** A missing document *)

(** For an identifier that is not stored the three handlers answer 404
    with the message that names the identifier, whatever the [If-Match]
    header and the body, and leave the store as it is. *)
Lemma handlers_not_found (docId : jsstring) (s : Store)
    (changes : list Change) (patch : PatchDocumentInput)
    (ifMatch : option jsstring) (now : jsstring) :
  documents s !! docId = None →
  let notFound :=
    mkErrorResponse (str "Document with ID " ++ docId ++ str " not found")
      404 in
  getHandler md5 docId s = NotFound notFound
  ∧ patchHandler md5 docId patch ifMatch now s = Some (s, NotFound notFound)
  ∧ changesHandler md5 docId changes ifMatch now s
    = Some (s, NotFound notFound).
Proof.
  intros Hnone notFound.
  unfold getHandler, patchHandler, changesHandler, getDocument.
  by rewrite Hnone.
Qed.

(** ** Optimistic concurrency *)






(** ** The handlers keep the store consistent *)

(** X23.  Whatever a handler does to a store that was reached from the empty
    one, the store it leaves is reached from the empty one too, so that
    the index stays exact. *)
Theorem handlers_preserve_reachable (docId : jsstring) (s : Store)
    (changes : list Change) (patch : PatchDocumentInput)
    (ifMatch : option jsstring) (now : jsstring) :
  reachable s →
  (∀ s' reply,
     changesHandler md5 docId changes ifMatch now s = Some (s', reply) →
     reachable s' ∧ Consistent s')
  ∧ (∀ s' reply,
       patchHandler md5 docId patch ifMatch now s = Some (s', reply) →
       reachable s' ∧ Consistent s').
Proof.
  intros Hreach.
  assert (∀ s', reachable s' → reachable s' ∧ Consistent s') as Hboth.
  { intros s' Hs'. split; [done|by apply reachable_Consistent]. }
  split; intros s' reply.
  - unfold changesHandler.
    destruct (getDocument docId s) as [doc|]; [|intros [= <- _]; by apply Hboth].
    destruct (negb _); [intros [= <- _]; by apply Hboth|].
    destruct (applyChanges (content doc) changes)
      as [[[newContent results] total]|]; [|done].
    cbn [mbind option_bind].
    destruct (0 <? total).
    + destruct (getDocument docId _); [|done].
      intros [= <- _]. apply Hboth. by constructor.
    + destruct (getDocument docId s); [|done].
      intros [= <- _]. by apply Hboth.
  - unfold patchHandler.
    destruct (getDocument docId s) as [doc|]; [|intros [= <- _]; by apply Hboth].
    destruct (negb _); [intros [= <- _]; by apply Hboth|].
    destruct (patchDocument docId patch now s) as [s'' [updatedDoc|]] eqn:Hp;
      [|done].
    intros [= <- _]. apply Hboth.
    change s'' with (s'', Some updatedDoc).1. rewrite <- Hp. by constructor.
Qed.

End WithDigest.



Lemma handlers_preserve_reachable_witness :
  reachable store1
  ∧ ∀ s' reply,
      changesHandler sampleDigest (str "id-1")
        [simpleChange (str "world") (str "there")] None
        (str "2024-02-01T00:00:00.000Z") store1 = Some (s', reply) →
      reachable s' ∧ Consistent s'.
Proof.
  assert (reachable store1) as Hreach.
  { unfold store1. apply reach_create; [constructor|reflexivity]. }
  split; [exact Hreach|].
  exact (proj1 (handlers_preserve_reachable sampleDigest (str "id-1") store1
                  [simpleChange (str "world") (str "there")]
                  (mkPatch None None None) None
                  (str "2024-02-01T00:00:00.000Z") Hreach)).
Defined.

End RouteFacts.

(* ===================================================================== *)
(** * The context of a match *)
(* ===================================================================== *)
Module ContextFacts.
Import JS JSFacts Regex Storage SearchService Specs.

Lemma represents_ofNat n : represents (ofNat n) n.
Proof. exists (inject_Z (Z.of_nat n)). split; [done|reflexivity]. Qed.

Lemma represents_gtb x n :
  represents x n → gtb x (ofNat 0) = (0 <? n).
Proof.
  intros (q & -> & Hq). unfold gtb, ltb, ofNat.
  rewrite (Qleb_comp _ _ Hq _ _ (Qeq_refl _)), Qle_bool_inject.
  destruct (Z.leb_spec (Z.of_nat n) (Z.of_nat 0)), (Nat.ltb_spec 0 n);
    try done; lia.
Qed.

Lemma represents_ltb x n m :
  represents x n → ltb x (ofNat m) = (n <? m).
Proof.
  intros (q & -> & Hq). unfold ltb, ofNat.
  rewrite (Qleb_comp _ _ (Qeq_refl _) _ _ Hq), Qle_bool_inject.
  destruct (Z.leb_spec (Z.of_nat m) (Z.of_nat n)), (Nat.ltb_spec n m);
    try done; lia.
Qed.

Lemma truncate_comp q q' : q == q' → truncate q = truncate q'.
Proof.
  intros Hq. unfold truncate.
  by rewrite (Qfloor_comp _ _ Hq), (Qceiling_comp _ _ Hq),
    (Qleb_comp _ _ (Qeq_refl 0%Q) _ _ Hq).
Qed.

Lemma represents_relativeIndex x n len :
  represents x n → relativeIndex len x = n `min` len.
Proof.
  intros (q & -> & Hq). unfold relativeIndex.
  rewrite (truncate_comp _ _ Hq), truncate_inject.
  destruct (Z.ltb_spec (Z.of_nat n) 0); lia.
Qed.

(** [Math.max(0, a - k)] on counts is the truncated difference. *)
Lemma represents_max a k :
  represents (Math_max (ofNat 0) (sub (ofNat a) (ofNat k))) (a - k).
Proof.
  unfold Math_max, sub, neg, add, ofNat. cbn [isNaN orb ltb].
  assert (inject_Z (Z.of_nat a) + - inject_Z (Z.of_nat k)
          == inject_Z (Z.of_nat a - Z.of_nat k)) as Hq.
  { unfold Z.sub. rewrite inject_Z_plus, inject_Z_opp. reflexivity. }
  rewrite (Qleb_comp _ _ Hq _ _ (Qeq_refl _)), Qle_bool_inject.
  destruct (Z.leb_spec (Z.of_nat a - Z.of_nat k) (Z.of_nat 0)) as [Hle|Hgt];
    cbn [negb].
  - replace (a - k) with 0 by lia. apply represents_ofNat.
  - eexists. split; [reflexivity|]. rewrite Hq. f_equiv. lia.
Qed.

(** [Math.min(len, b + k)] on counts is the smaller count. *)
Lemma represents_min len b k :
  represents (Math_min (ofNat len) (add (ofNat b) (ofNat k)))
    ((b + k) `min` len).
Proof.
  unfold Math_min, add, ofNat. cbn [isNaN orb ltb].
  assert (inject_Z (Z.of_nat b) + inject_Z (Z.of_nat k)
          == inject_Z (Z.of_nat (b + k))) as Hq.
  { rewrite <- inject_Z_plus. f_equiv. lia. }
  rewrite (Qleb_comp _ _ (Qeq_refl _) _ _ Hq), Qle_bool_inject.
  destruct (Z.leb_spec (Z.of_nat len) (Z.of_nat (b + k))) as [Hle|Hgt];
    cbn [negb].
  - replace ((b + k) `min` len) with len by lia. apply represents_ofNat.
  - replace ((b + k) `min` len) with (b + k) by lia.
    eexists. split; [reflexivity|done].
Qed.

(** X24.  The context of a match from offset [a] to offset [b], for a context
    size that is the whole number [k]: the content from [k] characters
    before the match (or from the start) to [k] characters after it (or to
    the end), with three dots in front when it does not begin at the start
    of the content and three dots behind when it does not reach the end.
    The matched text stands in it, after at most [k] characters and
    followed by at most [k]. *)
Theorem extractContext_window (content : jsstring) (a b k : nat) :
  a ≤ b → b ≤ length content →
  let start := a - k in
  let stop := (b + k) `min` length content in
  let window := take (stop - start) (drop start content) in
  extractContext content a b (ofNat k)
  = (if 0 <? start then str "..." else [])
    ++ window
    ++ (if stop <? length content then str "..." else [])
  ∧ window
    = take (a - start) (drop start content)
      ++ take (b - a) (drop a content)
      ++ take (stop - b) (drop b content)
  ∧ a - start ≤ k ∧ stop - b ≤ k.
Proof.
  intros Hab Hb start stop window. split_and!; [| |lia..].
  - unfold extractContext, slice.
    pose proof (represents_max a k) as Hmax.
    pose proof (represents_min (length content) b k) as Hmin.
    rewrite (represents_gtb _ _ Hmax), (represents_ltb _ _ _ Hmin).
    rewrite (represents_relativeIndex _ _ _ Hmax),
      (represents_relativeIndex _ _ _ Hmin).
    fold start stop.
    replace (start `min` length content) with start by lia.
    replace (stop `min` length content) with stop by lia.
    fold window.
    destruct (0 <? start), (stop <? length content); simpl;
      by rewrite <- ?app_assoc, ?app_nil_r.
  - unfold window.
    replace (drop a content)
      with (drop (a - start) (drop start content))
      by (rewrite drop_drop; f_equal; lia).
    replace (drop b content)
      with (drop (b - a) (drop (a - start) (drop start content)))
      by (rewrite !drop_drop; f_equal; lia).
    rewrite !take_take_drop. f_equal. lia.
Qed.

Lemma extractContext_window_witness :
  6 ≤ 11 ∧ 11 ≤ length (str "hello world today")
  ∧ extractContext (str "hello world today") 6 11 (ofNat 3)
    = str "...lo world to...".
Proof.
  assert (6 ≤ 11) as Hab by lia.
  assert (11 ≤ length (str "hello world today")) as Hb by (simpl; lia).
  split; [exact Hab|]. split; [exact Hb|].
  exact (proj1 (extractContext_window (str "hello world today") 6 11 3
                  Hab Hb)).
Defined.

End ContextFacts.

(* ===================================================================== *)
(** * Search looks where the index points *)
(* ===================================================================== *)
Module PrefilterFacts.
Import JS JSFacts Regex Storage SearchService Specs.
Import RegexFacts LookupFacts IndexFacts SearchFacts StoreFacts PostingFacts.
Import StatsFacts ResultFacts.

Lemma normalizedWord_lower w : normalizedWord w → toLowerCase w = w.
Proof.
  intros [_ Hall]. unfold toLowerCase.
  induction Hall as [|c w [_ Hc] _ IH]; [done|]. simpl. by rewrite Hc, IH.
Qed.

(** X25.  Without a list of identifiers [search] looks only into the documents
    that the index gives for the words of the query: the document of every
    returned match is stored and has each word of the query as a whole word
    of its title or content, and a query without any word returns
    nothing. *)
Theorem search_whole_words (q : SearchQuery) (s : Store)
    (resp : SearchResponse) :
  reachable s →
  documentIds q = None ∨ documentIds q = Some [] →
  search q s = Some resp →
  (extractWords (query q) = [] → results resp = [])
  ∧ ∀ r, r ∈ results resp →
         ∃ doc, getDocument (documentId r) s = Some doc
                ∧ ∀ w, w ∈ extractWords (query q) → hasWord doc w.
Proof.
  intros Hs Hids. pose proof (reachable_Consistent s Hs) as Hc.
  rewrite search_eq. intros [= <-]. cbn [results].
  rewrite getCandidateDocuments_candidateIds.
  assert (candidateIds (query q) (documentIds q) s
          = findDocumentsByWords (extractWords (query q)) s) as ->
    by (by destruct Hids as [-> | ->]).
  split.
  - intros ->. destruct (resultLimit _); simpl; by rewrite ?take_nil.
  - intros r Hr. eapply elem_of_sublist in Hr; [|apply takeLimit_sublist].
    apply list_elem_of_In, in_concat in Hr as (l & Hl & Hr).
    apply list_elem_of_In in Hl, Hr.
    apply list_elem_of_fmap in Hl as (doc & -> & Hdoc).
    unfold matchesIn in Hr. apply list_elem_of_fmap in Hr as (m & -> & _).
    cbn [toSearchMatch documentId].
    apply list_elem_of_omap in Hdoc as (d & Hd & Hdoc).
    pose proof (proj1 Hc _ _ Hdoc) as Hid. rewrite Hid.
    exists doc. split; [done|]. intros w Hw.
    pose proof (findDocumentsByWords_sound _ s w d Hw Hd) as Hin.
    assert (d ∈ posting (wordIndex s) (toLowerCase w)) as Hp.
    { unfold posting. unfold findDocumentsByWord in Hin.
      by destruct (wordIndex s !! toLowerCase w). }
    apply (Consistent_posting s _ d Hc) in Hp as (doc' & Hdoc' & Hhas).
    rewrite Hdoc in Hdoc'. injection Hdoc' as <-.
    by rewrite (normalizedWord_lower w) in Hhas
      by (by eapply extractWords_chars).
Qed.

Lemma search_whole_words_witness :
  let q := mkSearchQuery (str "hello world") None None None None in
  reachable store3
  ∧ ∃ resp,
      search q store3 = Some resp
      ∧ totalMatches resp = 1
      ∧ ∀ r, r ∈ results resp →
             ∃ doc, getDocument (documentId r) store3 = Some doc
                    ∧ ∀ w, w ∈ extractWords (query q) → hasWord doc w.
Proof.
  intros q.
  assert (reachable store3) as Hs.
  { repeat (apply reach_create; [|reflexivity]). apply reach_empty. }
  assert (∃ resp, search q store3 = Some resp ∧ totalMatches resp = 1)
    as (resp & Heq & Htotal).
  { eexists. split; [vm_compute; reflexivity|reflexivity]. }
  split; [exact Hs|]. exists resp. split; [exact Heq|].
  split; [exact Htotal|].
  exact (proj2 (search_whole_words q store3 resp Hs (or_introl eq_refl)
                  Heq)).
Defined.

(** The word of the query must be a whole word of the document: the text
    [wor] occurs in the only stored document, yet the search for it looks
    into no document. *)
Example search_part_of_word :
  literalAt true (str "wor") (str "hello world today") 6 = true
  ∧ search (mkSearchQuery (str "wor") None None None None) store1
    = Some (mkSearchResponse (str "wor") 0 0 []).
Proof. by vm_compute. Qed.

End PrefilterFacts.
